(** * flexjson: the tolerant batch parser and the incremental decoder

    A shallow embedding of [json.go] (Lexer, Parser, ParsePartialJSON,
    ParsePartialJSONObject) and of [stream.go] (StreamingParser) together
    with the properties of the specification that are settled on them.

    Conventions.
    - A Go [string] is a Rocq [string]; a Go byte is an [ascii].
    - A Go [(T, error)] result is a [result T]; an [error] that may be nil is
      an [option string] carrying the message.
    - Loops whose termination is not structural carry a counter that is
      initialised from the number of bytes (or tokens) still to be read;
      the adequacy lemmas show that the counter never runs out.
    - Containers of the streaming parser live in a store addressed by
      locations, since the parser keeps several references to one and the
      same Go map or slice variable. *)

From Stdlib Require Import ZArith String Ascii List Bool Lia.
From Stdlib Require Import Floats.SpecFloat.
From stdpp Require Import base tactics option list gmap strings.

Local Open Scope string_scope.
Local Open Scope nat_scope.
Local Open Scope list_scope.

(* ===================================================================== *)
(** ** Bytes and strings *)
(* ===================================================================== *)

(** [s[i:]] of Go. *)
Fixpoint string_drop (n : nat) (s : string) : string :=
  match n, s with
  | O, _ => s
  | S n', String _ s' => string_drop n' s'
  | S _, EmptyString => EmptyString
  end.

(** [s[lo:hi]] of Go, for [lo <= hi <= len(s)]. *)
Definition slice (s : string) (lo hi : nat) : string :=
  String.substring lo (hi - lo) s.

(** [string(c)] for a byte [c]. *)
Definition string_of_byte (c : ascii) : string := String c EmptyString.

Definition byte_eqb (a b : ascii) : bool := Ascii.eqb a b.

(** The bytes named in the sources. *)
Definition ch_quote : ascii := "034"%char.
Definition ch_backslash : ascii := "\"%char.
Definition ch_tab : ascii := ascii_of_nat 9.
Definition ch_lf : ascii := ascii_of_nat 10.
Definition ch_cr : ascii := ascii_of_nat 13.

Definition str_quote : string := string_of_byte ch_quote.
Definition str_backslash : string := string_of_byte ch_backslash.
Definition str_tab : string := string_of_byte ch_tab.
Definition str_lf : string := string_of_byte ch_lf.
Definition str_cr : string := string_of_byte ch_cr.

(** JSON texts are written below with an apostrophe wherever the text has a
    double quote; [json] puts the double quotes back. *)
Fixpoint json (s : string) : string :=
  match s with
  | EmptyString => EmptyString
  | String c s' => String (if byte_eqb c "'" then ch_quote else c) (json s')
  end.

(** A result of a fallible Go function. *)
Inductive result (A : Type) : Type :=
| Ok (a : A)
| Err (msg : string).
Arguments Ok {A} a.
Arguments Err {A} msg.

(** A Go [error] value; [None] is [nil]. *)
Definition error : Type := option string.

(* json.go:192 *)
Definition isDigit (c : ascii) : bool :=
  Ascii.leb "0" c && Ascii.leb c "9".

(* json.go:196 *)
Definition isAlpha (c : ascii) : bool :=
  (Ascii.leb "a" c && Ascii.leb c "z")
  || (Ascii.leb "A" c && Ascii.leb c "Z")
  || byte_eqb c "_".

(* json.go:200 *)
Definition isAlphaNumeric (c : ascii) : bool :=
  isAlpha c || isDigit c.

(* ===================================================================== *)
(** ** The two functions of Go's [strconv] that the sources call *)
(* ===================================================================== *)

Module strconv.

(** A [float64], as the IEEE 754 binary64 datum of the Standard Library's
    specification of floating-point numbers. *)
Definition float64 : Type := spec_float.

Definition prec : Z := 53.
Definition emax : Z := 1024.

Definition digit_val (c : ascii) : Z := Z.of_nat (nat_of_ascii c) - 48.

(** The value of a run of decimal digits, [None] when a byte is not a
    digit. *)
Fixpoint digits_val (acc : Z) (s : string) : option Z :=
  match s with
  | EmptyString => Some acc
  | String c s' =>
      if isDigit c then digits_val (acc * 10 + digit_val c) s' else None
  end.

Definition strip_sign (s : string) : bool * string :=
  match s with
  | String c s' =>
      if byte_eqb c "-" then (true, s')
      else if byte_eqb c "+" then (false, s')
      else (false, s)
  | EmptyString => (false, s)
  end.

(** [strconv.ParseInt(s, 10, 64)] with [err == nil]: an optional sign, at
    least one decimal digit and nothing else, and a value that fits a
    signed 64-bit integer. *)
Definition ParseInt (s : string) : option Z :=
  let '(neg, ds) := strip_sign s in
  match ds with
  | EmptyString => None
  | _ =>
      match digits_val 0 ds with
      | Some u =>
          let v := (if neg then - u else u)%Z in
          if ((- 2 ^ 63 <=? v) && (v <=? 2 ^ 63 - 1))%Z then Some v else None
      | None => None
      end
  end.

(** Splits a leading run of decimal digits off [s]: the value read so far,
    the number of digits and the rest. *)
Fixpoint read_digits (acc : Z) (n : nat) (s : string) : Z * nat * string :=
  match s with
  | String c s' =>
      if isDigit c then read_digits (acc * 10 + digit_val c) (S n) s'
      else (acc, n, s)
  | EmptyString => (acc, n, s)
  end.

(** The exponent digits; like [readFloat], the accumulation stops growing
    once the exponent has reached 10000. *)
Fixpoint read_exp (e : Z) (s : string) : option Z :=
  match s with
  | EmptyString => Some e
  | String c s' =>
      if isDigit c
      then read_exp (if (e <? 10000)%Z then e * 10 + digit_val c else e)%Z s'
      else None
  end.

Definition is_e (c : ascii) : bool := byte_eqb c "e" || byte_eqb c "E".

(** The exponent part: empty, or [e]/[E], an optional sign and at least one
    digit up to the end of the text. *)
Definition read_exponent (s : string) : option Z :=
  match s with
  | EmptyString => Some 0%Z
  | String c s' =>
      if is_e c then
        let '(neg, ds) := strip_sign s' in
        match ds with
        | EmptyString => None
        | _ =>
            match read_exp 0 ds with
            | Some e => Some (if neg then - e else e)%Z
            | None => None
            end
        end
      else None
  end.

(** The correctly rounded binary64 nearest to [(-1)^neg * m * 10^e];
    [None] when it is out of range ([ErrRange]). *)
Definition round_decimal (neg : bool) (m e : Z) : option float64 :=
  match m with
  | Zpos p =>
      let f :=
        if (0 <=? e)%Z
        then binary_normalize prec emax (m * 10 ^ e) 0 neg
        else SFdiv prec emax (S754_finite neg p 0)
                             (S754_finite false (Z.to_pos (10 ^ (- e))) 0) in
      match f with
      | S754_infinity _ => None
      | _ => Some f
      end
  | _ => Some (S754_zero neg)
  end.

(** [strconv.ParseFloat(s, 64)] with [err == nil], on decimal literals: an
    optional sign, digits with an optional point (at least one digit), an
    optional exponent. The names [inf], [infinity] and [nan], the
    hexadecimal forms and digit-separating underscores that [strconv] also
    accepts are outside this model, which answers [None] for them; the
    lexer's number tokens contain none of them. The development below is
    parametric in the float parser and uses this one for examples. *)
Definition ParseFloat (s : string) : option float64 :=
  let '(neg, s1) := strip_sign s in
  let '(mi, ni, s2) := read_digits 0 0 s1 in
  let '(m, nd, nf, s3) :=
    match s2 with
    | String c s2' =>
        if byte_eqb c "." then
          let '(mf, nf, s3) := read_digits mi 0 s2' in (mf, ni + nf, nf, s3)
        else (mi, ni, 0, s2)
    | EmptyString => (mi, ni, 0, s2)
    end in
  match nd with
  | O => None
  | S _ =>
      match read_exponent s3 with
      | Some e => round_decimal neg m (e - Z.of_nat nf)
      | None => None
      end
  end.

End strconv.

Abbreviation float64 := strconv.float64.


(* ===================================================================== *)
(** ** json.go: tokens and the lexer *)
(* ===================================================================== *)

(* json.go:9 *)
Inductive TokenType : Type :=
| TokenError
| TokenEOF
| TokenLeftBrace
| TokenRightBrace
| TokenLeftBracket
| TokenRightBracket
| TokenColon
| TokenComma
| TokenString
| TokenNumber
| TokenTrue
| TokenFalse
| TokenNull.

#[global] Instance TokenType_eq_dec : EqDecision TokenType.
Proof. solve_decision. Defined.

Definition TokenType_eqb (a b : TokenType) : bool := bool_decide (a = b).

(* json.go:28; the field [Type] of the source is [Typ] here *)
Record Token : Type := mkToken {
  Typ : TokenType;
  Value : string
}.

(* json.go:34 *)
Record Lexer : Type := mkLexer {
  input : string;
  pos : nat;
  start : nat;
  tokens : list Token
}.

(* json.go:42 *)
Definition NewLexer (input : string) : Lexer :=
  {| input := input; pos := 0; start := 0; tokens := [] |}.

Definition set_pos (n : nat) (l : Lexer) : Lexer :=
  {| input := input l; pos := n; start := start l; tokens := tokens l |}.

Definition set_start (n : nat) (l : Lexer) : Lexer :=
  {| input := input l; pos := pos l; start := n; tokens := tokens l |}.

(** [l.tokens = append(l.tokens, t)] *)
Definition push_token (t : Token) (l : Lexer) : Lexer :=
  {| input := input l; pos := pos l; start := start l;
     tokens := tokens l ++ [t] |}.

(** [l.input[i]]; [None] stands for an index out of range, which the source
    excludes by testing [i < len(l.input)] first. *)
Definition byte_at (l : Lexer) (i : nat) : option ascii :=
  String.get i (input l).

(* json.go:103 *)
Definition addToken (tokenType : TokenType) (l : Lexer) : Lexer :=
  match byte_at l (pos l) with
  | Some c =>
      set_pos (S (pos l))
        (push_token {| Typ := tokenType; Value := string_of_byte c |} l)
  | None => l
  end.

(** [for p < len(input) && cond(input[p]) { p++ }]: the position where the
    loop stops. The counter bounds the number of iterations. *)
Fixpoint skip_while (cond : ascii -> bool) (n : nat) (inp : string) (p : nat)
  : nat :=
  match n with
  | O => p
  | S n' =>
      match String.get p inp with
      | Some c => if cond c then skip_while cond n' inp (S p) else p
      | None => p
      end
  end.

Definition scan_while (cond : ascii -> bool) (l : Lexer) : Lexer :=
  set_pos (skip_while cond (String.length (input l) - pos l) (input l) (pos l)) l.

(** The loop of [scanString] (json.go:116-121). *)
Fixpoint skip_string (n : nat) (inp : string) (p : nat) : nat :=
  match n with
  | O => p
  | S n' =>
      match String.get p inp with
      | Some c =>
          if byte_eqb c ch_quote then p
          else
            let p1 :=
              if byte_eqb c ch_backslash && (p + 1 <? String.length inp)
              then S p else p in
            skip_string n' inp (S p1)
      | None => p
      end
  end.

(* json.go:110 *)
Definition scanString (l : Lexer) : Lexer :=
  let l := set_pos (S (pos l)) l in
  let startPos := pos l in
  let l :=
    set_pos (skip_string (String.length (input l) - pos l) (input l) (pos l)) l in
  let value := slice (input l) startPos (pos l) in
  let l := push_token {| Typ := TokenString; Value := value |} l in
  if pos l <? String.length (input l) then set_pos (S (pos l)) l else l.

Definition byte_is (l : Lexer) (cond : ascii -> bool) : bool :=
  match byte_at l (pos l) with
  | Some c => cond c
  | None => false
  end.

(* json.go:132 *)
Definition scanNumber (l : Lexer) : Lexer :=
  let startPos := pos l in
  let l := if byte_is l (fun c => byte_eqb c "-") then set_pos (S (pos l)) l else l in
  let l := scan_while isDigit l in
  let l :=
    if byte_is l (fun c => byte_eqb c ".")
    then scan_while isDigit (set_pos (S (pos l)) l)
    else l in
  let l :=
    if byte_is l (fun c => byte_eqb c "e" || byte_eqb c "E") then
      let l := set_pos (S (pos l)) l in
      let l :=
        if byte_is l (fun c => byte_eqb c "+" || byte_eqb c "-")
        then set_pos (S (pos l)) l else l in
      scan_while isDigit l
    else l in
  let value := slice (input l) startPos (pos l) in
  push_token {| Typ := TokenNumber; Value := value |} l.

(* json.go:169 *)
Definition scanIdentifier (l : Lexer) : Lexer :=
  let startPos := pos l in
  let l := scan_while isAlphaNumeric l in
  let value := slice (input l) startPos (pos l) in
  if String.eqb value "true" then push_token {| Typ := TokenTrue; Value := value |} l
  else if String.eqb value "false" then push_token {| Typ := TokenFalse; Value := value |} l
  else if String.eqb value "null" then push_token {| Typ := TokenNull; Value := value |} l
  else l.

(* json.go:64 *)
Definition scanToken (l : Lexer) : Lexer :=
  match byte_at l (pos l) with
  | None => l
  | Some c =>
      if byte_eqb c "{" then addToken TokenLeftBrace l
      else if byte_eqb c "}" then addToken TokenRightBrace l
      else if byte_eqb c "[" then addToken TokenLeftBracket l
      else if byte_eqb c "]" then addToken TokenRightBracket l
      else if byte_eqb c ":" then addToken TokenColon l
      else if byte_eqb c "," then addToken TokenComma l
      else if byte_eqb c ch_quote then scanString l
      else if byte_eqb c " " || byte_eqb c ch_tab || byte_eqb c ch_cr
              || byte_eqb c ch_lf then set_pos (S (pos l)) l
      else if isDigit c || byte_eqb c "-" then scanNumber l
      else if isAlpha c then scanIdentifier l
      else set_pos (S (pos l)) l
  end.

(** The loop of [Tokenize] (json.go:53-56). *)
Fixpoint tokenize_loop (n : nat) (l : Lexer) : Lexer :=
  match n with
  | O => l
  | S n' =>
      if pos l <? String.length (input l)
      then tokenize_loop n' (scanToken (set_start (pos l) l))
      else l
  end.

(* json.go:52 *)
Definition Tokenize (l : Lexer) : list Token :=
  let l := tokenize_loop (String.length (input l) - pos l) l in
  tokens (push_token {| Typ := TokenEOF; Value := "" |} l).


(* ===================================================================== *)
(** ** json.go: values and the recursive-descent parser *)
(* ===================================================================== *)

(** The dynamic values ([interface{}]) that the batch parser builds: [nil],
    [bool], [int64], [float64], [string], [[]interface{}] and
    [map[string]interface{}]. The parser never shares a container, so the
    value is a tree. *)
#[warnings="-register-all"]
Inductive JValue : Type :=
| JNull
| JBool (b : bool)
| JInt (i : Z)
| JFloat (f : float64)
| JString (s : string)
| JArray (xs : list JValue)
| JObject (m : gmap string JValue).

(* json.go:205; [tokens] of the source is [ptokens] here *)
Record Parser : Type := mkParser {
  ptokens : list Token;
  current : nat
}.

(* json.go:211 *)
Definition NewParser (tokens : list Token) : Parser :=
  {| ptokens := tokens; current := 0 |}.

(* json.go:440 *)
Definition isAtEnd (p : Parser) : bool :=
  match ptokens p !! current p with
  | None => true
  | Some t => TokenType_eqb (Typ t) TokenEOF
  end.

(* json.go:423 *)
Definition advance (p : Parser) : Parser :=
  if isAtEnd p then p
  else {| ptokens := ptokens p; current := S (current p) |}.

(** json.go:429. Indexing out of range panics in Go; every call in the
    source follows a test that the parser is not at the end. *)
Definition peek (p : Parser) : Token :=
  match ptokens p !! current p with
  | Some t => t
  | None => {| Typ := TokenError; Value := "" |}
  end.

(* json.go:433 *)
Definition check (p : Parser) (tokenType : TokenType) : bool :=
  if isAtEnd p then TokenType_eqb tokenType TokenEOF
  else TokenType_eqb (Typ (peek p)) tokenType.

(** Addresses of the maps made by [make(map[string]any)] and of the slice
    variables [newArray] whose address [&newArray] the parser stores. *)
Abbreviation loc := nat (only parsing).

(** The float parser of Go's library, which the sources import:
    [strconv.ParseFloat(s, 64)], [None] when it reports an error. The model
    and its general properties hold for any such function. *)
Class Strconv : Type := {
  ParseFloat : string -> option float64
}.

Section Model.
Context {SC : Strconv}.

(** The number case of [parseValue] (json.go:249-257) and the body of
    [parseNumber] (stream.go:362). *)
Definition parse_number (s : string) : result (Z + float64) :=
  match strconv.ParseInt s with
  | Some i => Ok (inl i)
  | None =>
      match ParseFloat s with
      | Some f => Ok (inr f)
      | None => Err ("invalid number: " +:+ s)
      end
  end.

Definition lift {A B : Type} (f : A -> B)
    (r : option (result A * Parser)) : option (result B * Parser) :=
  match r with
  | Some (Ok a, p) => Some (Ok (f a), p)
  | Some (Err e, p) => Some (Err e, p)
  | None => None
  end.

(** [parseValue], [parseObject] and [parseArray] call each other and loop;
    the first argument bounds the depth of the calls, [None] is returned
    when it runs out. *)
Fixpoint parseValue (n : nat) (p : Parser) {struct n}
  : option (result JValue * Parser) :=
  match n with
  | O => None
  | S n' =>
      (* json.go:232 *)
      if isAtEnd p then Some (Err "unexpected end of JSON", p)
      else
        let token := peek p in
        match Typ token with
        | TokenLeftBrace => lift JObject (parseObject n' p)
        | TokenLeftBracket => lift JArray (parseArray n' p)
        | TokenString => Some (Ok (JString (Value token)), advance p)
        | TokenNumber =>
            let p := advance p in
            match parse_number (Value token) with
            | Ok (inl i) => Some (Ok (JInt i), p)
            | Ok (inr f) => Some (Ok (JFloat f), p)
            | Err e => Some (Err e, p)
            end
        | TokenTrue => Some (Ok (JBool true), advance p)
        | TokenFalse => Some (Ok (JBool false), advance p)
        | TokenNull => Some (Ok JNull, advance p)
        | TokenEOF => Some (Err "unexpected end of JSON", p)
        | _ => Some (Err ("unexpected token: " +:+ Value token), advance p)
        end
  end

with parseObject (n : nat) (p : Parser) {struct n}
  : option (result (gmap string JValue) * Parser) :=
  match n with
  | O => None
  | S n' =>
      (* json.go:276 *)
      let obj : gmap string JValue := ∅ in
      let p := advance p in
      if check p TokenRightBrace then Some (Ok obj, advance p)
      else parseObjectLoop n' obj p
  end

(** One iteration of the [for] of [parseObject] (json.go:288-362). *)
with parseObjectLoop (n : nat) (obj : gmap string JValue) (p : Parser)
    {struct n} : option (result (gmap string JValue) * Parser) :=
  match n with
  | O => None
  | S n' =>
      if isAtEnd p then Some (Ok obj, p)
      else if negb (check p TokenString) then
        if check p TokenEOF then Some (Ok obj, p)
        else Some (Err "expected string key in object", p)
      else
        let key := Value (peek p) in
        let p := advance p in
        if negb (check p TokenColon) then
          if check p TokenEOF then Some (Ok (<[key := JNull]> obj), p)
          else Some (Err "expected ':' after key in object", p)
        else
          let p := advance p in
          if check p TokenEOF then Some (Ok (<[key := JNull]> obj), p)
          else
            match parseValue n' p with
            | None => None
            | Some (Err e, p) =>
                if check p TokenEOF then Some (Ok (<[key := JNull]> obj), p)
                else Some (Err e, p)
            | Some (Ok value, p) =>
                let obj := <[key := value]> obj in
                if negb (check p TokenComma) && negb (check p TokenRightBrace)
                then
                  if check p TokenEOF then Some (Ok obj, p)
                  else Some (Err "expected ',' or '}' after object value", p)
                else if check p TokenRightBrace then Some (Ok obj, advance p)
                else
                  let p := advance p in
                  if check p TokenEOF then Some (Ok obj, p)
                  else parseObjectLoop n' obj p
            end
  end

with parseArray (n : nat) (p : Parser) {struct n}
  : option (result (list JValue) * Parser) :=
  match n with
  | O => None
  | S n' =>
      (* json.go:366 *)
      let arr : list JValue := [] in
      let p := advance p in
      if check p TokenRightBracket then Some (Ok arr, advance p)
      else parseArrayLoop n' arr p
  end

(** One iteration of the [for] of [parseArray] (json.go:378-419). *)
with parseArrayLoop (n : nat) (arr : list JValue) (p : Parser) {struct n}
  : option (result (list JValue) * Parser) :=
  match n with
  | O => None
  | S n' =>
      if isAtEnd p then Some (Ok arr, p)
      else
        match parseValue n' p with
        | None => None
        | Some (Err e, p) =>
            if check p TokenEOF then Some (Ok arr, p) else Some (Err e, p)
        | Some (Ok value, p) =>
            let arr := (arr ++ [value])%list in
            if negb (check p TokenComma) && negb (check p TokenRightBracket)
            then
              if check p TokenEOF then Some (Ok arr, p)
              else Some (Err "expected ',' or ']' after array value", p)
            else if check p TokenRightBracket then Some (Ok arr, advance p)
            else
              let p := advance p in
              if check p TokenEOF then Some (Ok arr, p)
              else parseArrayLoop n' arr p
        end
  end.

(** The number of tokens from the current one on. *)
Definition remaining (p : Parser) : nat := length (ptokens p) - current p.

(** A depth that the parse of the remaining tokens cannot exceed. *)
Definition depth_bound (p : Parser) : nat := 3 * remaining p + 3.

(* json.go:219 *)
Definition Parse (p : Parser) : option (result JValue) :=
  if length (ptokens p) =? 0 then Some (Err "no tokens to parse")
  else
    match parseValue (depth_bound p) p with
    | Some (r, _) => Some r
    | None => None
    end.

(* json.go:445 *)
Definition ParsePartialJSON (input : string) : option (result JValue) :=
  let lexer := NewLexer input in
  let tokens := Tokenize lexer in
  let parser := NewParser tokens in
  Parse parser.

(* json.go:455 *)
Definition ParsePartialJSONObject (input : string)
  : option (result (gmap string JValue)) :=
  match ParsePartialJSON input with
  | None => None
  | Some (Err e) => Some (Err e)
  | Some (Ok (JObject obj)) => Some (Ok obj)
  | Some (Ok _) => Some (Err "input is not a JSON object")
  end.

(* ===================================================================== *)
(** ** stream.go: the streaming parser *)
(* ===================================================================== *)

(** The dynamic values ([any], [interface{}]) that the streaming parser
    handles. A Go map is a reference, and the parser stores the address of a
    slice variable, so both are locations of the store; [AMapPtr] is the
    pointer [sp.output] itself (the only [*map[string]any] there is), and
    [ASlice] a slice held by value. *)
#[warnings="-register-all"]
Inductive any : Type :=
| ANil
| ABool (b : bool)
| AInt64 (i : Z)
| AFloat64 (f : float64)
| AString (s : string)
| AMapPtr
| AMap (l : loc)
| ASlicePtr (l : loc)
| ASlice (xs : list any).

(** What a location holds: the entries of a map, or the slice that the
    variable currently holds. *)
Inductive cell : Type :=
| MapCell (m : gmap string any)
| SliceCell (xs : list any).

(** stream.go:11. The fields of the Go struct, and the memory they refer to:
    [output] is the map that the pointer [sp.output] addresses (the pointer
    is never reassigned), [heap] holds the containers created so far and
    [next] is the next unused location. *)
Record StreamingParser : Type := mkStreamingParser {
  output : gmap string any;
  heap : gmap loc cell;
  next : loc;
  stack : list any;
  keys : list string;
  paths : list string;
  buffer : string;
  isEscaping : bool;
  inString : bool;
  expectingKey : bool;
  expectColon : bool;
  lastChar : string;
  debug : bool
}.

Definition set_output (v : gmap string any) (sp : StreamingParser) :=
  mkStreamingParser v (heap sp) (next sp) (stack sp) (keys sp) (paths sp)
    (buffer sp) (isEscaping sp) (inString sp) (expectingKey sp)
    (expectColon sp) (lastChar sp) (debug sp).

Definition set_heap (v : gmap loc cell) (sp : StreamingParser) :=
  mkStreamingParser (output sp) v (next sp) (stack sp) (keys sp) (paths sp)
    (buffer sp) (isEscaping sp) (inString sp) (expectingKey sp)
    (expectColon sp) (lastChar sp) (debug sp).

Definition set_next (v : loc) (sp : StreamingParser) :=
  mkStreamingParser (output sp) (heap sp) v (stack sp) (keys sp) (paths sp)
    (buffer sp) (isEscaping sp) (inString sp) (expectingKey sp)
    (expectColon sp) (lastChar sp) (debug sp).

Definition set_stack (v : list any) (sp : StreamingParser) :=
  mkStreamingParser (output sp) (heap sp) (next sp) v (keys sp) (paths sp)
    (buffer sp) (isEscaping sp) (inString sp) (expectingKey sp)
    (expectColon sp) (lastChar sp) (debug sp).

Definition set_keys (v : list string) (sp : StreamingParser) :=
  mkStreamingParser (output sp) (heap sp) (next sp) (stack sp) v (paths sp)
    (buffer sp) (isEscaping sp) (inString sp) (expectingKey sp)
    (expectColon sp) (lastChar sp) (debug sp).

Definition set_buffer (v : string) (sp : StreamingParser) :=
  mkStreamingParser (output sp) (heap sp) (next sp) (stack sp) (keys sp)
    (paths sp) v (isEscaping sp) (inString sp) (expectingKey sp)
    (expectColon sp) (lastChar sp) (debug sp).

Definition set_isEscaping (v : bool) (sp : StreamingParser) :=
  mkStreamingParser (output sp) (heap sp) (next sp) (stack sp) (keys sp)
    (paths sp) (buffer sp) v (inString sp) (expectingKey sp)
    (expectColon sp) (lastChar sp) (debug sp).

Definition set_inString (v : bool) (sp : StreamingParser) :=
  mkStreamingParser (output sp) (heap sp) (next sp) (stack sp) (keys sp)
    (paths sp) (buffer sp) (isEscaping sp) v (expectingKey sp)
    (expectColon sp) (lastChar sp) (debug sp).

Definition set_expectingKey (v : bool) (sp : StreamingParser) :=
  mkStreamingParser (output sp) (heap sp) (next sp) (stack sp) (keys sp)
    (paths sp) (buffer sp) (isEscaping sp) (inString sp) v
    (expectColon sp) (lastChar sp) (debug sp).

Definition set_expectColon (v : bool) (sp : StreamingParser) :=
  mkStreamingParser (output sp) (heap sp) (next sp) (stack sp) (keys sp)
    (paths sp) (buffer sp) (isEscaping sp) (inString sp) (expectingKey sp)
    v (lastChar sp) (debug sp).

Definition set_lastChar (v : string) (sp : StreamingParser) :=
  mkStreamingParser (output sp) (heap sp) (next sp) (stack sp) (keys sp)
    (paths sp) (buffer sp) (isEscaping sp) (inString sp) (expectingKey sp)
    (expectColon sp) v (debug sp).

Definition set_debug (v : bool) (sp : StreamingParser) :=
  mkStreamingParser (output sp) (heap sp) (next sp) (stack sp) (keys sp)
    (paths sp) (buffer sp) (isEscaping sp) (inString sp) (expectingKey sp)
    (expectColon sp) (lastChar sp) v.

(** stream.go:26. The argument is the map that the caller's pointer
    addresses, [None] for a nil pointer; either way the parser starts on an
    empty map ([make], or the [delete] of every key), and has created no
    container yet. *)
Definition NewStreamingParser (out : option (gmap string any))
  : StreamingParser :=
  let m : gmap string any :=
    match out with
    | None => ∅
    | Some m => filter (fun _ => False) m
    end in
  {| output := m; heap := ∅; next := 0;
     stack := [AMapPtr]; keys := []; paths := []; buffer := "";
     isEscaping := false; inString := false; expectingKey := true;
     expectColon := false; lastChar := ""; debug := false |}.

(** [make(map[string]any)] and [make([]interface{}, 0)] with its address
    taken: a new location holding the empty container. *)
Definition alloc (c : cell) (sp : StreamingParser) : loc * StreamingParser :=
  (next sp, set_next (S (next sp)) (set_heap (<[next sp := c]> (heap sp)) sp)).

(** [l[len(l)-2]], for [len(l) >= 2]. *)
Definition last2 {A : Type} (l : list A) : option A :=
  if 2 <=? length l then l !! (length l - 2) else None.

(** [m[key] = value] on the map at location [l]. *)
Definition map_store (l : loc) (key : string) (value : any)
    (sp : StreamingParser) : StreamingParser :=
  match heap sp !! l with
  | Some (MapCell m) =>
      set_heap (<[l := MapCell (<[key := value]> m)]> (heap sp)) sp
  | _ => sp
  end.

(* stream.go:385 *)
Definition addValue (value : any) (sp : StreamingParser) : StreamingParser :=
  match last (stack sp) with
  | None => sp
  | Some current =>
      match current with
      | AMapPtr =>
          match last (keys sp) with
          | Some key => set_output (<[key := value]> (output sp)) sp
          | None => sp
          end
      | AMap l =>
          match last (keys sp) with
          | Some key => map_store l key value sp
          | None => sp
          end
      | ASlicePtr l =>
          match heap sp !! l with
          | Some (SliceCell xs) =>
              set_heap (<[l := SliceCell (xs ++ [value])]> (heap sp)) sp
          | _ => sp
          end
      | ASlice container =>
          let newSlice := ASlice (container ++ [value]) in
          let sp :=
            match last2 (stack sp) with
            | Some AMapPtr =>
                match last2 (keys sp) with
                | Some key => set_output (<[key := newSlice]> (output sp)) sp
                | None => sp
                end
            | Some (AMap l) =>
                match last2 (keys sp) with
                | Some key => map_store l key newSlice sp
                | None => sp
                end
            | _ => sp
            end in
          set_stack (<[length (stack sp) - 1 := newSlice]> (stack sp)) sp
      | _ => sp
      end
  end.

(* stream.go:377 *)
Definition getCurrentContainer (sp : StreamingParser) : option any :=
  last (stack sp).

(* stream.go:442 *)
Definition Reset (sp : StreamingParser) : StreamingParser :=
  {| output := filter (fun _ => False) (output sp);
     heap := heap sp; next := next sp;
     stack := [AMapPtr]; keys := []; paths := []; buffer := "";
     isEscaping := false; inString := false; expectingKey := true;
     expectColon := false; lastChar := ""; debug := debug sp |}.

(* stream.go:460 *)
Definition SetDebug (value : bool) (sp : StreamingParser) : StreamingParser :=
  set_debug value sp.

(* stream.go:471 *)
Definition GetCurrentOutput (sp : StreamingParser) : gmap string any :=
  output sp.

(** [sp.stack = sp.stack[:len(sp.stack)-1]] and the same for the keys, as in
    the cases of the closing brace and bracket (stream.go:158-165). *)
Definition pop_frame (sp : StreamingParser) : StreamingParser :=
  if 1 <? length (stack sp) then
    let sp := set_stack (removelast (stack sp)) sp in
    if 0 <? length (keys sp) then set_keys (removelast (keys sp)) sp else sp
  else sp.

Definition accept (c : string) (sp : StreamingParser)
  : StreamingParser * error :=
  (set_lastChar c sp, None).

Definition reject (msg : string) (sp : StreamingParser)
  : StreamingParser * error :=
  (sp, Some msg).

Definition seqb (a b : string) : bool := String.eqb a b.

(* stream.go:362 *)
Definition parseNumber (sp : StreamingParser) : result any :=
  match parse_number (buffer sp) with
  | Ok (inl i) => Ok (AInt64 i)
  | Ok (inr f) => Ok (AFloat64 f)
  | Err e => Err e
  end.

(** The first statement of [ProcessChar] (stream.go:67-74). *)
Definition flush_number (c : string) (sp : StreamingParser) : StreamingParser :=
  if (seqb c "," || seqb c "}" || seqb c "]") && negb (seqb (buffer sp) "")
  then
    match parseNumber sp with
    | Ok value => set_buffer "" (addValue value sp)
    | Err _ => sp
    end
  else sp.

(** The string state of [ProcessChar] (stream.go:77-121). *)
Definition process_in_string (c : string) (sp : StreamingParser)
  : StreamingParser * error :=
  if isEscaping sp then
    accept c (set_isEscaping false (set_buffer (buffer sp +:+ c) sp))
  else if seqb c str_backslash then
    accept c (set_isEscaping true sp)
  else if seqb c str_quote then
    let sp := set_inString false sp in
    let sp :=
      if expectingKey sp then
        set_expectColon true
          (set_expectingKey false (set_keys (keys sp ++ [buffer sp]) sp))
      else addValue (AString (buffer sp)) sp in
    accept c (set_buffer "" sp)
  else
    accept c (set_buffer (buffer sp +:+ c) sp).

(** The [switch] of [ProcessChar] (stream.go:124-358). The message of the
    error for a colon is followed in Go by a dump of the parser, which is
    left out. *)
Definition process_other (c : string) (sp : StreamingParser)
  : StreamingParser * error :=
  if seqb c " " || seqb c str_tab || seqb c str_cr || seqb c str_lf then
    accept c sp
  else if seqb c "{" then
    if (length (stack sp) =? 1) && (length (keys sp) =? 0) then
      accept c (set_expectingKey true sp)
    else
      let '(l, sp) := alloc (MapCell ∅) sp in
      let newObj := AMap l in
      let sp := addValue newObj sp in
      let sp := set_stack (stack sp ++ [newObj]) sp in
      accept c (set_expectingKey true sp)
  else if seqb c "}" then
    accept c (set_expectColon false (set_expectingKey false (pop_frame sp)))
  else if seqb c "[" then
    let '(l, sp) := alloc (SliceCell []) sp in
    let newArray := ASlicePtr l in
    let sp := addValue newArray sp in
    let sp := set_stack (stack sp ++ [newArray]) sp in
    accept c (set_expectingKey false sp)
  else if seqb c "]" then
    accept c (set_expectColon false (set_expectingKey false (pop_frame sp)))
  else if seqb c str_quote then
    accept c (set_buffer "" (set_inString true sp))
  else if seqb c ":" then
    if negb (expectColon sp) then reject "unexpected ':' - state: " sp
    else accept c (set_expectColon false sp)
  else if seqb c "," then
    let sp :=
      match getCurrentContainer sp with
      | Some AMapPtr | Some (AMap _) => set_expectingKey true sp
      | Some (ASlicePtr _) => set_expectingKey false sp
      | _ => sp
      end in
    accept c sp
  else if seqb c "t" then
    if negb (seqb (buffer sp) "") then reject "unexpected 't'" sp
    else accept c (set_buffer "t" sp)
  else if seqb c "r" then
    if seqb (buffer sp) "t" then accept c (set_buffer "tr" sp)
    else reject "unexpected 'r'" sp
  else if seqb c "u" then
    if seqb (buffer sp) "tr" then accept c (set_buffer "tru" sp)
    else if seqb (buffer sp) "n" then accept c (set_buffer "nu" sp)
    else reject "unexpected 'u'" sp
  else if seqb c "e" then
    if seqb (buffer sp) "tru" then
      accept c (set_buffer "" (addValue (ABool true) sp))
    else if seqb (buffer sp) "fals" then
      accept c (set_buffer "" (addValue (ABool false) sp))
    else reject "unexpected 'e'" sp
  else if seqb c "f" then
    if negb (seqb (buffer sp) "") then reject "unexpected 'f'" sp
    else accept c (set_buffer "f" sp)
  else if seqb c "a" then
    if seqb (buffer sp) "f" then accept c (set_buffer "fa" sp)
    else reject "unexpected 'a'" sp
  else if seqb c "l" then
    if seqb (buffer sp) "fa" then accept c (set_buffer "fal" sp)
    else if seqb (buffer sp) "nu" then accept c (set_buffer "nul" sp)
    else if seqb (buffer sp) "nul" then
      accept c (set_buffer "" (addValue ANil sp))
    else reject "unexpected 'l'" sp
  else if seqb c "s" then
    if seqb (buffer sp) "fal" then accept c (set_buffer "fals" sp)
    else reject "unexpected 's'" sp
  else if seqb c "n" then
    if negb (seqb (buffer sp) "") then reject "unexpected 'n'" sp
    else accept c (set_buffer "n" sp)
  else if (String.leb "0" c && String.leb c "9")
          || seqb c "-" || seqb c "." || seqb c "+" || seqb c "e"
          || seqb c "E" then
    accept c (set_buffer (buffer sp +:+ c) sp)
  else reject ("unexpected character: " +:+ c) sp.

(** stream.go:63. The calls of [sp.log] print when [debug] is set and change
    nothing of the parser; they are left out. *)
Definition ProcessChar (c : string) (sp : StreamingParser)
  : StreamingParser * error :=
  let sp := flush_number c sp in
  if inString sp then process_in_string c sp else process_other c sp.

(** stream.go:52. [range chunk] yields the characters of the chunk; a
    character is a byte here, which is what Go yields on ASCII text. *)
Fixpoint ProcessString (chunk : string) (sp : StreamingParser)
  : StreamingParser * error :=
  match chunk with
  | EmptyString => (sp, None)
  | String c rest =>
      match ProcessChar (string_of_byte c) sp with
      | (sp, None) => ProcessString rest sp
      | (sp, Some err) => (sp, Some err)
      end
  end.

(** A caller that feeds the characters one by one and goes on whatever
    [ProcessChar] answers. *)
Definition feed (cs : list string) (sp : StreamingParser) : StreamingParser :=
  fold_left (fun sp c => fst (ProcessChar c sp)) cs sp.

(** The tree that a value of the streaming parser stands for, read through
    the store down to depth [n]; a pointer to a slice and a slice both read
    as an array. Below depth [n] the tree is cut by [JNull]. *)
Fixpoint denote (n : nat) (sp : StreamingParser) (v : any) {struct n}
  : JValue :=
  match v with
  | ANil => JNull
  | ABool b => JBool b
  | AInt64 i => JInt i
  | AFloat64 f => JFloat f
  | AString s => JString s
  | AMapPtr =>
      match n with
      | O => JNull
      | S n' => JObject (denote n' sp <$> output sp)
      end
  | AMap l =>
      match n, heap sp !! l with
      | S n', Some (MapCell m) => JObject (denote n' sp <$> m)
      | _, _ => JNull
      end
  | ASlicePtr l =>
      match n, heap sp !! l with
      | S n', Some (SliceCell xs) => JArray (denote n' sp <$> xs)
      | _, _ => JNull
      end
  | ASlice xs =>
      match n with
      | O => JNull
      | S n' => JArray (denote n' sp <$> xs)
      end
  end.

(** The output mapping as a tree, read down to depth [n]. *)
Definition snapshot (n : nat) (sp : StreamingParser) : gmap string JValue :=
  denote n sp <$> GetCurrentOutput sp.

(** The operations of a session, for statements about every sequence of
    calls. *)
Inductive call : Type :=
| CallProcessChar (c : string)
| CallProcessString (chunk : string)
| CallReset
| CallSetDebug (value : bool).

Definition exec_call (sp : StreamingParser) (k : call) : StreamingParser :=
  match k with
  | CallProcessChar c => fst (ProcessChar c sp)
  | CallProcessString chunk => fst (ProcessString chunk sp)
  | CallReset => Reset sp
  | CallSetDebug value => SetDebug value sp
  end.

Definition exec (ks : list call) (sp : StreamingParser) : StreamingParser :=
  fold_left exec_call ks sp.

(** The bottom of the container stack is the pointer to the root mapping. *)
Definition rooted (sp : StreamingParser) : Prop :=
  head (stack sp) = Some AMapPtr.

(** Two sessions may hold the same containers at different locations. A
    value with every location moved up by [k]: *)
Fixpoint shift_any (k : nat) (v : any) : any :=
  match v with
  | AMap l => AMap (l + k)
  | ASlicePtr l => ASlicePtr (l + k)
  | ASlice xs => ASlice (map (shift_any k) xs)
  | _ => v
  end.

Definition shift_cell (k : nat) (c : cell) : cell :=
  match c with
  | MapCell m => MapCell (shift_any k <$> m)
  | SliceCell xs => SliceCell (shift_any k <$> xs)
  end.

(** [related k s1 s2]: the session [s1] is the session [s2] with every
    container [k] locations further up; what [s1] holds below [k] is not
    constrained, nor is its [debug] switch. *)
Record related (k : nat) (s1 s2 : StreamingParser) : Prop := mkRelated {
  rel_output : output s1 = shift_any k <$> output s2;
  rel_heap : forall j, heap s1 !! (j + k) = shift_cell k <$> heap s2 !! j;
  rel_next : next s1 = next s2 + k;
  rel_stack : stack s1 = shift_any k <$> stack s2;
  rel_keys : keys s1 = keys s2;
  rel_buffer : buffer s1 = buffer s2;
  rel_isEscaping : isEscaping s1 = isEscaping s2;
  rel_inString : inString s1 = inString s2;
  rel_expectingKey : expectingKey s1 = expectingKey s2;
  rel_expectColon : expectColon s1 = expectColon s2
}.

(** No container lives at or above the next unused location. *)
Definition heap_fresh (sp : StreamingParser) : Prop :=
  forall j, next sp <= j -> heap sp !! j = None.

(** Successive commits of the values [vs] into the current container. *)
Definition addValues (vs : list any) (sp : StreamingParser) : StreamingParser :=
  fold_left (fun sp v => addValue v sp) vs sp.

(** The entry of a mapping (the root through its pointer, or a map of the
    store) under a key. *)
Definition map_entry (sp : StreamingParser) (container : any) (key : string)
  : option any :=
  match container with
  | AMapPtr => output sp !! key
  | AMap l =>
      match heap sp !! l with
      | Some (MapCell m) => m !! key
      | _ => None
      end
  | _ => None
  end.

(** Whether the first statement of [ProcessChar] commits the buffer as a
    number when it is given [c]. *)
Definition flushes (c : string) (sp : StreamingParser) : bool :=
  (seqb c "," || seqb c "}" || seqb c "]")
  && negb (seqb (buffer sp) "")
  && match parseNumber sp with Ok _ => true | Err _ => false end.

(** The tokens from the current one on, and whether they start with the end
    of the input. *)
Definition rest (p : Parser) : list Token := drop (current p) (ptokens p).

Definition exhausted (ts : list Token) : bool :=
  match ts with
  | [] => true
  | t :: _ => TokenType_eqb (Typ t) TokenEOF
  end.

Definition tok (ty : TokenType) (v : string) : Token :=
  {| Typ := ty; Value := v |}.

(** The cursor [p'] is the cursor [p] moved forward on the same tokens. *)
Definition extends (p p' : Parser) : Prop :=
  ptokens p' = ptokens p /\ current p <= current p'.

(** Whether a string body, read from just after its opening quote, has a
    closing quote: a quote that is not the byte after a backslash. *)
Fixpoint has_closing_quote (body : string) : bool :=
  match body with
  | EmptyString => false
  | String c body' =>
      if byte_eqb c ch_quote then true
      else if byte_eqb c ch_backslash then
        match body' with
        | EmptyString => false
        | String _ body'' => has_closing_quote body''
        end
      else has_closing_quote body'
  end.

(** One iteration of the loop of [Tokenize], and the states that the loop
    goes through from a given state. *)
Definition lexer_step (l : Lexer) : Lexer := scanToken (set_start (pos l) l).

Inductive lexer_reaches : Lexer -> Lexer -> Prop :=
| reaches_here (l : Lexer) : lexer_reaches l l
| reaches_step (l l' : Lexer) :
    pos l < String.length (input l) ->
    lexer_reaches (lexer_step l) l' ->
    lexer_reaches l l'.

(** [n] iterations of the loop of [Tokenize], if the loop makes that many. *)
Fixpoint lexer_run (n : nat) (l : Lexer) : option Lexer :=
  match n with
  | O => Some l
  | S n' =>
      if pos l <? String.length (input l) then lexer_run n' (lexer_step l)
      else None
  end.

(** The claim that a token sequence does not end with a string token (before
    the end-of-input token). *)
Definition no_trailing_string (ts : list Token) : Prop :=
  forall pre v, ts <> pre ++ [tok TokenString v; tok TokenEOF ""].

(** What the induction on the depth of the parse establishes: the cursor
    only moves forward, and a depth of three per remaining token is enough
    for the parse to return. *)
Definition moves_forward (n : nat) : Prop :=
  (forall p r p', parseValue n p = Some (r, p') -> extends p p')
  /\ (forall p r p', parseObject n p = Some (r, p') -> extends p p')
  /\ (forall obj p r p', parseObjectLoop n obj p = Some (r, p') -> extends p p')
  /\ (forall p r p', parseArray n p = Some (r, p') -> extends p p')
  /\ (forall arr p r p', parseArrayLoop n arr p = Some (r, p') -> extends p p').

Definition terminates (n : nat) : Prop :=
  (forall p, 3 * remaining p + 3 <= n -> parseValue n p <> None)
  /\ (forall p, 3 * remaining p + 2 <= n -> parseObject n p <> None)
  /\ (forall obj p,
        (isAtEnd p = true /\ 1 <= n) \/ 3 * remaining p + 4 <= n ->
        parseObjectLoop n obj p <> None)
  /\ (forall p, 3 * remaining p + 2 <= n -> parseArray n p <> None)
  /\ (forall arr p,
        (isAtEnd p = true /\ 1 <= n) \/ 3 * remaining p + 4 <= n ->
        parseArrayLoop n arr p <> None).

(* ===================================================================== *)
(** ** Documents: the texts that both parsers are followed on *)
(* ===================================================================== *)

(** The texts that the theorems about whole documents range over: JSON
    documents with their white space, written out by [render]. They are
    not part of the program; the program is followed on their texts.

    The exponent of a number: the letter e or E, a sign or none, digits. *)
Record exponent : Type := mkExponent {
  x_mark : ascii;
  x_sign : string;
  x_digits : string
}.

(** A number literal: its sign, its integer digits, its fraction and its
    exponent. *)
Record number : Type := mkNumber {
  n_neg : bool;
  n_int : string;
  n_frac : option string;
  n_exp : option exponent
}.

(** A value between white space, as an item of an array or the value of a
    member. *)
Record elem_of (D : Type) : Type := mkElem {
  e_lead : string;
  e_val : D;
  e_trail : string
}.
#[global] Arguments mkElem {D}.
#[global] Arguments e_lead {D}.
#[global] Arguments e_val {D}.
#[global] Arguments e_trail {D}.

(** A member of an object: white space, the key between quotes, white
    space, a colon and the value. *)
Record member_of (D : Type) : Type := mkMember {
  m_lead : string;
  m_key : string;
  m_mid : string;
  m_elem : elem_of D
}.
#[global] Arguments mkMember {D}.
#[global] Arguments m_lead {D}.
#[global] Arguments m_key {D}.
#[global] Arguments m_mid {D}.
#[global] Arguments m_elem {D}.

(** A document; [w] is the white space of an empty array or object. *)
#[warnings="-register-all"]
Inductive doc : Type :=
| DNull
| DBool (b : bool)
| DNum (x : number)
| DStr (s : string)
| DArr (w : string) (items : list (elem_of doc))
| DObj (w : string) (members : list (member_of doc)).

(** The text of a document, followed by [k]. *)
Definition number_text (x : number) (k : string) : string :=
  (if n_neg x then "-" else "") +:+ n_int x +:+
  match n_frac x with Some f => String "." f | None => "" end +:+
  match n_exp x with
  | Some e => String (x_mark e) (x_sign e +:+ x_digits e)
  | None => ""
  end +:+ k.

Definition elem_text {D : Type} (r : D -> string -> string) (e : elem_of D)
    (k : string) : string :=
  e_lead e +:+ r (e_val e) (e_trail e +:+ k).

Definition member_text {D : Type} (r : D -> string -> string)
    (m : member_of D) (k : string) : string :=
  m_lead m +:+ String ch_quote (m_key m +:+ String ch_quote
    (m_mid m +:+ String ":" (elem_text r (m_elem m) k))).

(** The items after the first one, each after a comma, and the closing byte. *)
Definition tail_text {A : Type} (f : A -> string -> string) (close : ascii)
    (xs : list A) (k : string) : string :=
  fold_right (fun x acc => String "," (f x acc)) (String close k) xs.

(** The items of an array or the members of an object, and the closing
    byte. *)
Definition seq_text {A : Type} (f : A -> string -> string) (close : ascii)
    (w : string) (xs : list A) (k : string) : string :=
  match xs with
  | [] => w +:+ String close k
  | x :: xs => f x (tail_text f close xs k)
  end.

Fixpoint render (d : doc) (k : string) {struct d} : string :=
  match d with
  | DNull => "null" +:+ k
  | DBool true => "true" +:+ k
  | DBool false => "false" +:+ k
  | DNum x => number_text x k
  | DStr s => String ch_quote (s +:+ String ch_quote k)
  | DArr w items => String "[" (seq_text (elem_text render) "]" w items k)
  | DObj w members => String "{" (seq_text (member_text render) "}" w members k)
  end.

(** The tokens of a document, followed by [k]. *)
Definition tail_tokens {A : Type} (f : A -> list Token -> list Token)
    (close : Token) (xs : list A) (k : list Token) : list Token :=
  fold_right (fun x acc => tok TokenComma "," :: f x acc) (close :: k) xs.

Definition seq_tokens {A : Type} (f : A -> list Token -> list Token)
    (close : Token) (xs : list A) (k : list Token) : list Token :=
  match xs with
  | [] => close :: k
  | x :: xs => f x (tail_tokens f close xs k)
  end.

Definition member_tokens {D : Type} (r : D -> list Token -> list Token)
    (m : member_of D) (k : list Token) : list Token :=
  tok TokenString (m_key m) :: tok TokenColon ":" :: r (e_val (m_elem m)) k.

Fixpoint tokens_of (d : doc) (k : list Token) {struct d} : list Token :=
  match d with
  | DNull => tok TokenNull "null" :: k
  | DBool true => tok TokenTrue "true" :: k
  | DBool false => tok TokenFalse "false" :: k
  | DNum x => tok TokenNumber (number_text x "") :: k
  | DStr s => tok TokenString s :: k
  | DArr _ items =>
      tok TokenLeftBracket "[" ::
      seq_tokens (fun e => tokens_of (e_val e)) (tok TokenRightBracket "]") items k
  | DObj _ members =>
      tok TokenLeftBrace "{" ::
      seq_tokens (member_tokens tokens_of) (tok TokenRightBrace "}") members k
  end.

(** The value that a document stands for: what [parseValue] makes of its
    tokens, and what the streaming parser commits for a number. *)
Definition number_value (x : number) : JValue :=
  match parse_number (number_text x "") with
  | Ok (inl i) => JInt i
  | Ok (inr f) => JFloat f
  | Err _ => JNull
  end.

Definition number_any (x : number) : any :=
  match parse_number (number_text x "") with
  | Ok (inl i) => AInt64 i
  | Ok (inr f) => AFloat64 f
  | Err _ => ANil
  end.

Definition add_member {D : Type} (r : D -> JValue) (obj : gmap string JValue)
    (m : member_of D) : gmap string JValue :=
  <[m_key m := r (e_val (m_elem m))]> obj.

Fixpoint value_of (d : doc) : JValue :=
  match d with
  | DNull => JNull
  | DBool b => JBool b
  | DNum x => number_value x
  | DStr s => JString s
  | DArr _ items => JArray (map (fun e => value_of (e_val e)) items)
  | DObj _ members => JObject (fold_left (add_member value_of) members ∅)
  end.

(** Well-formed documents: white space where white space is written,
    strings without quotes and backslashes, numbers that [strconv]
    accepts. *)
Fixpoint string_forall (p : ascii -> bool) (s : string) : bool :=
  match s with
  | EmptyString => true
  | String c s' => p c && string_forall p s'
  end.

Definition is_ws_byte (c : ascii) : bool :=
  byte_eqb c " " || byte_eqb c ch_tab || byte_eqb c ch_cr || byte_eqb c ch_lf.

Definition is_ws (w : string) : bool := string_forall is_ws_byte w.

Definition plain_byte (c : ascii) : bool :=
  negb (byte_eqb c ch_quote) && negb (byte_eqb c ch_backslash).

(** The characters at which [ProcessChar] commits a number. *)
Definition is_closer (c : ascii) : bool :=
  byte_eqb c "," || byte_eqb c "}" || byte_eqb c "]".

Definition is_Ok {A : Type} (r : result A) : bool :=
  match r with Ok _ => true | Err _ => false end.


Definition str_ok (s : string) : bool := string_forall plain_byte s.

Definition digits_ok (s : string) : bool :=
  string_forall isDigit s && negb (String.eqb s "").

Definition number_ok (x : number) : bool :=
  digits_ok (n_int x)
  && match n_frac x with Some f => string_forall isDigit f | None => true end
  && match n_exp x with
     | Some e =>
         (byte_eqb (x_mark e) "e" || byte_eqb (x_mark e) "E")
         && (String.eqb (x_sign e) "" || String.eqb (x_sign e) "+"
             || String.eqb (x_sign e) "-")
         && digits_ok (x_digits e)
     | None => true
     end
  && is_Ok (parse_number (number_text x "")).

Definition elem_ok {D : Type} (r : D -> bool) (e : elem_of D) : bool :=
  is_ws (e_lead e) && r (e_val e) && is_ws (e_trail e).

Definition member_ok {D : Type} (r : D -> bool) (m : member_of D) : bool :=
  is_ws (m_lead m) && str_ok (m_key m) && is_ws (m_mid m)
  && elem_ok r (m_elem m).

Fixpoint doc_ok (d : doc) : bool :=
  match d with
  | DNull | DBool _ => true
  | DNum x => number_ok x
  | DStr s => str_ok s
  | DArr w items => is_ws w && forallb (elem_ok doc_ok) items
  | DObj w members => is_ws w && forallb (member_ok doc_ok) members
  end.

(** What the streaming parser needs besides: no string that it would take
    for a number at a comma or a closing byte, and exponents written with a
    capital E. *)
Definition number_stream_ok (x : number) : bool :=
  match n_exp x with
  | Some e => byte_eqb (x_mark e) "E"
  | None => true
  end.



Fixpoint doc_size (d : doc) : nat :=
  match d with
  | DArr _ items => S (list_sum (map (fun e => doc_size (e_val e)) items))
  | DObj _ members =>
      S (list_sum (map (fun m => doc_size (e_val (m_elem m))) members))
  | _ => 1
  end.

(** What is left of the input at the position of the lexer. *)
Definition suffix (l : Lexer) : string := string_drop (pos l) (input l).

(** The head of a string does not satisfy [cond] (or the string is empty). *)
Definition head_not (cond : ascii -> bool) (k : string) : bool :=
  match k with
  | EmptyString => true
  | String c _ => negb (cond c)
  end.

(** A text before which a number or a literal ends. *)
Definition stops (k : string) : bool :=
  head_not (fun c => isAlphaNumeric c || byte_eqb c ".") k.

(** The types of the tokens that start a value. *)
Definition value_start (ty : TokenType) : Prop :=
  match ty with
  | TokenLeftBrace | TokenLeftBracket | TokenString | TokenNumber
  | TokenTrue | TokenFalse | TokenNull => True
  | _ => False
  end.

(** [parseValue] on the tokens of a document, followed by [k]. *)
Definition parses_to (d : doc) : Prop :=
  forall n p k,
  rest p = tokens_of d k -> parseValue n p <> None ->
  exists p', parseValue n p = Some (Ok (value_of d), p') /\ rest p' = k.

(** The bytes that are a token of their own, and the literals. *)
Definition punct (c : ascii) (ty : TokenType) : Prop :=
  (c = "{"%char /\ ty = TokenLeftBrace) \/ (c = "}"%char /\ ty = TokenRightBrace)
  \/ (c = "["%char /\ ty = TokenLeftBracket)
  \/ (c = "]"%char /\ ty = TokenRightBracket)
  \/ (c = ":"%char /\ ty = TokenColon) \/ (c = ","%char /\ ty = TokenComma).

Definition literal (w : string) (ty : TokenType) : Prop :=
  (w = "true" /\ ty = TokenTrue) \/ (w = "false" /\ ty = TokenFalse)
  \/ (w = "null" /\ ty = TokenNull).

(** What the lexer does on the text of a document, of an element and of the
    items that follow the first one. *)
Definition lexes {A : Type} (text : A -> string -> string)
    (toks : A -> list Token -> list Token) (x : A) : Prop :=
  forall l k,
  suffix l = text x k -> stops k = true ->
  exists l', lexer_reaches l l' /\ suffix l' = k
             /\ forall T, tokens l' ++ T = tokens l ++ toks x T.

(** The containers and the two stacks of a session, without what the
    parser keeps about the character it reads. *)
Definition tidy (s : StreamingParser) : StreamingParser :=
  {| output := output s; heap := heap s; next := next s; stack := stack s;
     keys := keys s; paths := paths s; buffer := ""; isEscaping := false;
     inString := false; expectingKey := false; expectColon := false;
     lastChar := ""; debug := debug s |}.

(** Between two values: nothing buffered, no string open, no key and no
    colon expected. *)
Definition idle (s : StreamingParser) : Prop :=
  buffer s = "" /\ isEscaping s = false /\ inString s = false
  /\ expectingKey s = false /\ expectColon s = false.




(** What the top of the container stack is, and whether the session is
    at the opening brace of the root object. *)
Definition in_map (s : StreamingParser) : bool :=
  match last (stack s) with
  | Some AMapPtr | Some (AMap _) => true
  | _ => false
  end.


Definition at_root (s : StreamingParser) : bool :=
  (length (stack s) =? 1) && (length (keys s) =? 0).







(** Two sessions hold the same containers in [lo, hi). *)
Definition agree (lo hi : nat) (s s' : StreamingParser) : Prop :=
  forall j, lo <= j < hi -> heap s !! j = heap s' !! j.








(** What the session keeps about the character that it reads. *)
Definition flags (s : StreamingParser) : string * bool * bool * bool * bool :=
  (buffer s, isEscaping s, inString s, expectingKey s, expectColon s).

(** The characters of a number that the last case of [ProcessChar] puts in
    the buffer (a small e never gets there). *)
Definition num_byte (c : ascii) : bool :=
  isDigit c || byte_eqb c "-" || byte_eqb c "." || byte_eqb c "+"
  || byte_eqb c "E".





(** Two sessions that differ by the last character only. *)
Definition same (a b : StreamingParser) : Prop :=
  flags a = flags b /\ tidy a = tidy b.





(** A token that the lexer makes from the input: neither the end-of-input
    token nor an error token. *)
Definition scanned_token (t : Token) : Prop :=
  Typ t <> TokenEOF /\ Typ t <> TokenError.

(** The body of a string literal up to its closing quote: no quote but after
    a backslash, and no backslash left alone at the end. *)
Fixpoint closed_body (b : string) : bool :=
  match b with
  | EmptyString => true
  | String c b' =>
      if byte_eqb c ch_quote then false
      else if byte_eqb c ch_backslash then
        match b' with
        | EmptyString => false
        | String _ b'' => closed_body b''
        end
      else closed_body b'
  end.

(** The words that the lexer knows. *)
Definition keyword (w : string) : bool :=
  String.eqb w "true" || String.eqb w "false" || String.eqb w "null".

End Model.

(* ===================================================================== *)
(** ** The two pipelines with the float parser of the [strconv] model *)
(* ===================================================================== *)

Definition go_strconv : Strconv := {| ParseFloat := strconv.ParseFloat |}.

(** The streaming parser on a whole text, from a new session. *)
Definition decode (text : string) : StreamingParser * error :=
  @ProcessString go_strconv (json text) (NewStreamingParser None).

(** The batch parser on a whole text. *)
Definition parse (text : string) : option (result (gmap string JValue)) :=
  @ParsePartialJSONObject go_strconv (json text).

(** The binary64 numbers 3.14 and 1000. *)
Definition f64_3_14 : float64 := S754_finite false 7070651414971679 (-51).
Definition f64_1000 : float64 := S754_finite false 8796093022208000 (-43).

(** Documents for the examples: the text
    [ {'name' : 'Ann', 'tags':[1 , true,null,{ }] ,'x':12.5E+2 }] and the
    text [[-3, 'a']]. *)
Definition example_members : list (member_of doc) :=
    [ mkMember "" "name" " " (mkElem " " (DStr "Ann") "");
      mkMember " " "tags" ""
        (mkElem ""
           (DArr ""
              [ mkElem "" (DNum (mkNumber false "1" None None)) " ";
                mkElem " " (DBool true) "";
                mkElem "" DNull "";
                mkElem "" (DObj " " []) "" ]) " ");
      mkMember "" "x" ""
        (mkElem ""
           (DNum (mkNumber false "12" (Some "5")
                    (Some (mkExponent "E" "+" "2")))) " ") ].

Definition example_object : doc := DObj " " example_members.

Definition example_array : doc :=
  DArr "" [ mkElem "" (DNum (mkNumber true "3" None None)) "";
            mkElem " " (DStr "a") "" ].

Section Properties.
Context {SC : Strconv}.

(* ===================================================================== *)
(** ** The streaming parser: an error leaves the session as it was *)
(* ===================================================================== *)

Lemma seqb_eq (a b : string) : seqb a b = true -> a = b.
Proof. apply String.eqb_eq. Qed.

(** A closing character or a comma is never refused, in either state. *)
Lemma ProcessChar_flush_chars_accepted (c : string) (sp : StreamingParser) :
  seqb c "," || seqb c "}" || seqb c "]" = true ->
  snd (ProcessChar c sp) = None.
Proof.
  intros Hc. unfold ProcessChar.
  destruct (inString (flush_number c sp)).
  - unfold process_in_string, accept. repeat case_match; reflexivity.
  - assert (c = "," \/ c = "}" \/ c = "]") as [-> | [-> | ->]].
    { destruct (seqb c ",") eqn:E1; [left; by apply seqb_eq|].
      destruct (seqb c "}") eqn:E2; [right; left; by apply seqb_eq|].
      destruct (seqb c "]") eqn:E3; [right; right; by apply seqb_eq|].
      discriminate. }
    all: unfold process_other; cbn [seqb String.eqb Ascii.eqb Bool.eqb orb
           str_tab str_cr str_lf str_quote string_of_byte ch_tab ch_cr ch_lf
           ch_quote ascii_of_nat ascii_of_pos]; reflexivity.
Qed.

Lemma flush_number_other (c : string) (sp : StreamingParser) :
  seqb c "," || seqb c "}" || seqb c "]" = false ->
  flush_number c sp = sp.
Proof. intros Hc. unfold flush_number. by rewrite Hc. Qed.

(** C6. If [ProcessChar] returns an error, the session (output mapping,
    store, container stack, key stack, buffer and every flag) is what it was
    when the call started. *)
Theorem ProcessChar_error_keeps_state
    (c : string) (sp sp' : StreamingParser) (msg : string) :
  ProcessChar c sp = (sp', Some msg) -> sp' = sp.
Proof.
  intros H.
  destruct (seqb c "," || seqb c "}" || seqb c "]") eqn:Hc.
  - pose proof (ProcessChar_flush_chars_accepted c sp Hc) as Hn.
    rewrite H in Hn. discriminate.
  - unfold ProcessChar in H. rewrite (flush_number_other c sp Hc) in H.
    destruct (inString sp).
    + unfold process_in_string, accept in H.
      repeat case_match; discriminate.
    + unfold process_other, accept, reject in H.
      repeat case_match; by simplify_eq.
Qed.

(* ===================================================================== *)
(** ** The streaming parser: the bottom of the container stack *)
(* ===================================================================== *)

Lemma head_app_cons {A : Type} (x : A) (l l' : list A) :
  head ((x :: l) ++ l') = Some x.
Proof. reflexivity. Qed.

Lemma head_removelast {A : Type} (l : list A) :
  1 < length l -> head (removelast l) = head l.
Proof. destruct l as [|x [|y l]]; simpl; intros; try lia; reflexivity. Qed.

Lemma head_insert_last {A : Type} (l : list A) (x y : A) :
  head l = Some x -> last l <> Some x ->
  head (<[length l - 1 := y]> l) = Some x.
Proof.
  destruct l as [|a [|b l]]; simpl; intros Hh Hl; done.
Qed.

Lemma map_store_stack l key v sp : stack (map_store l key v sp) = stack sp.
Proof. unfold map_store. by repeat case_match. Qed.

Lemma addValue_rooted v sp : rooted sp -> rooted (addValue v sp).
Proof.
  unfold rooted, addValue. intros Hr.
  destruct (last (stack sp)) as [cur|] eqn:Hl; [|done].
  destruct cur; try done.
  - by case_match.
  - case_match; [|done]. by rewrite map_store_stack.
  - by repeat case_match.
  - cbn [stack set_stack].
    assert (forall sp', stack sp' = stack sp ->
      head (<[length (stack sp') - 1 := ASlice (xs ++ [v])]> (stack sp'))
      = Some AMapPtr) as Hgen.
    { intros sp' ->. apply head_insert_last; [done|]. by rewrite Hl. }
    apply Hgen. repeat case_match; try done; by rewrite ?map_store_stack.
Qed.

Lemma pop_frame_rooted sp : rooted sp -> rooted (pop_frame sp).
Proof.
  unfold rooted, pop_frame. intros Hr.
  destruct (1 <? length (stack sp)) eqn:Hlen; [|done].
  apply Nat.ltb_lt in Hlen.
  case_match; cbn; by rewrite head_removelast.
Qed.

Lemma push_rooted v sp : rooted sp -> rooted (set_stack (stack sp ++ [v]) sp).
Proof.
  unfold rooted. cbn. destruct (stack sp); [done|]. intros [= ->]. done.
Qed.

Lemma flush_number_rooted c sp : rooted sp -> rooted (flush_number c sp).
Proof.
  intros Hr. unfold flush_number. repeat case_match; try done.
  by apply (addValue_rooted _ sp).
Qed.

Lemma ProcessChar_rooted c sp : rooted sp -> rooted (fst (ProcessChar c sp)).
Proof.
  intros Hr0. unfold ProcessChar.
  pose proof (flush_number_rooted c sp Hr0) as Hr.
  generalize dependent (flush_number c sp). intros sp1 Hr.
  destruct (inString sp1).
  - unfold process_in_string, accept. repeat case_match; try done.
    by apply (addValue_rooted _ (set_inString false sp1)).
  - unfold process_other, accept, reject, alloc, getCurrentContainer.
    repeat case_match; simplify_eq; try done;
      first
        [ by apply (pop_frame_rooted sp1)
        | by apply (addValue_rooted _ sp1)
        | by (apply (push_rooted _ (addValue _ _));
              apply (addValue_rooted _ (set_next _ (set_heap _ sp1)))) ].
Qed.

Lemma ProcessString_rooted chunk sp :
  rooted sp -> rooted (fst (ProcessString chunk sp)).
Proof.
  revert sp. induction chunk as [|a chunk IH]; intros sp Hr; [done|].
  cbn [ProcessString].
  pose proof (ProcessChar_rooted (string_of_byte a) sp Hr) as Hr'.
  destruct (ProcessChar (string_of_byte a) sp) as [sp' [e|]]; [done|].
  by apply IH.
Qed.

Lemma exec_call_rooted k sp : rooted sp -> rooted (exec_call sp k).
Proof.
  destruct k; cbn [exec_call]; intros Hr.
  - by apply ProcessChar_rooted.
  - by apply ProcessString_rooted.
  - done.
  - done.
Qed.

(** C9. Whatever sequence of calls a session has seen, whatever their
    results, its container stack is not empty and its bottom element is the
    pointer to the root mapping. *)
Theorem stack_bottom_is_root (out : option (gmap string any)) (ks : list call) :
  let sp := exec ks (NewStreamingParser out) in
  stack sp <> [] /\ head (stack sp) = Some AMapPtr.
Proof.
  cbn zeta.
  assert (rooted (exec ks (NewStreamingParser out))) as Hr.
  { unfold exec.
    assert (rooted (NewStreamingParser out)) as H0 by done.
    revert H0. generalize (NewStreamingParser out).
    induction ks as [|k ks IH]; intros sp Hr; [done|].
    cbn [fold_left]. apply IH. by apply exec_call_rooted. }
  split; [|done]. intros Hnil. unfold rooted in Hr. by rewrite Hnil in Hr.
Qed.

(* ===================================================================== *)
(** ** The streaming parser: sessions that differ by where containers live *)
(* ===================================================================== *)

Lemma last2_fmap {A B : Type} (f : A -> B) (l : list A) :
  last2 (f <$> l) = f <$> last2 l.
Proof.
  unfold last2. rewrite length_fmap. case_match; [|done].
  by rewrite list_lookup_fmap.
Qed.

Section Related.
Variables (k : nat) (s1 s2 : StreamingParser).
Hypothesis Hrel : related k s1 s2.

Lemma related_set_buffer v : related k (set_buffer v s1) (set_buffer v s2).
Proof. destruct Hrel. by constructor. Qed.

Lemma related_set_isEscaping v :
  related k (set_isEscaping v s1) (set_isEscaping v s2).
Proof. destruct Hrel. by constructor. Qed.

Lemma related_set_inString v :
  related k (set_inString v s1) (set_inString v s2).
Proof. destruct Hrel. by constructor. Qed.

Lemma related_set_expectingKey v :
  related k (set_expectingKey v s1) (set_expectingKey v s2).
Proof. destruct Hrel. by constructor. Qed.

Lemma related_set_expectColon v :
  related k (set_expectColon v s1) (set_expectColon v s2).
Proof. destruct Hrel. by constructor. Qed.

Lemma related_set_lastChar v :
  related k (set_lastChar v s1) (set_lastChar v s2).
Proof. destruct Hrel. by constructor. Qed.

Lemma related_set_keys v : related k (set_keys v s1) (set_keys v s2).
Proof. destruct Hrel. by constructor. Qed.

Lemma related_set_stack st :
  related k (set_stack (shift_any k <$> st) s1) (set_stack st s2).
Proof. destruct Hrel. by constructor. Qed.

Lemma related_set_output m :
  related k (set_output (shift_any k <$> m) s1) (set_output m s2).
Proof. destruct Hrel. by constructor. Qed.

Lemma related_store l c :
  related k (set_heap (<[l + k := shift_cell k c]> (heap s1)) s1)
            (set_heap (<[l := c]> (heap s2)) s2).
Proof.
  destruct Hrel. constructor; try done. intros j. cbn.
  destruct (decide (j = l)) as [->|Hne].
  - by rewrite !lookup_insert_eq.
  - rewrite !lookup_insert_ne; [done|done|lia].
Qed.

Lemma related_map_store l key v :
  related k (map_store (l + k) key (shift_any k v) s1) (map_store l key v s2).
Proof.
  unfold map_store. rewrite (rel_heap _ _ _ Hrel).
  destruct (heap s2 !! l) as [[m|xs]|]; cbn; try done.
  rewrite <- fmap_insert. apply (related_store l (MapCell (<[key:=v]> m))).
Qed.

End Related.

Lemma related_addValue k s1 s2 v :
  related k s1 s2 -> related k (addValue (shift_any k v) s1) (addValue v s2).
Proof.
  intros Hrel. unfold addValue.
  rewrite (rel_stack _ _ _ Hrel), fmap_last, (rel_keys _ _ _ Hrel).
  destruct (last (stack s2)) as [cur|]; [|done].
  destruct cur; cbn [fmap option_fmap option_map shift_any]; try done.
  - destruct (last (keys s2)); [|done].
    rewrite (rel_output _ _ _ Hrel), <- fmap_insert.
    by apply related_set_output.
  - destruct (last (keys s2)); [|done]. by apply related_map_store.
  - rewrite (rel_heap _ _ _ Hrel).
    destruct (heap s2 !! l) as [[m|ys]|]; cbn; try done.
    replace (SliceCell ((shift_any k <$> ys) ++ [shift_any k v]))
      with (shift_cell k (SliceCell (ys ++ [v])))
      by (cbn; by rewrite fmap_app).
    by apply related_store.
  - rewrite last2_fmap.
    set (new1 := ASlice (map (shift_any k) xs ++ [shift_any k v])).
    set (new2 := ASlice (xs ++ [v])).
    assert (new1 = shift_any k new2) as Hnew.
    { unfold new1, new2. cbn. by rewrite map_app. }
    assert (forall t1 t2, related k t1 t2 ->
      related k (set_stack (<[length (stack t1) - 1 := new1]> (stack t1)) t1)
              (set_stack (<[length (stack t2) - 1 := new2]> (stack t2)) t2))
      as Hstack.
    { intros t1 t2 Ht. rewrite (rel_stack _ _ _ Ht), length_fmap, Hnew.
      rewrite <- list_fmap_insert. by apply related_set_stack. }
    apply Hstack.
    destruct (last2 (stack s2)) as [par|]; cbn; [|done].
    destruct par; cbn; try done.
    + destruct (last2 (keys s2)); [|done].
      rewrite (rel_output _ _ _ Hrel), Hnew, <- fmap_insert.
      by apply related_set_output.
    + destruct (last2 (keys s2)); [|done].
      rewrite Hnew. by apply related_map_store.
Qed.

Lemma related_addValue_scalar k s1 s2 v :
  shift_any k v = v ->
  related k s1 s2 -> related k (addValue v s1) (addValue v s2).
Proof. intros Hv Hrel. rewrite <- Hv at 1. by apply related_addValue. Qed.

Lemma related_addValue_map k s1 s2 l :
  related k s1 s2 -> related k (addValue (AMap (l + k)) s1) (addValue (AMap l) s2).
Proof. apply (related_addValue k s1 s2 (AMap l)). Qed.

Lemma related_addValue_sliceptr k s1 s2 l :
  related k s1 s2 ->
  related k (addValue (ASlicePtr (l + k)) s1) (addValue (ASlicePtr l) s2).
Proof. apply (related_addValue k s1 s2 (ASlicePtr l)). Qed.

Lemma related_push k s1 s2 v :
  related k s1 s2 ->
  related k (set_stack (stack s1 ++ [shift_any k v]) s1)
            (set_stack (stack s2 ++ [v]) s2).
Proof.
  intros Hrel. rewrite (rel_stack _ _ _ Hrel).
  replace ((shift_any k <$> stack s2) ++ [shift_any k v])
    with (shift_any k <$> (stack s2 ++ [v])) by by rewrite fmap_app.
  by apply related_set_stack.
Qed.

Lemma related_push_map k s1 s2 l :
  related k s1 s2 ->
  related k (set_stack (stack s1 ++ [AMap (l + k)]) s1)
            (set_stack (stack s2 ++ [AMap l]) s2).
Proof. apply (related_push k s1 s2 (AMap l)). Qed.

Lemma related_push_sliceptr k s1 s2 l :
  related k s1 s2 ->
  related k (set_stack (stack s1 ++ [ASlicePtr (l + k)]) s1)
            (set_stack (stack s2 ++ [ASlicePtr l]) s2).
Proof. apply (related_push k s1 s2 (ASlicePtr l)). Qed.

Lemma related_alloc k s1 s2 c :
  related k s1 s2 ->
  related k
    (set_next (S (next s2 + k))
       (set_heap (<[next s2 + k := shift_cell k c]> (heap s1)) s1))
    (set_next (S (next s2)) (set_heap (<[next s2 := c]> (heap s2)) s2)).
Proof.
  intros Hrel. pose proof (related_store k s1 s2 Hrel (next s2) c) as H.
  destruct H. by constructor.
Qed.

Lemma related_alloc_map k s1 s2 :
  related k s1 s2 ->
  related k
    (set_next (S (next s2 + k))
       (set_heap (<[next s2 + k := MapCell ∅]> (heap s1)) s1))
    (set_next (S (next s2)) (set_heap (<[next s2 := MapCell ∅]> (heap s2)) s2)).
Proof.
  intros Hrel. pose proof (related_alloc k s1 s2 (MapCell ∅) Hrel) as H.
  cbn [shift_cell] in H. by rewrite fmap_empty in H.
Qed.

Lemma related_alloc_slice k s1 s2 :
  related k s1 s2 ->
  related k
    (set_next (S (next s2 + k))
       (set_heap (<[next s2 + k := SliceCell []]> (heap s1)) s1))
    (set_next (S (next s2)) (set_heap (<[next s2 := SliceCell []]> (heap s2)) s2)).
Proof. apply (related_alloc k s1 s2 (SliceCell [])). Qed.

Lemma removelast_fmap {A B : Type} (f : A -> B) (l : list A) :
  removelast (f <$> l) = f <$> removelast l.
Proof.
  induction l as [|x [|y l] IH]; [done|done|].
  change (f x :: removelast (f <$> (y :: l)) = f x :: (f <$> removelast (y :: l))).
  by rewrite IH.
Qed.

Lemma related_pop_frame k s1 s2 :
  related k s1 s2 -> related k (pop_frame s1) (pop_frame s2).
Proof.
  intros Hrel. unfold pop_frame.
  rewrite (rel_stack _ _ _ Hrel), length_fmap, removelast_fmap.
  case_match; [|done].
  cbn [keys set_stack]. rewrite (rel_keys _ _ _ Hrel).
  case_match.
  - apply related_set_keys. by apply related_set_stack.
  - by apply related_set_stack.
Qed.

Lemma parseNumber_scalar k sp v : parseNumber sp = Ok v -> shift_any k v = v.
Proof. unfold parseNumber. repeat case_match; intros; by simplify_eq. Qed.

Lemma related_parseNumber k s1 s2 :
  related k s1 s2 -> parseNumber s1 = parseNumber s2.
Proof. intros Hrel. unfold parseNumber. by rewrite (rel_buffer _ _ _ Hrel). Qed.

Lemma related_flush_number k s1 s2 c :
  related k s1 s2 -> related k (flush_number c s1) (flush_number c s2).
Proof.
  intros Hrel. unfold flush_number.
  rewrite (rel_buffer _ _ _ Hrel), (related_parseNumber _ _ _ Hrel).
  case_match; [|done].
  destruct (parseNumber s2) as [v|] eqn:Hp; [|done].
  apply related_set_buffer, related_addValue_scalar; [|done].
  by apply (parseNumber_scalar k s2).
Qed.

Create HintDb rel.

#[local] Hint Resolve related_set_buffer related_set_isEscaping
  related_set_inString related_set_expectingKey related_set_expectColon
  related_set_lastChar related_set_keys related_pop_frame
  related_addValue_map related_addValue_sliceptr related_push_map
  related_push_sliceptr related_alloc_map related_alloc_slice : rel.

#[local] Hint Extern 2 (related _ (addValue _ _) (addValue _ _)) =>
  (apply related_addValue_scalar; [reflexivity|]) : rel.

Lemma related_process_in_string k s1 s2 c :
  related k s1 s2 ->
  related k (fst (process_in_string c s1)) (fst (process_in_string c s2))
  /\ snd (process_in_string c s1) = snd (process_in_string c s2).
Proof.
  intros Hrel. unfold process_in_string, accept.
  cbn [expectingKey keys buffer set_inString].
  rewrite (rel_isEscaping _ _ _ Hrel), (rel_buffer _ _ _ Hrel),
    (rel_expectingKey _ _ _ Hrel), (rel_keys _ _ _ Hrel).
  repeat case_match; cbn [fst snd]; (split; [|done]); eauto 10 with rel.
Qed.

Lemma related_process_other k s1 s2 c :
  related k s1 s2 ->
  related k (fst (process_other c s1)) (fst (process_other c s2))
  /\ snd (process_other c s1) = snd (process_other c s2).
Proof.
  intros Hrel.
  assert (length (stack s1) = length (stack s2)) as Hls
    by (by rewrite (rel_stack _ _ _ Hrel), length_fmap).
  assert (length (keys s1) = length (keys s2)) as Hlk
    by (by rewrite (rel_keys _ _ _ Hrel)).
  assert (last (stack s1) = shift_any k <$> last (stack s2)) as Hlast
    by (by rewrite (rel_stack _ _ _ Hrel), fmap_last).
  unfold process_other, accept, reject, getCurrentContainer, alloc.
  cbn beta iota.
  rewrite Hls, Hlk, Hlast, (rel_buffer _ _ _ Hrel),
    (rel_expectColon _ _ _ Hrel), (rel_next _ _ _ Hrel).
  destruct (last (stack s2)) as [[]|];
    cbn [fmap option_fmap option_map shift_any];
    repeat case_match; cbn [fst snd]; (split; [|done]);
    eauto 10 with rel.
Qed.

Lemma related_ProcessChar k s1 s2 c :
  related k s1 s2 ->
  related k (fst (ProcessChar c s1)) (fst (ProcessChar c s2))
  /\ snd (ProcessChar c s1) = snd (ProcessChar c s2).
Proof.
  intros Hrel. unfold ProcessChar.
  pose proof (related_flush_number k s1 s2 c Hrel) as Hf.
  rewrite (rel_inString _ _ _ Hf).
  case_match.
  - by apply related_process_in_string.
  - by apply related_process_other.
Qed.

Lemma related_ProcessString k chunk s1 s2 :
  related k s1 s2 ->
  related k (fst (ProcessString chunk s1)) (fst (ProcessString chunk s2))
  /\ snd (ProcessString chunk s1) = snd (ProcessString chunk s2).
Proof.
  revert s1 s2. induction chunk as [|a chunk IH]; intros s1 s2 Hrel; [done|].
  cbn [ProcessString].
  destruct (related_ProcessChar k s1 s2 (string_of_byte a) Hrel) as [Hr He].
  destruct (ProcessChar (string_of_byte a) s1) as [t1 e1].
  destruct (ProcessChar (string_of_byte a) s2) as [t2 e2].
  cbn [fst snd] in *. subst e2. destruct e1; [done|]. by apply IH.
Qed.

Lemma related_feed k cs s1 s2 :
  related k s1 s2 -> related k (feed cs s1) (feed cs s2).
Proof.
  revert s1 s2. unfold feed.
  induction cs as [|c cs IH]; intros s1 s2 Hrel; [done|].
  cbn [fold_left]. apply IH. by apply related_ProcessChar.
Qed.

Lemma related_denote k s1 s2 :
  related k s1 s2 ->
  forall n v, denote n s1 (shift_any k v) = denote n s2 v.
Proof.
  intros Hrel. induction n as [|n IH]; intros v.
  - destruct v; cbn; try done.
  - destruct v; cbn [denote shift_any]; try done.
    + rewrite (rel_output _ _ _ Hrel), <- map_fmap_compose.
      f_equal. apply map_fmap_ext. intros i x _. apply IH.
    + rewrite (rel_heap _ _ _ Hrel).
      destruct (heap s2 !! l) as [[m|xs]|]; cbn; try done.
      rewrite <- map_fmap_compose.
      f_equal. apply map_fmap_ext. intros i x _. apply IH.
    + rewrite (rel_heap _ _ _ Hrel).
      destruct (heap s2 !! l) as [[m|xs]|]; cbn; try done.
      rewrite <- list_fmap_compose.
      f_equal. apply list_fmap_ext. intros i x _. apply IH.
    + change (map (shift_any k) xs) with (shift_any k <$> xs).
      rewrite <- list_fmap_compose.
      f_equal. apply list_fmap_ext. intros i x _. apply IH.
Qed.

Lemma related_snapshot k s1 s2 n :
  related k s1 s2 -> snapshot n s1 = snapshot n s2.
Proof.
  intros Hrel. unfold snapshot, GetCurrentOutput.
  rewrite (rel_output _ _ _ Hrel), <- map_fmap_compose.
  apply map_fmap_ext. intros i x _. by apply related_denote.
Qed.

(* ===================================================================== *)
(** ** The streaming parser: the allocator *)
(* ===================================================================== *)

Lemma heap_fresh_ext sp sp' :
  heap sp' = heap sp -> next sp' = next sp -> heap_fresh sp -> heap_fresh sp'.
Proof. unfold heap_fresh. intros -> ->. done. Qed.

Lemma heap_fresh_store sp l c :
  is_Some (heap sp !! l) -> heap_fresh sp ->
  heap_fresh (set_heap (<[l := c]> (heap sp)) sp).
Proof.
  unfold heap_fresh. cbn. intros [c0 Hl] Hf j Hj.
  rewrite lookup_insert_ne; [by apply Hf|].
  intros ->. rewrite Hf in Hl; done.
Qed.

Lemma heap_fresh_map_store sp l key v :
  heap_fresh sp -> heap_fresh (map_store l key v sp).
Proof.
  intros Hf. unfold map_store.
  destruct (heap sp !! l) as [[m|xs]|] eqn:Hl; try done.
  apply heap_fresh_store; [by rewrite Hl|done].
Qed.

Lemma heap_fresh_addValue v sp : heap_fresh sp -> heap_fresh (addValue v sp).
Proof.
  intros Hf. unfold addValue.
  destruct (last (stack sp)) as [cur|]; [|done].
  destruct cur; try done.
  - by case_match.
  - case_match; [|done]. by apply heap_fresh_map_store.
  - destruct (heap sp !! l) as [[m|ys]|] eqn:Hl; try done.
    apply heap_fresh_store; [by rewrite Hl|done].
  - match goal with
    | |- heap_fresh (set_stack _ ?t) =>
        apply (heap_fresh_ext t); [done|done|]
    end.
    repeat case_match; try done; by apply heap_fresh_map_store.
Qed.

Lemma heap_fresh_alloc sp c :
  heap_fresh sp ->
  heap_fresh (set_next (S (next sp)) (set_heap (<[next sp := c]> (heap sp)) sp)).
Proof.
  unfold heap_fresh. cbn. intros Hf j Hj.
  rewrite lookup_insert_ne; [|lia]. apply Hf. lia.
Qed.

Lemma heap_fresh_pop_frame sp : heap_fresh sp -> heap_fresh (pop_frame sp).
Proof. intros Hf. unfold pop_frame. by repeat case_match. Qed.

Lemma heap_fresh_flush_number c sp :
  heap_fresh sp -> heap_fresh (flush_number c sp).
Proof.
  intros Hf. unfold flush_number. repeat case_match; try done.
  by apply (heap_fresh_addValue _ sp).
Qed.

Ltac heap_fresh_step :=
  match goal with
  | H : heap_fresh ?sp |- heap_fresh ?sp => exact H
  | |- heap_fresh (addValue _ _) => apply heap_fresh_addValue
  | |- heap_fresh (pop_frame _) => apply heap_fresh_pop_frame
  | |- heap_fresh (set_next (S (next ?sp)) (set_heap _ ?sp)) =>
      apply heap_fresh_alloc
  | |- heap_fresh (?f ?v ?t) => apply (heap_fresh_ext t); [reflexivity|reflexivity|]
  end.

Lemma heap_fresh_ProcessChar c sp :
  heap_fresh sp -> heap_fresh (fst (ProcessChar c sp)).
Proof.
  intros Hf0. unfold ProcessChar.
  pose proof (heap_fresh_flush_number c sp Hf0) as Hf.
  generalize dependent (flush_number c sp). intros sp1 Hf.
  destruct (inString sp1).
  - unfold process_in_string, accept.
    repeat case_match; cbn [fst]; repeat heap_fresh_step.
  - unfold process_other, accept, reject, alloc, getCurrentContainer.
    repeat case_match; simplify_eq; cbn [fst]; repeat heap_fresh_step.
Qed.

Lemma heap_fresh_ProcessString chunk sp :
  heap_fresh sp -> heap_fresh (fst (ProcessString chunk sp)).
Proof.
  revert sp. induction chunk as [|a chunk IH]; intros sp Hf; [done|].
  cbn [ProcessString].
  pose proof (heap_fresh_ProcessChar (string_of_byte a) sp Hf) as Hf'.
  destruct (ProcessChar (string_of_byte a) sp) as [sp' [e|]]; [done|].
  by apply IH.
Qed.

Lemma heap_fresh_exec ks sp : heap_fresh sp -> heap_fresh (exec ks sp).
Proof.
  unfold exec. revert sp.
  induction ks as [|c ks IH]; intros sp Hf; [done|].
  cbn [fold_left]. apply IH. destruct c; cbn [exec_call].
  - by apply heap_fresh_ProcessChar.
  - by apply heap_fresh_ProcessString.
  - done.
  - done.
Qed.

Lemma heap_fresh_new out : heap_fresh (NewStreamingParser out).
Proof. intros j _. apply lookup_empty. Qed.

Lemma cleared_map (m : gmap string any) :
  filter (fun _ : string * any => False) m = ∅.
Proof.
  apply map_eq. intros i. rewrite lookup_empty.
  apply map_lookup_filter_None. right. intros x _ [].
Qed.

(** After [Reset], a session is a new session whose containers will live
    above those that the session has created before. *)
Lemma related_Reset sp out :
  heap_fresh sp -> related (next sp) (Reset sp) (NewStreamingParser out).
Proof.
  intros Hf. constructor; try done.
  - cbn. rewrite cleared_map. destruct out; by rewrite ?cleared_map, fmap_empty.
  - intros j. cbn. rewrite lookup_empty. apply Hf. lia.
Qed.

(** C8. [Reset] followed by the decoding of a document B gives the output
    mapping, and the error if any, that decoding B on a new parser gives,
    whatever the session has been through before the reset; the outputs are
    compared as trees, to every depth. The document B is fed either with
    [ProcessString] or character by character with the errors ignored. *)
Theorem Reset_then_decode
    (outA outB : option (gmap string any)) (A : list call) (B : string)
    (cs : list string) (n : nat) :
  let sA := exec A (NewStreamingParser outA) in
  let fresh := NewStreamingParser outB in
  snapshot n (fst (ProcessString B (Reset sA)))
    = snapshot n (fst (ProcessString B fresh))
  /\ snd (ProcessString B (Reset sA)) = snd (ProcessString B fresh)
  /\ snapshot n (feed cs (Reset sA)) = snapshot n (feed cs fresh).
Proof.
  cbn zeta.
  set (sA := exec A (NewStreamingParser outA)).
  assert (heap_fresh sA) as Hf by apply heap_fresh_exec, heap_fresh_new.
  pose proof (related_Reset sA outB Hf) as Hrel.
  destruct (related_ProcessString _ B _ _ Hrel) as [Hr He].
  split; [by apply (related_snapshot (next sA))|].
  split; [done|].
  apply (related_snapshot (next sA)). by apply related_feed.
Qed.

(* ===================================================================== *)
(** ** The streaming parser: a sequence that grows inside a mapping *)
(* ===================================================================== *)

Lemma addValues_slice (vs : list any) :
  forall (sp : StreamingParser) (l : loc) (xs : list any),
  last (stack sp) = Some (ASlicePtr l) ->
  heap sp !! l = Some (SliceCell xs) ->
  heap (addValues vs sp) !! l = Some (SliceCell (xs ++ vs))
  /\ (forall l', l' <> l -> heap (addValues vs sp) !! l' = heap sp !! l')
  /\ output (addValues vs sp) = output sp
  /\ stack (addValues vs sp) = stack sp.
Proof.
  induction vs as [|v vs IH]; intros sp l xs Hlast Hl.
  - cbn. by rewrite app_nil_r.
  - unfold addValues. cbn [fold_left]. fold (addValues vs (addValue v sp)).
    assert (addValue v sp
            = set_heap (<[l := SliceCell (xs ++ [v])]> (heap sp)) sp) as ->.
    { unfold addValue. by rewrite Hlast, Hl. }
    destruct (IH (set_heap (<[l := SliceCell (xs ++ [v])]> (heap sp)) sp)
                l (xs ++ [v])) as (H1 & H2 & H3 & H4).
    { done. }
    { cbn. by rewrite lookup_insert_eq. }
    rewrite <- app_assoc in H1. cbn in H1.
    split; [done|]. split; [|done].
    intros l' Hne. rewrite (H2 l' Hne). cbn. by rewrite lookup_insert_ne.
Qed.

(** C7. A sequence opened under a key of a mapping (the root or a nested
    map) is stored there as the address of its slice variable. However many
    values are then appended (so however often the storage of the slice has
    to grow), the entry of the mapping still is that address, and the variable
    holds every appended value: the entry denotes the whole sequence. *)
Theorem sequence_entry_follows_growth
    (sp : StreamingParser) (parent : any) (key : string) (vs : list any)
    (Hstr : inString sp = false)
    (Hfresh : heap_fresh sp)
    (Htop : last (stack sp) = Some parent)
    (Hmap : parent = AMapPtr \/
            exists l m, parent = AMap l /\ heap sp !! l = Some (MapCell m))
    (Hkey : last (keys sp) = Some key) :
  let l := next sp in
  let sp' := addValues vs (fst (ProcessChar "[" sp)) in
  map_entry sp' parent key = Some (ASlicePtr l)
  /\ heap sp' !! l = Some (SliceCell vs)
  /\ forall n, denote (S n) sp' (ASlicePtr l) = JArray (denote n sp' <$> vs).
Proof.
  cbn zeta.
  set (sp0 := set_next (S (next sp))
                (set_heap (<[next sp := SliceCell []]> (heap sp)) sp)).
  assert (fst (ProcessChar "[" sp)
          = set_lastChar "["
              (set_expectingKey false
                 (set_stack (stack (addValue (ASlicePtr (next sp)) sp0)
                             ++ [ASlicePtr (next sp)])
                    (addValue (ASlicePtr (next sp)) sp0)))) as Hstep.
  { unfold ProcessChar. rewrite flush_number_other by done.
    rewrite Hstr. reflexivity. }
  rewrite Hstep. clear Hstep.
  set (sp1 := addValue (ASlicePtr (next sp)) sp0).
  assert (stack sp1 = stack sp
          /\ heap sp1 !! next sp = Some (SliceCell [])
          /\ map_entry sp1 parent key = Some (ASlicePtr (next sp))) as (Hs & Hh & He).
  { unfold sp1, addValue. cbn [stack keys sp0 set_next set_heap].
    rewrite Htop, Hkey.
    destruct Hmap as [-> | (lm & m & -> & Hm)].
    - cbn. by rewrite !lookup_insert_eq.
    - assert (lm <> next sp) as Hne.
      { intros ->. rewrite Hfresh in Hm; [done|lia]. }
      unfold map_store. cbn.
      rewrite lookup_insert_ne, Hm by done. cbn.
      rewrite lookup_insert_eq, lookup_insert_eq.
      rewrite lookup_insert_ne, lookup_insert_eq by done. done. }
  set (sp2 := set_lastChar "[" (set_expectingKey false
                (set_stack (stack sp1 ++ [ASlicePtr (next sp)]) sp1))).
  destruct (addValues_slice vs sp2 (next sp) []) as (H1 & H2 & H3 & H4).
  { cbn. by rewrite last_snoc. }
  { done. }
  cbn [app] in H1.
  assert (map_entry (addValues vs sp2) parent key = Some (ASlicePtr (next sp)))
    as Hentry.
  { destruct Hmap as [-> | (lm & m & -> & Hm)]; cbn [map_entry] in *.
    - by rewrite H3.
    - assert (lm <> next sp) as Hne.
      { intros ->. rewrite Hfresh in Hm; [done|lia]. }
      by rewrite (H2 lm Hne). }
  split; [done|]. split; [done|].
  intros n. cbn [denote]. by rewrite H1.
Qed.

(* ===================================================================== *)
(** ** The streaming parser: escapes inside a string *)
(* ===================================================================== *)

Lemma flushes_false c sp : flushes c sp = false -> flush_number c sp = sp.
Proof.
  unfold flushes, flush_number. intros H.
  destruct ((seqb c "," || seqb c "}" || seqb c "]")
            && negb (seqb (buffer sp) "")); [|done].
  cbn in H. by destruct (parseNumber sp).
Qed.

(** C5, as the code has it. In a string, a backslash is not stored and the
    character [c] that follows it is appended to the buffer as it is: the
    buffer grows by [c] alone, and that text is what the closing quote
    commits, as a key or as a value. (The case where [c] is a comma or a
    closing brace or bracket that makes [ProcessChar] commit the buffer as a
    number is left aside.) *)
Theorem escape_keeps_escaped_char_only
    (sp : StreamingParser) (c : string)
    (Hstr : inString sp = true)
    (Hesc : isEscaping sp = false)
    (Hfl : flushes c sp = false) :
  let r1 := ProcessChar str_backslash sp in
  let r2 := ProcessChar c (fst r1) in
  let r3 := ProcessChar str_quote (fst r2) in
  snd r1 = None /\ snd r2 = None /\ snd r3 = None
  /\ buffer (fst r2) = buffer sp +:+ c
  /\ inString (fst r2) = true /\ isEscaping (fst r2) = false
  /\ (expectingKey sp = true ->
      keys (fst r3) = keys sp ++ [buffer sp +:+ c])
  /\ (expectingKey sp = false ->
      fst r3 = set_lastChar str_quote
                 (set_buffer ""
                    (addValue (AString (buffer sp +:+ c))
                       (set_inString false (fst r2))))).
Proof.
  cbn zeta.
  assert (ProcessChar str_backslash sp
          = (set_lastChar str_backslash (set_isEscaping true sp), None)) as ->.
  { unfold ProcessChar. rewrite flush_number_other by done.
    unfold process_in_string. rewrite Hstr, Hesc. reflexivity. }
  cbn [fst snd].
  set (sp1 := set_lastChar str_backslash (set_isEscaping true sp)).
  assert (ProcessChar c sp1
          = (set_lastChar c (set_isEscaping false
               (set_buffer (buffer sp +:+ c) sp1)), None)) as ->.
  { unfold ProcessChar. rewrite (flushes_false c sp1) by exact Hfl.
    unfold process_in_string. cbn [inString isEscaping sp1 set_lastChar
      set_isEscaping]. rewrite Hstr. reflexivity. }
  cbn [fst snd].
  set (sp2 := set_lastChar c (set_isEscaping false
                (set_buffer (buffer sp +:+ c) sp1))).
  assert (ProcessChar str_quote sp2
          = process_in_string str_quote sp2) as ->.
  { unfold ProcessChar. rewrite flush_number_other by done.
    cbn [inString sp2 sp1 set_lastChar set_isEscaping set_buffer].
    by rewrite Hstr. }
  unfold process_in_string.
  cbn [isEscaping expectingKey keys buffer sp2 sp1 set_lastChar
       set_isEscaping set_buffer set_inString inString].
  change (seqb str_quote str_backslash) with false.
  change (seqb str_quote str_quote) with true. cbn iota.
  repeat split; try done.
  - intros ->. reflexivity.
  - intros ->. reflexivity.
Qed.

(* ===================================================================== *)
(** ** The batch parser: the cursor *)
(* ===================================================================== *)

Lemma isAtEnd_rest p : isAtEnd p = exhausted (rest p).
Proof.
  unfold isAtEnd, rest, exhausted.
  destruct (ptokens p !! current p) as [t|] eqn:Hl.
  - by rewrite (drop_S _ _ _ Hl).
  - apply lookup_ge_None in Hl. by rewrite drop_ge.
Qed.

Lemma rest_cons p t ts :
  rest p = t :: ts ->
  ptokens p !! current p = Some t
  /\ rest {| ptokens := ptokens p; current := S (current p) |} = ts.
Proof.
  unfold rest. cbn. intros H. split.
  - rewrite <- (Nat.add_0_r (current p)), <- lookup_drop. by rewrite H.
  - replace (S (current p)) with (current p + 1) by lia.
    rewrite <- drop_drop. by rewrite H.
Qed.

Lemma check_EOF p : check p TokenEOF = isAtEnd p.
Proof.
  unfold check. destruct (isAtEnd p) eqn:He; [done|].
  unfold isAtEnd, peek in *. by destruct (ptokens p !! current p).
Qed.

Lemma check_exhausted p ty :
  isAtEnd p = true -> check p ty = TokenType_eqb ty TokenEOF.
Proof. unfold check. by intros ->. Qed.

Lemma advance_exhausted p : isAtEnd p = true -> advance p = p.
Proof. unfold advance. by intros ->. Qed.

Lemma at_token p ty v ts :
  rest p = tok ty v :: ts -> ty <> TokenEOF ->
  isAtEnd p = false /\ peek p = tok ty v
  /\ (forall ty', check p ty' = TokenType_eqb ty ty')
  /\ rest (advance p) = ts.
Proof.
  intros Hr Hty. destruct (rest_cons _ _ _ Hr) as [Hl Hr'].
  assert (isAtEnd p = false) as He.
  { rewrite isAtEnd_rest, Hr. cbn. unfold TokenType_eqb.
    by apply bool_decide_eq_false. }
  split; [done|]. split; [by unfold peek; rewrite Hl|].
  split.
  - intros ty'. unfold check, peek. by rewrite He, Hl.
  - unfold advance. by rewrite He.
Qed.

Lemma advance_tokens p : ptokens (advance p) = ptokens p.
Proof. unfold advance. by case_match. Qed.

Lemma advance_current p :
  current p <= current (advance p)
  /\ (isAtEnd p = false -> current (advance p) = S (current p)).
Proof. unfold advance. case_match; cbn; split; (done || lia). Qed.

Lemma not_exhausted_remaining p : isAtEnd p = false -> 0 < remaining p.
Proof.
  unfold isAtEnd, remaining.
  destruct (ptokens p !! current p) eqn:Hl; [|done].
  apply lookup_lt_Some in Hl. lia.
Qed.

Lemma check_not_exhausted p ty :
  check p ty = true -> ty <> TokenEOF -> isAtEnd p = false.
Proof.
  unfold check. destruct (isAtEnd p); [|done].
  unfold TokenType_eqb. intros H%bool_decide_eq_true. done.
Qed.

Lemma remaining_advance p :
  isAtEnd p = false -> S (remaining (advance p)) = remaining p.
Proof.
  intros He. pose proof (not_exhausted_remaining p He).
  unfold remaining in *. rewrite advance_tokens.
  destruct (advance_current p) as [_ Hc]. rewrite (Hc He). lia.
Qed.

Lemma extends_refl p : extends p p.
Proof. by split. Qed.

Lemma extends_trans p q r : extends p q -> extends q r -> extends p r.
Proof. unfold extends. intros [-> ?] [-> ?]. split; [done|lia]. Qed.

Lemma extends_advance p : extends p (advance p).
Proof. split; [apply advance_tokens|apply advance_current]. Qed.

Lemma extends_remaining p q : extends p q -> remaining q <= remaining p.
Proof. unfold extends, remaining. intros [-> ?]. lia. Qed.

Lemma lift_Some {A B : Type} (f : A -> B) x r p :
  lift f x = Some (r, p) -> exists r0, x = Some (r0, p).
Proof.
  unfold lift. destruct x as [[[a|e] q]|]; intros; simplify_eq; eauto.
Qed.

Lemma lift_None {A B : Type} (f : A -> B) x : lift f x = None -> x = None.
Proof. unfold lift. by destruct x as [[[a|e] q]|]. Qed.

(* ===================================================================== *)
(** ** The batch parser: the cursor only moves forward, and the parse ends *)
(* ===================================================================== *)

Ltac extends_tac IH :=
  destruct IH as (IHv & IHo & IHol & IHa & IHal);
  repeat match goal with
  | |- extends ?p ?p => apply extends_refl
  | |- extends ?p (advance ?q) =>
      apply (extends_trans p q); [|apply extends_advance]
  | H : parseValue _ ?q = Some (_, ?p') |- extends ?p ?p' =>
      apply (extends_trans p q); [|exact (IHv _ _ _ H)]
  | H : parseObject _ ?q = Some (_, ?p') |- extends ?p ?p' =>
      apply (extends_trans p q); [|exact (IHo _ _ _ H)]
  | H : parseObjectLoop _ _ ?q = Some (_, ?p') |- extends ?p ?p' =>
      apply (extends_trans p q); [|exact (IHol _ _ _ _ H)]
  | H : parseArray _ ?q = Some (_, ?p') |- extends ?p ?p' =>
      apply (extends_trans p q); [|exact (IHa _ _ _ H)]
  | H : parseArrayLoop _ _ ?q = Some (_, ?p') |- extends ?p ?p' =>
      apply (extends_trans p q); [|exact (IHal _ _ _ _ H)]
  end.

Lemma parse_moves_forward n : moves_forward n.
Proof.
  induction n as [|n IH].
  { unfold moves_forward. cbn. by repeat apply conj. }
  unfold moves_forward. repeat apply conj.
  - intros p r p' H. cbn [parseValue] in H.
    repeat case_match; simplify_eq;
      try match goal with
      | H : lift _ _ = Some _ |- _ => apply lift_Some in H; destruct H as [? H]
      end;
      extends_tac IH.
  - intros p r p' H. cbn [parseObject] in H.
    repeat case_match; simplify_eq; extends_tac IH.
  - intros obj p r p' H. cbn [parseObjectLoop] in H.
    repeat case_match; simplify_eq; extends_tac IH.
  - intros p r p' H. cbn [parseArray] in H.
    repeat case_match; simplify_eq; extends_tac IH.
  - intros arr p r p' H. cbn [parseArrayLoop] in H.
    repeat case_match; simplify_eq; extends_tac IH.
Qed.

Ltac bool_facts :=
  repeat match goal with
  | H : negb _ = false |- _ => apply negb_false_iff in H
  | H : negb _ = true |- _ => apply negb_true_iff in H
  | H : _ && _ = false |- _ => apply andb_false_iff in H; destruct H
  | H : _ && _ = true |- _ => apply andb_true_iff in H; destruct H
  end.

Ltac remaining_facts :=
  repeat match goal with
  | H : check _ ?ty = true |- _ =>
      apply check_not_exhausted in H; [|discriminate]
  end;
  repeat match goal with
  | H : parseValue _ _ = Some _ |- _ =>
      apply (proj1 (parse_moves_forward _)) in H; apply extends_remaining in H
  | H : isAtEnd ?q = false |- _ => apply remaining_advance in H
  end.

Lemma parse_terminates n : terminates n.
Proof.
  induction n as [|n IH].
  { unfold terminates. repeat apply conj; intros; lia. }
  destruct IH as (IHv & IHo & IHol & IHa & IHal).
  unfold terminates. repeat apply conj.
  - intros p Hn. cbn [parseValue].
    repeat case_match; try done.
    + intros Hx%lift_None. revert Hx. apply IHo. lia.
    + intros Hx%lift_None. revert Hx. apply IHa. lia.
  - intros p Hn. cbn [parseObject].
    destruct (isAtEnd p) eqn:He.
    + rewrite (advance_exhausted p He).
      case_match; [done|]. apply IHol. left. split; [done|lia].
    + case_match; [done|]. apply IHol. right. remaining_facts. lia.
  - intros obj p Hn. cbn [parseObjectLoop].
    destruct (isAtEnd p) eqn:He; [done|].
    destruct Hn as [[? ?]|Hn]; [done|].
    repeat case_match; simplify_eq; try done; bool_facts; try congruence;
      first
        [ exfalso;
          match goal with H : parseValue _ _ = None |- _ => revert H end;
          apply IHv; remaining_facts; lia
        | apply IHol; right; remaining_facts; lia ].
  - intros p Hn. cbn [parseArray].
    destruct (isAtEnd p) eqn:He.
    + rewrite (advance_exhausted p He).
      case_match; [done|]. apply IHal. left. split; [done|lia].
    + case_match; [done|]. apply IHal. right. remaining_facts. lia.
  - intros arr p Hn. cbn [parseArrayLoop].
    destruct (isAtEnd p) eqn:He; [done|].
    destruct Hn as [[? ?]|Hn]; [done|].
    repeat case_match; simplify_eq; try done; bool_facts; try congruence;
      first
        [ exfalso;
          match goal with H : parseValue _ _ = None |- _ => revert H end;
          apply IHv; remaining_facts; lia
        | apply IHal; right; remaining_facts; lia ].
Qed.

(** [Parse] always returns. *)
Lemma Parse_returns p : is_Some (Parse p).
Proof.
  unfold Parse. case_match; [done|].
  destruct (parseValue (depth_bound p) p) as [[r q]|] eqn:Hp; [done|].
  exfalso. revert Hp. apply (proj1 (parse_terminates _)).
  unfold depth_bound. lia.
Qed.

Lemma ParsePartialJSON_returns s : is_Some (ParsePartialJSON s).
Proof. apply Parse_returns. Qed.

Lemma ParsePartialJSONObject_returns s : is_Some (ParsePartialJSONObject s).
Proof.
  unfold ParsePartialJSONObject.
  destruct (ParsePartialJSON_returns s) as [r ->].
  destruct r as [[]|]; done.
Qed.

(* ===================================================================== *)
(** ** The batch parser: the end of the input inside an object *)
(* ===================================================================== *)

Lemma parseObjectLoop_error_not_exhausted n :
  forall obj p e p',
  parseObjectLoop n obj p = Some (Err e, p') -> isAtEnd p' = false.
Proof.
  induction n as [|n IH]; intros obj p e p' H; [done|].
  cbn [parseObjectLoop] in H.
  repeat case_match; simplify_eq;
    try match goal with
    | H : check ?q TokenEOF = false |- isAtEnd ?q = false =>
        by rewrite <- check_EOF
    end.
  by eapply IH.
Qed.

Lemma parseObject_error_not_exhausted n p e p' :
  parseObject n p = Some (Err e, p') -> isAtEnd p' = false.
Proof.
  destruct n as [|n]; [done|]. cbn [parseObject].
  case_match; [done|]. apply parseObjectLoop_error_not_exhausted.
Qed.

Ltac at_tok Hr :=
  let He := fresh "He" in
  let Hpk := fresh "Hpk" in
  let Hck := fresh "Hck" in
  let Hr' := fresh "Hr" in
  destruct (at_token _ _ _ _ Hr ltac:(discriminate)) as (He & Hpk & Hck & Hr');
  rewrite ?He, ?Hck, ?Hpk;
  repeat match goal with
  | |- context [TokenType_eqb ?a ?b] =>
      let v := eval vm_compute in (TokenType_eqb a b) in
      change (TokenType_eqb a b) with v
  end;
  cbn [negb andb Value tok].

Lemma loop_exhausted n obj p :
  isAtEnd p = true -> parseObjectLoop (S n) obj p = Some (Ok obj, p).
Proof. intros He. cbn [parseObjectLoop]. by rewrite He. Qed.

Lemma loop_key_then_end n obj p k ts :
  rest p = tok TokenString k :: ts -> exhausted ts = true ->
  parseObjectLoop (S n) obj p = Some (Ok (<[k := JNull]> obj), advance p).
Proof.
  intros Hr Hts. cbn [parseObjectLoop]. at_tok Hr.
  assert (isAtEnd (advance p) = true) as He1 by by rewrite isAtEnd_rest, Hr0.
  by rewrite !(check_exhausted _ _ He1).
Qed.

Lemma loop_colon_then_end n obj p k c ts :
  rest p = tok TokenString k :: tok TokenColon c :: ts -> exhausted ts = true ->
  parseObjectLoop (S n) obj p
  = Some (Ok (<[k := JNull]> obj), advance (advance p)).
Proof.
  intros Hr Hts. cbn [parseObjectLoop]. at_tok Hr. at_tok Hr0.
  assert (isAtEnd (advance (advance p)) = true) as He2
    by by rewrite isAtEnd_rest, Hr1.
  by rewrite !(check_exhausted _ _ He2).
Qed.

Lemma loop_value_fails_at_end n obj p k c ts e p3 :
  rest p = tok TokenString k :: tok TokenColon c :: ts ->
  exhausted ts = false ->
  parseValue n (advance (advance p)) = Some (Err e, p3) ->
  isAtEnd p3 = true ->
  parseObjectLoop (S n) obj p = Some (Ok (<[k := JNull]> obj), p3).
Proof.
  intros Hr Hts Hv He3. cbn [parseObjectLoop]. at_tok Hr. at_tok Hr0.
  by rewrite check_EOF, isAtEnd_rest, Hr1, Hts, Hv, check_EOF, He3.
Qed.

Lemma loop_value_then_end n obj p k c ts v p3 :
  rest p = tok TokenString k :: tok TokenColon c :: ts ->
  exhausted ts = false ->
  parseValue n (advance (advance p)) = Some (Ok v, p3) ->
  isAtEnd p3 = true ->
  parseObjectLoop (S n) obj p = Some (Ok (<[k := v]> obj), p3).
Proof.
  intros Hr Hts Hv He3. cbn [parseObjectLoop]. at_tok Hr. at_tok Hr0.
  rewrite check_EOF, isAtEnd_rest, Hr1, Hts, Hv.
  by rewrite !(check_exhausted _ _ He3).
Qed.

Lemma loop_comma_then_end n obj p k c ts v p3 c' ts' :
  rest p = tok TokenString k :: tok TokenColon c :: ts ->
  exhausted ts = false ->
  parseValue n (advance (advance p)) = Some (Ok v, p3) ->
  rest p3 = tok TokenComma c' :: ts' ->
  exhausted ts' = true ->
  parseObjectLoop (S n) obj p = Some (Ok (<[k := v]> obj), advance p3).
Proof.
  intros Hr Hts Hv Hr3 Hts'. cbn [parseObjectLoop]. at_tok Hr. at_tok Hr0.
  rewrite check_EOF, isAtEnd_rest, Hr1, Hts, Hv. at_tok Hr3.
  by rewrite check_EOF, isAtEnd_rest, Hr2, Hts'.
Qed.

(** C2. In [parseObject], the end of the input never is an error: an error
    is only returned with a token still to read. Where the input ends, the
    object built so far is returned, with null for a key whose value has not
    been reached: at the head of the loop, after a key, after its colon, in
    its value, after the value, and after the comma. The three texts of the
    specification parse to the mappings it gives. *)
Theorem parseObject_end_of_input :
  (forall n p e p',
     parseObject n p = Some (Err e, p') -> isAtEnd p' = false)
  /\ (forall p, is_Some (parseObject (depth_bound p) p))
  /\ (forall n obj p,
        isAtEnd p = true -> parseObjectLoop (S n) obj p = Some (Ok obj, p))
  /\ (forall n obj p k ts,
        rest p = tok TokenString k :: ts -> exhausted ts = true ->
        parseObjectLoop (S n) obj p
        = Some (Ok (<[k := JNull]> obj), advance p))
  /\ (forall n obj p k c ts,
        rest p = tok TokenString k :: tok TokenColon c :: ts ->
        exhausted ts = true ->
        parseObjectLoop (S n) obj p
        = Some (Ok (<[k := JNull]> obj), advance (advance p)))
  /\ (forall n obj p k c ts e p3,
        rest p = tok TokenString k :: tok TokenColon c :: ts ->
        exhausted ts = false ->
        parseValue n (advance (advance p)) = Some (Err e, p3) ->
        isAtEnd p3 = true ->
        parseObjectLoop (S n) obj p = Some (Ok (<[k := JNull]> obj), p3))
  /\ (forall n obj p k c ts v p3,
        rest p = tok TokenString k :: tok TokenColon c :: ts ->
        exhausted ts = false ->
        parseValue n (advance (advance p)) = Some (Ok v, p3) ->
        isAtEnd p3 = true ->
        parseObjectLoop (S n) obj p = Some (Ok (<[k := v]> obj), p3))
  /\ (forall n obj p k c ts v p3 c' ts',
        rest p = tok TokenString k :: tok TokenColon c :: ts ->
        exhausted ts = false ->
        parseValue n (advance (advance p)) = Some (Ok v, p3) ->
        rest p3 = tok TokenComma c' :: ts' ->
        exhausted ts' = true ->
        parseObjectLoop (S n) obj p = Some (Ok (<[k := v]> obj), advance p3))
  /\ ParsePartialJSONObject (json "{'key': 1234, 'key2':")
     = Some (Ok (<["key" := JInt 1234]> (<["key2" := JNull]> ∅)))
  /\ ParsePartialJSONObject (json "{'key1': true, 'key2")
     = Some (Ok (<["key1" := JBool true]> (<["key2" := JNull]> ∅)))
  /\ ParsePartialJSONObject (json "{'key1': 'value', 'key2': false,")
     = Some (Ok (<["key1" := JString "value"]> (<["key2" := JBool false]> ∅))).
Proof.
  split; [exact parseObject_error_not_exhausted|].
  split.
  { intros p.
    destruct (parseObject (depth_bound p) p) eqn:H; [done|].
    exfalso. revert H. apply (proj1 (proj2 (parse_terminates _))).
    unfold depth_bound. lia. }
  split; [exact loop_exhausted|].
  split; [exact loop_key_then_end|].
  split; [exact loop_colon_then_end|].
  split; [exact loop_value_fails_at_end|].
  split; [exact loop_value_then_end|].
  split; [exact loop_comma_then_end|].
  split; [by vm_compute|]. split; by vm_compute.
Qed.

(* ===================================================================== *)
(** ** The batch parser: the object-only entry point *)
(* ===================================================================== *)

Lemma Tokenize_not_empty l : Tokenize l <> [].
Proof. unfold Tokenize, push_token. cbn. by destruct (tokens _). Qed.

(** C10, as the code has it. [ParsePartialJSONObject] fails with "input is
    not a JSON object" whenever the parsed value is not a mapping, as for
    [[1, 2, 3]]. On the empty input it fails with "unexpected end of JSON":
    the lexer always emits the end-of-input token, so the parser is never
    given the empty token sequence for which it reports "no tokens to
    parse". *)
Theorem ParsePartialJSONObject_errors :
  (forall input v,
     ParsePartialJSON input = Some (Ok v) ->
     (forall obj, v <> JObject obj) ->
     ParsePartialJSONObject input = Some (Err "input is not a JSON object"))
  /\ ParsePartialJSONObject (json "[1, 2, 3]")
     = Some (Err "input is not a JSON object")
  /\ ParsePartialJSONObject "" = Some (Err "unexpected end of JSON")
  /\ Parse (NewParser []) = Some (Err "no tokens to parse")
  /\ (forall input, Tokenize (NewLexer input) <> []).
Proof.
  split.
  { intros input v Hv Hn. unfold ParsePartialJSONObject. rewrite Hv.
    destruct v; try done. by destruct (Hn m). }
  split; [by vm_compute|]. split; [by vm_compute|]. split; [done|].
  intros input. apply Tokenize_not_empty.
Qed.

(* ===================================================================== *)
(** ** The lexer: positions, and the end of the loops *)
(* ===================================================================== *)

Lemma get_None_length (s : string) (n : nat) :
  String.get n s = None <-> String.length s <= n.
Proof.
  revert n. induction s as [|c s IH]; intros n; cbn.
  - split; [lia|]. by destruct n.
  - destruct n as [|n]; cbn; [split; [done|lia]|].
    rewrite IH. lia.
Qed.

Lemma get_Some_length (s : string) (n : nat) (c : ascii) :
  String.get n s = Some c -> n < String.length s.
Proof.
  intros H. destruct (Nat.lt_ge_cases n (String.length s)) as [|Hge]; [done|].
  apply get_None_length in Hge. congruence.
Qed.

Lemma get_string_drop (s : string) (n : nat) (c : ascii) :
  String.get n s = Some c -> string_drop n s = String c (string_drop (S n) s).
Proof.
  revert n. induction s as [|a s IH]; intros n; cbn.
  - by destruct n.
  - destruct n as [|n]; cbn; [by intros [= ->]|]. intros H.
    rewrite (IH n H). by destruct s.
Qed.

Lemma string_drop_all (s : string) (n : nat) :
  String.length s <= n -> string_drop n s = EmptyString.
Proof.
  revert n. induction s as [|a s IH]; intros n; cbn.
  - by destruct n.
  - destruct n as [|n]; [lia|]. intros. apply IH. lia.
Qed.

Lemma slice_to_end (s : string) (n : nat) :
  slice s n (String.length s) = string_drop n s.
Proof.
  unfold slice. revert n. induction s as [|a s IH]; intros n; cbn.
  - by destruct n.
  - destruct n as [|n]; cbn.
    + f_equal. specialize (IH 0). rewrite Nat.sub_0_r in IH.
      rewrite IH. by destruct s.
    + apply IH.
Qed.

Lemma skip_while_ge cond n inp p : p <= skip_while cond n inp p.
Proof.
  revert p. induction n as [|n IH]; intros p; cbn; [done|].
  repeat case_match; try done. specialize (IH (S p)). lia.
Qed.

Lemma skip_while_progress cond n inp p c :
  String.get p inp = Some c -> cond c = true ->
  S p <= skip_while cond (S n) inp p.
Proof. intros Hg Hc. cbn. rewrite Hg, Hc. apply skip_while_ge. Qed.

Lemma skip_string_ge n inp p : p <= skip_string n inp p.
Proof.
  revert p. induction n as [|n IH]; intros p; cbn; [done|].
  repeat case_match; try done.
  all: match goal with
       | |- _ <= skip_string _ _ ?q => specialize (IH q); lia
       end.
Qed.

Lemma scan_while_facts cond l :
  input (scan_while cond l) = input l
  /\ tokens (scan_while cond l) = tokens l
  /\ pos l <= pos (scan_while cond l).
Proof. unfold scan_while. cbn. repeat split. apply skip_while_ge. Qed.

Lemma scan_while_progress cond l c :
  byte_at l (pos l) = Some c -> cond c = true ->
  S (pos l) <= pos (scan_while cond l).
Proof.
  intros Hg Hc. unfold scan_while. cbn.
  pose proof (get_Some_length _ _ _ Hg) as Hlt.
  destruct (String.length (input l) - pos l) as [|n] eqn:Hn; [lia|].
  by apply (skip_while_progress cond n (input l) (pos l) c).
Qed.

Lemma scanString_facts l :
  input (scanString l) = input l /\ S (pos l) <= pos (scanString l).
Proof.
  unfold scanString. cbn.
  pose proof (skip_string_ge (String.length (input l) - S (pos l)) (input l)
                (S (pos l))) as Hge.
  case_match; cbn; split; try done; lia.
Qed.

Lemma scanNumber_facts l c :
  byte_at l (pos l) = Some c -> isDigit c || byte_eqb c "-" = true ->
  input (scanNumber l) = input l /\ S (pos l) <= pos (scanNumber l).
Proof.
  intros Hg Hc. unfold scanNumber.
  set (l1 := if byte_is l (fun c => byte_eqb c "-")
             then set_pos (S (pos l)) l else l).
  assert (input l1 = input l /\ pos l <= pos l1) as [Hi1 Hp1]
    by (unfold l1; case_match; cbn; split; (done || lia)).
  assert (S (pos l) <= pos (scan_while isDigit l1)) as Hp2.
  { unfold l1, byte_is. rewrite Hg.
    destruct (byte_eqb c "-") eqn:Hm.
    - pose proof (scan_while_facts isDigit (set_pos (S (pos l)) l)) as (_ & _ & H).
      exact H.
    - rewrite orb_false_r in Hc. by apply (scan_while_progress isDigit l c). }
  destruct (scan_while_facts isDigit l1) as (Hi2 & _ & _).
  set (l2 := scan_while isDigit l1) in *.
  set (l3 := if byte_is l2 (fun c => byte_eqb c ".")
             then scan_while isDigit (set_pos (S (pos l2)) l2) else l2).
  assert (input l3 = input l2 /\ pos l2 <= pos l3) as [Hi3 Hp3].
  { unfold l3. case_match; [|done].
    destruct (scan_while_facts isDigit (set_pos (S (pos l2)) l2)) as (H1 & _ & H2).
    cbn in *. split; [done|lia]. }
  set (l4 := if byte_is l3 (fun c => byte_eqb c "e" || byte_eqb c "E")
             then _ else l3).
  assert (input l4 = input l3 /\ pos l3 <= pos l4) as [Hi4 Hp4].
  { unfold l4. case_match; [|done].
    match goal with
    | |- context [scan_while isDigit ?x] =>
        destruct (scan_while_facts isDigit x) as (H1 & _ & H2);
        assert (input x = input l3 /\ S (pos l3) <= pos x) as [H3 H4]
          by (case_match; cbn; split; (done || lia))
    end.
    split; [congruence|lia]. }
  cbn. split; [congruence|lia].
Qed.

Lemma scanIdentifier_facts l c :
  byte_at l (pos l) = Some c -> isAlpha c = true ->
  input (scanIdentifier l) = input l /\ S (pos l) <= pos (scanIdentifier l).
Proof.
  intros Hg Hc. unfold scanIdentifier.
  destruct (scan_while_facts isAlphaNumeric l) as (Hi & _ & _).
  assert (S (pos l) <= pos (scan_while isAlphaNumeric l)) as Hp.
  { apply (scan_while_progress _ l c); [done|].
    unfold isAlphaNumeric. by rewrite Hc. }
  repeat case_match; cbn; done.
Qed.

Lemma addToken_facts ty l c :
  byte_at l (pos l) = Some c ->
  input (addToken ty l) = input l /\ S (pos l) <= pos (addToken ty l).
Proof. intros Hg. unfold addToken. rewrite Hg. cbn. done. Qed.

Lemma scanToken_facts l :
  pos l < String.length (input l) ->
  input (scanToken l) = input l /\ S (pos l) <= pos (scanToken l).
Proof.
  intros Hlt. unfold scanToken.
  destruct (byte_at l (pos l)) as [c|] eqn:Hg.
  2: { apply get_None_length in Hg. lia. }
  repeat case_match;
    first [ by apply (addToken_facts _ l c)
          | by apply scanString_facts
          | by apply (scanNumber_facts l c)
          | by apply (scanIdentifier_facts l c)
          | done ].
Qed.

(** An iteration of the loop of [Tokenize] consumes at least one byte. *)
Lemma lexer_step_facts l :
  pos l < String.length (input l) ->
  input (lexer_step l) = input l /\ S (pos l) <= pos (lexer_step l).
Proof.
  intros Hlt. apply (scanToken_facts (set_start (pos l) l)). exact Hlt.
Qed.

Lemma tokenize_loop_step n l :
  pos l < String.length (input l) ->
  tokenize_loop (S n) l = tokenize_loop n (lexer_step l).
Proof.
  intros Hlt. cbn [tokenize_loop]. apply Nat.ltb_lt in Hlt. by rewrite Hlt.
Qed.

Lemma tokenize_loop_done n l :
  String.length (input l) <= pos l -> tokenize_loop n l = l.
Proof.
  intros Hge. destruct n; cbn [tokenize_loop]; [done|].
  apply Nat.ltb_ge in Hge. by rewrite Hge.
Qed.

(** The counter of the loop of [Tokenize] does not run out: any larger one
    gives the same lexer, which is at the end of its input. *)
Lemma tokenize_loop_enough n :
  forall m l,
  String.length (input l) - pos l <= n ->
  String.length (input l) - pos l <= m ->
  tokenize_loop n l = tokenize_loop m l
  /\ String.length (input l) <= pos (tokenize_loop n l).
Proof.
  induction n as [|n IH]; intros m l Hn Hm.
  - rewrite (tokenize_loop_done m l) by lia. cbn. split; [done|lia].
  - destruct (Nat.lt_ge_cases (pos l) (String.length (input l))) as [Hlt|Hge].
    + destruct m as [|m]; [lia|].
      rewrite !tokenize_loop_step by done.
      destruct (lexer_step_facts l Hlt) as [Hi Hp].
      destruct (IH m (lexer_step l)) as [He Hl]; [rewrite Hi; lia..|].
      split; [done|]. by rewrite Hi in Hl.
    + rewrite !tokenize_loop_done by done. done.
Qed.

Lemma Tokenize_reaches l l' : lexer_reaches l l' -> Tokenize l = Tokenize l'.
Proof.
  induction 1 as [|l l' Hlt _ IH]; [done|].
  rewrite <- IH. unfold Tokenize.
  destruct (lexer_step_facts l Hlt) as [Hi Hp].
  destruct (String.length (input l) - pos l) as [|n] eqn:Hn; [lia|].
  rewrite tokenize_loop_step by done.
  destruct (tokenize_loop_enough n
              (String.length (input (lexer_step l)) - pos (lexer_step l))
              (lexer_step l)) as [-> _]; [rewrite Hi; lia|lia|done].
Qed.

Lemma lexer_run_reaches n :
  forall l l', lexer_run n l = Some l' -> lexer_reaches l l'.
Proof.
  induction n as [|n IH]; intros l l' Hrun; cbn [lexer_run] in Hrun.
  - injection Hrun as <-. apply reaches_here.
  - destruct (pos l <? String.length (input l)) eqn:Hlt; [|done].
    apply Nat.ltb_lt in Hlt. apply reaches_step; [done|]. by apply IH.
Qed.

Lemma lexer_reaches_input l l' : lexer_reaches l l' -> input l' = input l.
Proof.
  induction 1 as [|l l' Hlt _ IH]; [done|].
  rewrite IH. by apply lexer_step_facts.
Qed.

(* ===================================================================== *)
(** ** The lexer: a string that the end of the input cuts *)
(* ===================================================================== *)

(** Without a closing quote, the loop of [scanString] runs to the end of the
    input. *)
Lemma skip_string_to_end n :
  forall inp p,
  p <= String.length inp -> String.length inp - p <= n ->
  has_closing_quote (string_drop p inp) = false ->
  skip_string n inp p = String.length inp.
Proof.
  induction n as [|n IH]; intros inp p Hp Hn Hq; [cbn; lia|].
  cbn [skip_string].
  destruct (String.get p inp) as [c|] eqn:Hg.
  2: { apply get_None_length in Hg. lia. }
  pose proof (get_Some_length _ _ _ Hg) as Hlt.
  rewrite (get_string_drop _ _ _ Hg) in Hq. cbn [has_closing_quote] in Hq.
  destruct (byte_eqb c ch_quote); [done|].
  destruct (byte_eqb c ch_backslash); cbn [andb].
  - destruct (p + 1 <? String.length inp) eqn:Hlt2.
    + apply Nat.ltb_lt in Hlt2.
      destruct (String.get (S p) inp) as [c'|] eqn:Hg'.
      2: { apply get_None_length in Hg'. lia. }
      rewrite (get_string_drop _ _ _ Hg') in Hq.
      apply IH; [lia|lia|done].
    + apply Nat.ltb_ge in Hlt2.
      assert (S p = String.length inp) as Heq by lia.
      destruct n; cbn [skip_string]; [done|].
      assert (String.get (S p) inp = None) as -> by (apply get_None_length; lia).
      done.
  - apply IH; [lia|lia|done].
Qed.

Lemma scanString_truncated l body :
  byte_at l (pos l) = Some ch_quote ->
  string_drop (S (pos l)) (input l) = body ->
  has_closing_quote body = false ->
  scanString l
  = {| input := input l; pos := String.length (input l); start := start l;
       tokens := tokens l ++ [tok TokenString body] |}.
Proof.
  intros Hg Hb Hq. pose proof (get_Some_length _ _ _ Hg) as Hlt.
  unfold scanString. cbn [input pos set_pos push_token start tokens].
  rewrite (skip_string_to_end _ (input l) (S (pos l))); [|lia|lia|by rewrite Hb].
  rewrite Nat.ltb_irrefl, slice_to_end, Hb. reflexivity.
Qed.

Lemma scanToken_quote l :
  byte_at l (pos l) = Some ch_quote -> scanToken l = scanString l.
Proof. intros Hg. unfold scanToken. by rewrite Hg. Qed.

(** C3, as the code has it. A string that has its opening quote and no
    closing quote before the input ends is not dropped: whenever the loop of
    [Tokenize] arrives at such an opening quote, the token sequence ends with
    a string token that carries all the text after the quote, followed by
    the end-of-input token. *)
Theorem truncated_string_is_a_token
    (inp : string) (l : Lexer) (body : string)
    (Hreach : lexer_reaches (NewLexer inp) l)
    (Hquote : byte_at l (pos l) = Some ch_quote)
    (Hbody : string_drop (S (pos l)) inp = body)
    (Hopen : has_closing_quote body = false) :
  Tokenize (NewLexer inp)
  = tokens l ++ [tok TokenString body; tok TokenEOF ""].
Proof.
  rewrite (Tokenize_reaches _ _ Hreach).
  pose proof (lexer_reaches_input _ _ Hreach) as Hi. cbn in Hi.
  pose proof (get_Some_length _ _ _ Hquote) as Hlt.
  unfold Tokenize.
  destruct (String.length (input l) - pos l) as [|n] eqn:Hn; [lia|].
  rewrite tokenize_loop_step by done.
  unfold lexer_step. rewrite scanToken_quote by exact Hquote.
  rewrite (scanString_truncated _ body);
    [|done|by cbn; rewrite Hi|done].
  rewrite tokenize_loop_done by (cbn; lia).
  cbn. by rewrite <- app_assoc.
Qed.

(* ===================================================================== *)
(** ** The streaming parser: the letter e outside a string *)
(* ===================================================================== *)

(** Outside a string, [e] is only taken as the last letter of [true] and of
    [false]: the case for it in the [switch] comes before the default case,
    whose test [c == "e"] for the exponent of a number is never reached. *)
Lemma ProcessChar_e_refused (sp : StreamingParser) :
  inString sp = false -> buffer sp <> "tru" -> buffer sp <> "fals" ->
  ProcessChar "e" sp = (sp, Some "unexpected 'e'").
Proof.
  intros Hs H1 H2. unfold ProcessChar.
  rewrite flush_number_other by done. rewrite Hs.
  unfold process_other.
  change (seqb "e" ?x) with (String.eqb "e" x). cbn [String.eqb Ascii.eqb
    Bool.eqb orb str_tab str_cr str_lf str_quote string_of_byte ch_tab ch_cr
    ch_lf ch_quote ascii_of_nat ascii_of_pos].
  unfold seqb.
  destruct (String.eqb_spec (buffer sp) "tru"); [done|].
  destruct (String.eqb_spec (buffer sp) "fals"); [done|].
  reflexivity.
Qed.

(* ===================================================================== *)
(** ** Documents: the lexer, the batch parser and the streaming parser *)
(* ===================================================================== *)

Ltac split_andb :=
  repeat match goal with
  | H : _ && _ = true |- _ => apply andb_true_iff in H as [? ?]
  end.

(* ---- induction on documents ---- *)

Lemma list_sum_elem (l : list nat) (x : nat) : x ∈ l -> x <= list_sum l.
Proof.
  induction 1 as [x l|x y l _ IH]; unfold list_sum in *; cbn [fold_right]; lia.
Qed.

Lemma size_item w items e :
  e ∈ items -> doc_size (e_val e) < doc_size (DArr w items).
Proof.
  intros He. cbn [doc_size].
  assert (doc_size (e_val e) <= list_sum (map (fun e => doc_size (e_val e)) items)).
  { apply list_sum_elem. apply list_elem_of_In, in_map_iff. exists e.
    split; [done|]. by apply list_elem_of_In. }
  lia.
Qed.

Lemma size_member w members m :
  m ∈ members -> doc_size (e_val (m_elem m)) < doc_size (DObj w members).
Proof.
  intros He. cbn [doc_size].
  assert (doc_size (e_val (m_elem m))
          <= list_sum (map (fun m => doc_size (e_val (m_elem m))) members)).
  { apply list_sum_elem. apply list_elem_of_In, in_map_iff. exists m.
    split; [done|]. by apply list_elem_of_In. }
  lia.
Qed.

Lemma doc_size_ind (P : doc -> Prop) :
  (forall d, (forall d', doc_size d' < doc_size d -> P d') -> P d) -> forall d, P d.
Proof.
  intros Hstep d. remember (doc_size d) as n eqn:Hn. revert d Hn.
  induction n as [n IH] using lt_wf_ind. intros d ->.
  apply Hstep. intros d' Hlt. by apply (IH (doc_size d')).
Qed.

Lemma forallb_elem {A : Type} (f : A -> bool) (l : list A) (x : A) :
  forallb f l = true -> x ∈ l -> f x = true.
Proof.
  intros Hf Hx. rewrite forallb_forall in Hf. apply Hf. by apply list_elem_of_In.
Qed.

(* ---- the parser on the tokens of a document ---- *)

Lemma tokens_of_head d k :
  exists ty v ts, tokens_of d k = tok ty v :: ts /\ value_start ty.
Proof.
  destruct d as [|[]| | | |]; cbn; do 3 eexists; (split; [reflexivity|exact I]).
Qed.

Lemma number_ok_parse x :
  number_ok x = true ->
  parse_number (number_text x "") = Ok (inl 0%Z) \/
  exists r, parse_number (number_text x "") = Ok r.
Proof.
  unfold number_ok. intros H. right.
  destruct (parse_number (number_text x "")) as [r|e]; [eauto|].
  by rewrite !andb_false_r in H.
Qed.

Lemma parseArrayLoop_items (items : list (elem_of doc)) :
  Forall (fun e => parses_to (e_val e)) items ->
  forall e n arr p k,
  parses_to (e_val e) ->
  rest p = tokens_of (e_val e)
             (tail_tokens (fun e => tokens_of (e_val e))
                (tok TokenRightBracket "]") items k) ->
  parseArrayLoop n arr p <> None ->
  exists p',
    parseArrayLoop n arr p
    = Some (Ok (arr ++ map (fun e => value_of (e_val e)) (e :: items)), p')
    /\ rest p' = k.
Proof.
  induction 1 as [|e' items He' _ IH]; intros e n arr p k He Hr Hn.
  - destruct n as [|n]; [done|]. cbn [parseArrayLoop] in *.
    destruct (tokens_of_head (e_val e)
                (tail_tokens (fun e => tokens_of (e_val e))
                   (tok TokenRightBracket "]") [] k)) as (ty & v & ts & Hh & Hty).
    rewrite Hh in Hr.
    assert (isAtEnd p = false) as Hne.
    { destruct (at_token _ _ _ _ Hr) as (? & _); [by destruct ty|done]. }
    rewrite Hne in *. rewrite <- Hh in Hr.
    destruct (He n p _ Hr) as (p1 & Hp1 & Hr1).
    { intros Hx. by rewrite Hx in Hn. }
    rewrite Hp1. cbn [tail_tokens fold_right] in Hr1. at_tok Hr1.
    eexists. split; [reflexivity|done].
  - destruct n as [|n]; [done|]. cbn [parseArrayLoop] in *.
    destruct (tokens_of_head (e_val e)
                (tail_tokens (fun e => tokens_of (e_val e))
                   (tok TokenRightBracket "]") (e' :: items) k))
      as (ty & v & ts & Hh & Hty).
    rewrite Hh in Hr.
    assert (isAtEnd p = false) as Hne.
    { destruct (at_token _ _ _ _ Hr) as (? & _); [by destruct ty|done]. }
    rewrite Hne in *. rewrite <- Hh in Hr.
    destruct (He n p _ Hr) as (p1 & Hp1 & Hr1).
    { intros Hx. by rewrite Hx in Hn. }
    rewrite Hp1 in *. cbn [tail_tokens fold_right] in Hr1.
    fold (tail_tokens (fun e => tokens_of (e_val e))
            (tok TokenRightBracket "]") items k) in Hr1.
    revert Hn. at_tok Hr1.
    destruct (tokens_of_head (e_val e')
                (tail_tokens (fun e => tokens_of (e_val e))
                   (tok TokenRightBracket "]") items k))
      as (ty' & v' & ts' & Hh' & Hty').
    assert (check (advance p1) TokenEOF = false) as Hce.
    { rewrite check_EOF. rewrite Hh' in Hr0.
      destruct (at_token _ _ _ _ Hr0) as (? & _); [by destruct ty'|done]. }
    rewrite Hce. intros Hn.
    destruct (IH e' n (arr ++ [value_of (e_val e)]) (advance p1) k He' Hr0 Hn)
      as (p2 & Hp2 & Hr2).
    exists p2. split; [|done]. rewrite Hp2. by rewrite <- app_assoc.
Qed.

Lemma parseObjectLoop_members (members : list (member_of doc)) :
  Forall (fun m => parses_to (e_val (m_elem m))) members ->
  forall m n obj p k,
  parses_to (e_val (m_elem m)) ->
  rest p = member_tokens tokens_of m
             (tail_tokens (member_tokens tokens_of)
                (tok TokenRightBrace "}") members k) ->
  parseObjectLoop n obj p <> None ->
  exists p',
    parseObjectLoop n obj p
    = Some (Ok (fold_left (add_member value_of) (m :: members) obj), p')
    /\ rest p' = k.
Proof.
  induction 1 as [|m' members Hm' _ IH]; intros m n obj p k Hm Hr Hn.
  - destruct n as [|n]; [done|]. cbn [parseObjectLoop] in *.
    unfold member_tokens in Hr at 1. revert Hn. at_tok Hr. at_tok Hr0.
    destruct (tokens_of_head (e_val (m_elem m))
                (tail_tokens (member_tokens tokens_of)
                   (tok TokenRightBrace "}") [] k)) as (ty & v & ts & Hh & Hty).
    assert (check (advance (advance p)) TokenEOF = false) as Hce.
    { rewrite check_EOF. rewrite Hh in Hr1.
      destruct (at_token _ _ _ _ Hr1) as (? & _); [by destruct ty|done]. }
    rewrite Hce. intros Hn.
    destruct (Hm n (advance (advance p)) _ Hr1) as (p1 & Hp1 & Hr2).
    { intros Hx. by rewrite Hx in Hn. }
    rewrite Hp1. cbn [tail_tokens fold_right] in Hr2. at_tok Hr2.
    eexists. split; [reflexivity|done].
  - destruct n as [|n]; [done|]. cbn [parseObjectLoop] in *.
    unfold member_tokens in Hr at 1. revert Hn. at_tok Hr. at_tok Hr0.
    destruct (tokens_of_head (e_val (m_elem m))
                (tail_tokens (member_tokens tokens_of)
                   (tok TokenRightBrace "}") (m' :: members) k))
      as (ty & v & ts & Hh & Hty).
    assert (check (advance (advance p)) TokenEOF = false) as Hce.
    { rewrite check_EOF. rewrite Hh in Hr1.
      destruct (at_token _ _ _ _ Hr1) as (? & _); [by destruct ty|done]. }
    rewrite Hce. intros Hn.
    destruct (Hm n (advance (advance p)) _ Hr1) as (p1 & Hp1 & Hr2).
    { intros Hx. by rewrite Hx in Hn. }
    rewrite Hp1 in *. cbn [tail_tokens fold_right] in Hr2.
    fold (tail_tokens (member_tokens tokens_of)
            (tok TokenRightBrace "}") members k) in Hr2.
    revert Hn. at_tok Hr2.
    assert (check (advance p1) TokenEOF = false) as Hce2.
    { rewrite check_EOF. unfold member_tokens in Hr3 at 1.
      destruct (at_token _ _ _ _ Hr3) as (? & _); done. }
    rewrite Hce2. intros Hn.
    destruct (IH m' n (<[m_key m := value_of (e_val (m_elem m))]> obj)
                (advance p1) k Hm' Hr3 Hn) as (p2 & Hp2 & Hr4).
    exists p2. split; [|done]. by rewrite Hp2.
Qed.

Lemma lift_not_None {A B : Type} (f : A -> B) x : lift f x <> None -> x <> None.
Proof. by destruct x as [[[a|e] q]|]. Qed.

Lemma doc_parses_to (d : doc) : doc_ok d = true -> parses_to d.
Proof.
  induction d as [d IH] using doc_size_ind. intros Hok n p k Hr Hn.
  destruct n as [|n]; [done|].
  destruct d as [|b|x|s|w items|w members]; cbn [tokens_of] in Hr;
    cbn [parseValue] in *.
  - at_tok Hr. eauto.
  - destruct b; at_tok Hr; eauto.
  - at_tok Hr. cbn [doc_ok] in Hok.
    unfold value_of, number_value.
    destruct (number_ok_parse x Hok) as [Hp|[r Hp]]; rewrite Hp;
      [eauto|destruct r; eauto].
  - at_tok Hr. eauto.
  - revert Hn. at_tok Hr. intros Hn%lift_not_None.
    destruct n as [|n]; [done|]. cbn [parseArray] in *. revert Hn.
    cbn [doc_ok] in Hok. apply andb_true_iff in Hok as [_ Hok].
    destruct items as [|e items]; cbn [seq_tokens] in Hr0.
    + at_tok Hr0. intros _. eauto.
    + intros Hn.
      assert (forall e', e' ∈ e :: items -> parses_to (e_val e')) as Hall.
      { intros e' He'. apply IH; [by apply size_item|].
        pose proof (forallb_elem _ _ _ Hok He') as H1.
        unfold elem_ok in H1. by split_andb. }
      destruct (tokens_of_head (e_val e)
                  (tail_tokens (fun e => tokens_of (e_val e))
                     (tok TokenRightBracket "]") items k))
        as (ty & v & ts & Hh & Hty).
      assert (check (advance p) TokenRightBracket = false) as Hcb.
      { rewrite Hh in Hr0.
        destruct (at_token _ _ _ _ Hr0) as (_ & _ & Hc & _); [by destruct ty|].
        rewrite Hc. by destruct ty. }
      rewrite Hcb in *.
      destruct (parseArrayLoop_items items) with (e := e) (n := n)
        (arr := @nil JValue) (p := advance p) (k := k) as (p' & Hp' & Hr');
        [apply Forall_forall; intros; apply Hall; by right
        |apply Hall; by left|done|done|].
      rewrite Hp'. cbn [lift]. eauto.
  - revert Hn. at_tok Hr. intros Hn%lift_not_None.
    destruct n as [|n]; [done|]. cbn [parseObject] in *. revert Hn.
    cbn [doc_ok] in Hok. apply andb_true_iff in Hok as [_ Hok].
    destruct members as [|m members]; cbn [seq_tokens] in Hr0.
    + at_tok Hr0. intros _. eauto.
    + intros Hn.
      assert (forall m', m' ∈ m :: members -> parses_to (e_val (m_elem m')))
        as Hall.
      { intros m' Hm'. apply IH; [by apply size_member|].
        pose proof (forallb_elem _ _ _ Hok Hm') as H1.
        unfold member_ok, elem_ok in H1. by split_andb. }
      assert (check (advance p) TokenRightBrace = false) as Hcb.
      { unfold member_tokens in Hr0 at 1.
        destruct (at_token _ _ _ _ Hr0) as (_ & _ & Hc & _); [done|].
        by rewrite Hc. }
      rewrite Hcb in *.
      destruct (parseObjectLoop_members members) with (m := m) (n := n)
        (obj := (∅ : gmap string JValue)) (p := advance p) (k := k)
        as (p' & Hp' & Hr');
        [apply Forall_forall; intros; apply Hall; by right
        |apply Hall; by left|done|done|].
      rewrite Hp'. cbn [lift]. eauto.
Qed.

(* ---- strings seen from a position ---- *)

Lemma append_cons (x : ascii) (a b : string) :
  String x a +:+ b = String x (a +:+ b).
Proof. reflexivity. Qed.

Lemma append_nil_l (b : string) : "" +:+ b = b.
Proof. reflexivity. Qed.

Lemma append_assoc (a b c : string) : (a +:+ b) +:+ c = a +:+ (b +:+ c).
Proof.
  induction a as [|x a IH]; [done|]. rewrite !append_cons. by rewrite IH.
Qed.

Lemma append_nil_r (a : string) : a +:+ "" = a.
Proof. induction a as [|x a IH]; [done|]. rewrite append_cons. by rewrite IH. Qed.

Lemma length_append (a b : string) :
  String.length (a +:+ b) = String.length a + String.length b.
Proof.
  induction a as [|x a IH]; [done|]. rewrite append_cons. cbn. by rewrite IH.
Qed.

Lemma string_drop_0 (s : string) : string_drop 0 s = s.
Proof. by destruct s. Qed.

Lemma string_drop_S p a inp :
  string_drop (S p) (String a inp) = string_drop p inp.
Proof. reflexivity. Qed.

Lemma string_drop_cons p inp c suf :
  string_drop p inp = String c suf ->
  String.get p inp = Some c /\ string_drop (S p) inp = suf
  /\ p < String.length inp.
Proof.
  revert p. induction inp as [|a inp IH]; intros p H.
  - by destruct p.
  - destruct p as [|p].
    + rewrite string_drop_0 in H. injection H as -> ->.
      rewrite string_drop_S, string_drop_0. cbn. repeat split. lia.
    + rewrite string_drop_S in H. destruct (IH p H) as (H1 & H2 & H3).
      rewrite string_drop_S. cbn. repeat split; [done|done|lia].
Qed.

Lemma string_drop_nil p inp :
  string_drop p inp = "" -> String.get p inp = None.
Proof.
  revert p. induction inp as [|a inp IH]; intros p H.
  - by destruct p.
  - destruct p as [|p]; [done|]. rewrite string_drop_S in H. cbn. by apply IH.
Qed.

Lemma string_drop_app p inp a k :
  string_drop p inp = a +:+ k ->
  string_drop (p + String.length a) inp = k.
Proof.
  revert p. induction a as [|x a IH]; intros p H.
  - cbn. by rewrite Nat.add_0_r.
  - rewrite append_cons in H. cbn [String.length].
    destruct (string_drop_cons _ _ _ _ H) as (_ & H2 & _).
    replace (p + S (String.length a)) with (S p + String.length a) by lia.
    by apply IH.
Qed.

Lemma substring_drop p n inp :
  String.substring p n inp = String.substring 0 n (string_drop p inp).
Proof.
  revert p. induction inp as [|a inp IH]; intros p.
  - by destruct p, n.
  - destruct p as [|p]; [done|]. rewrite string_drop_S. cbn [String.substring].
    apply IH.
Qed.

Lemma substring_prefix a k :
  String.substring 0 (String.length a) (a +:+ k) = a.
Proof.
  induction a as [|x a IH]; [by destruct k|].
  rewrite append_cons. cbn [String.length String.substring]. by rewrite IH.
Qed.

Lemma slice_app p inp a k :
  string_drop p inp = a +:+ k -> slice inp p (p + String.length a) = a.
Proof.
  intros H. unfold slice.
  replace (p + String.length a - p) with (String.length a) by lia.
  rewrite substring_drop, H. apply substring_prefix.
Qed.

Lemma string_drop_length p inp :
  String.length (string_drop p inp) = String.length inp - p.
Proof.
  revert p. induction inp as [|a inp IH]; intros p.
  - by destruct p.
  - destruct p as [|p]; [done|]. rewrite string_drop_S. cbn. apply IH.
Qed.

Lemma skip_while_run cond n inp p run k :
  string_drop p inp = run +:+ k ->
  string_forall cond run = true -> head_not cond k = true ->
  String.length run <= n ->
  skip_while cond n inp p = p + String.length run.
Proof.
  revert p run. induction n as [|n IH]; intros p run Hd Hrun Hk Hn.
  - destruct run; cbn in *; [lia|lia].
  - cbn [skip_while]. destruct run as [|c run];
      rewrite ?append_cons, ?append_nil_l in Hd; cbn in Hrun, Hn |- *.
    + destruct k as [|c k].
      * rewrite (string_drop_nil _ _ Hd). lia.
      * destruct (string_drop_cons _ _ _ _ Hd) as (-> & _ & _).
        cbn in Hk. apply negb_true_iff in Hk. rewrite Hk. lia.
    + destruct (string_drop_cons _ _ _ _ Hd) as (-> & Hd' & _).
      apply andb_true_iff in Hrun as [-> Hrun].
      rewrite (IH (S p) run Hd' Hrun Hk); lia.
Qed.

Lemma skip_string_body n inp p s k :
  string_drop p inp = s +:+ String ch_quote k ->
  string_forall plain_byte s = true ->
  String.length s < n ->
  skip_string n inp p = p + String.length s.
Proof.
  revert p s. induction n as [|n IH]; intros p s Hd Hs Hn; [lia|].
  cbn [skip_string]. destruct s as [|c s];
    rewrite ?append_cons, ?append_nil_l in Hd; cbn in Hs, Hn |- *.
  - destruct (string_drop_cons _ _ _ _ Hd) as (-> & _ & _).
    change (byte_eqb ch_quote ch_quote) with true. cbn. lia.
  - destruct (string_drop_cons _ _ _ _ Hd) as (-> & Hd' & _).
    apply andb_true_iff in Hs as [Hc Hs]. unfold plain_byte in Hc.
    apply andb_true_iff in Hc as [Hq Hb].
    apply negb_true_iff in Hq, Hb. rewrite Hq, Hb. cbn [andb].
    rewrite (IH (S p) s Hd' Hs); lia.
Qed.

(* ---- the lexer seen from what is left of the input ---- *)

Lemma lexer_reaches_trans l1 l2 l3 :
  lexer_reaches l1 l2 -> lexer_reaches l2 l3 -> lexer_reaches l1 l3.
Proof.
  induction 1 as [|l l' Hlt _ IH]; [done|]. intros H3.
  apply reaches_step; [done|]. by apply IH.
Qed.

Lemma lexer_reaches_one l :
  pos l < String.length (input l) -> lexer_reaches l (lexer_step l).
Proof. intros. apply reaches_step; [done|]. apply reaches_here. Qed.

Lemma suffix_cons l c k :
  suffix l = String c k ->
  byte_at l (pos l) = Some c /\ pos l < String.length (input l)
  /\ suffix (set_pos (S (pos l)) l) = k.
Proof.
  unfold suffix, byte_at. intros H.
  destruct (string_drop_cons _ _ _ _ H) as (H1 & H2 & H3). by cbn.
Qed.

Lemma byte_is_head l f c k : suffix l = String c k -> byte_is l f = f c.
Proof.
  intros H. destruct (suffix_cons _ _ _ H) as (H1 & _). unfold byte_is.
  by rewrite H1.
Qed.

Lemma byte_is_stop l f k :
  suffix l = k -> head_not f k = true -> byte_is l f = false.
Proof.
  intros H Hk. destruct k as [|c k].
  - unfold byte_is, byte_at. unfold suffix in H.
    by rewrite (string_drop_nil _ _ H).
  - rewrite (byte_is_head _ _ _ _ H). by apply negb_true_iff.
Qed.

Lemma scan_while_view cond l run k :
  suffix l = run +:+ k ->
  string_forall cond run = true -> head_not cond k = true ->
  scan_while cond l = set_pos (pos l + String.length run) l
  /\ suffix (scan_while cond l) = k.
Proof.
  intros H Hrun Hk. unfold scan_while.
  rewrite (skip_while_run cond _ _ _ run k H Hrun Hk).
  - split; [done|]. unfold suffix. cbn. by apply string_drop_app.
  - unfold suffix in H. rewrite <- string_drop_length, H, length_append. lia.
Qed.

Lemma isDigit_cases c :
  isDigit c = true ->
  In c ["0"; "1"; "2"; "3"; "4"; "5"; "6"; "7"; "8"; "9"]%char.
Proof.
  destruct c as [[] [] [] [] [] [] [] []]; vm_compute; intros H;
    try discriminate; tauto.
Qed.

Lemma is_ws_byte_cases c :
  is_ws_byte c = true -> In c [" "%char; ch_tab; ch_cr; ch_lf].
Proof.
  destruct c as [[] [] [] [] [] [] [] []]; vm_compute; intros H;
    try discriminate; tauto.
Qed.

Lemma scanToken_at l c :
  byte_at l (pos l) = Some c ->
  scanToken l =
    if byte_eqb c "{" then addToken TokenLeftBrace l
    else if byte_eqb c "}" then addToken TokenRightBrace l
    else if byte_eqb c "[" then addToken TokenLeftBracket l
    else if byte_eqb c "]" then addToken TokenRightBracket l
    else if byte_eqb c ":" then addToken TokenColon l
    else if byte_eqb c "," then addToken TokenComma l
    else if byte_eqb c ch_quote then scanString l
    else if byte_eqb c " " || byte_eqb c ch_tab || byte_eqb c ch_cr
            || byte_eqb c ch_lf then set_pos (S (pos l)) l
    else if isDigit c || byte_eqb c "-" then scanNumber l
    else if isAlpha c then scanIdentifier l
    else set_pos (S (pos l)) l.
Proof. intros H. unfold scanToken. by rewrite H. Qed.

Lemma scanToken_digit l c :
  byte_at l (pos l) = Some c -> isDigit c = true -> scanToken l = scanNumber l.
Proof.
  intros H Hd. rewrite (scanToken_at l c H).
  apply isDigit_cases in Hd. cbn [In] in Hd.
  repeat (destruct Hd as [<-|Hd]; [reflexivity|]). done.
Qed.

Lemma scanToken_ws l c :
  byte_at l (pos l) = Some c -> is_ws_byte c = true ->
  scanToken l = set_pos (S (pos l)) l.
Proof.
  intros H Hd. rewrite (scanToken_at l c H).
  apply is_ws_byte_cases in Hd. cbn [In] in Hd.
  repeat (destruct Hd as [<-|Hd]; [reflexivity|]). done.
Qed.

(** One iteration of the loop on a lexer whose input goes on with the byte
    [c]. *)
Lemma lexer_step_at l c k :
  suffix l = String c k ->
  pos l < String.length (input l)
  /\ lexer_step l = scanToken (set_start (pos l) l)
  /\ byte_at (set_start (pos l) l) (pos (set_start (pos l) l)) = Some c
  /\ suffix (set_start (pos l) l) = String c k.
Proof. intros H. destruct (suffix_cons _ _ _ H) as (H1 & H2 & _). done. Qed.

Lemma lex_punct l c ty k :
  suffix l = String c k -> punct c ty ->
  lexer_reaches l (lexer_step l)
  /\ tokens (lexer_step l) = tokens l ++ [tok ty (string_of_byte c)]
  /\ suffix (lexer_step l) = k.
Proof.
  intros H Hp. destruct (lexer_step_at _ _ _ H) as (Hlt & -> & Hb & Hs).
  split; [by apply lexer_reaches_one|].
  rewrite (scanToken_at _ c Hb).
  assert (forall ty', addToken ty' (set_start (pos l) l)
          = set_pos (S (pos l))
              (push_token (tok ty' (string_of_byte c)) (set_start (pos l) l)))
    as Hadd by (intros ty'; unfold addToken; by rewrite Hb).
  destruct (suffix_cons _ _ _ H) as (_ & _ & Hk).
  destruct Hp as [[-> ->]|[[-> ->]|[[-> ->]|[[-> ->]|[[-> ->]|[-> ->]]]]]];
    cbn [byte_eqb Ascii.eqb Bool.eqb]; cbn iota; rewrite Hadd; by cbn.
Qed.

Lemma lex_ws_byte l c k :
  suffix l = String c k -> is_ws_byte c = true ->
  lexer_reaches l (lexer_step l)
  /\ tokens (lexer_step l) = tokens l /\ suffix (lexer_step l) = k.
Proof.
  intros H Hw. destruct (lexer_step_at _ _ _ H) as (Hlt & -> & Hb & Hs).
  split; [by apply lexer_reaches_one|].
  rewrite (scanToken_ws _ c Hb Hw).
  destruct (suffix_cons _ _ _ H) as (_ & _ & Hk). by cbn.
Qed.

Lemma lex_ws w :
  forall l k,
  suffix l = w +:+ k -> is_ws w = true ->
  exists l', lexer_reaches l l' /\ tokens l' = tokens l /\ suffix l' = k.
Proof.
  induction w as [|c w IH]; intros l k H Hw.
  - exists l. split; [apply reaches_here|done].
  - rewrite append_cons in H. cbn in Hw. apply andb_true_iff in Hw as [Hc Hw].
    destruct (lex_ws_byte _ _ _ H Hc) as (H1 & H2 & H3).
    destruct (IH _ _ H3 Hw) as (l' & H4 & H5 & H6).
    exists l'. split; [by eapply lexer_reaches_trans|]. split; congruence.
Qed.

Lemma lex_string l s k :
  suffix l = String ch_quote (s +:+ String ch_quote k) ->
  string_forall plain_byte s = true ->
  lexer_reaches l (lexer_step l)
  /\ tokens (lexer_step l) = tokens l ++ [tok TokenString s]
  /\ suffix (lexer_step l) = k.
Proof.
  intros H Hs. destruct (lexer_step_at _ _ _ H) as (Hlt & -> & Hb & _).
  split; [by apply lexer_reaches_one|].
  rewrite (scanToken_quote _ Hb).
  destruct (suffix_cons _ _ _ H) as (_ & _ & Hk). unfold suffix in Hk.
  cbn [pos input set_pos] in Hk.
  unfold scanString. cbn [pos input set_pos set_start push_token tokens].
  assert (String.length (input l) - S (pos l)
          = String.length s + S (String.length k)) as Hlen.
  { rewrite <- string_drop_length, Hk, length_append. by cbn. }
  rewrite (skip_string_body _ _ _ s k Hk Hs) by lia.
  rewrite (slice_app _ _ _ _ Hk).
  assert ((S (pos l) + String.length s <? String.length (input l)) = true) as ->
    by (apply Nat.ltb_lt; lia).
  cbn. split; [done|]. unfold suffix. cbn.
  apply string_drop_app in Hk.
  destruct (string_drop_cons _ _ _ _ Hk) as (_ & Hk' & _). exact Hk'.
Qed.

Lemma set_pos_same l : set_pos (pos l) l = l.
Proof. by destruct l. Qed.

Lemma set_pos_twice a b l : set_pos a (set_pos b l) = set_pos a l.
Proof. done. Qed.

Lemma byte_eqb_true a b : byte_eqb a b = true -> a = b.
Proof. apply Ascii.eqb_eq. Qed.

Lemma head_not_weaken (f g : ascii -> bool) k :
  (forall c, g c = true -> f c = true) ->
  head_not f k = true -> head_not g k = true.
Proof.
  intros Hfg. destruct k as [|c k]; [done|]. cbn.
  rewrite !negb_true_iff. intros Hf. destruct (g c) eqn:Hg; [|done].
  by rewrite (Hfg c Hg) in Hf.
Qed.

Lemma digits_ok_head s :
  digits_ok s = true ->
  exists d s', s = String d s' /\ isDigit d = true
               /\ string_forall isDigit s = true.
Proof.
  unfold digits_ok. intros [Hd Hn]%andb_true_iff. destruct s as [|d s]; [done|].
  exists d, s. cbn in Hd. apply andb_true_iff in Hd as [Hd1 Hd2].
  split; [done|]. split; [done|]. cbn. by rewrite Hd1, Hd2.
Qed.

(** An optional byte: a sign before digits. *)
Lemma scan_optional l (f : ascii -> bool) (t k : string) :
  suffix l = t +:+ k ->
  (t = "" /\ head_not f k = true) \/ (exists c, t = String c "" /\ f c = true) ->
  (if byte_is l f then set_pos (S (pos l)) l else l)
  = set_pos (pos l + String.length t) l
  /\ suffix (if byte_is l f then set_pos (S (pos l)) l else l) = k.
Proof.
  intros H [[-> Hk]|(c & -> & Hc)].
  - rewrite append_nil_l in H. rewrite (byte_is_stop _ _ _ H Hk). cbn.
    by rewrite Nat.add_0_r, set_pos_same.
  - rewrite append_cons, append_nil_l in H. rewrite (byte_is_head _ _ _ _ H), Hc.
    destruct (suffix_cons _ _ _ H) as (_ & _ & Hs). cbn.
    by rewrite Nat.add_1_r.
Qed.

Ltac set_pos_eq :=
  unfold set_pos; cbn [input pos start tokens String.length]; f_equal; lia.

Lemma scanNumber_view l x k :
  suffix l = number_text x k -> number_ok x = true -> stops k = true ->
  scanNumber l
  = push_token (tok TokenNumber (number_text x ""))
      (set_pos (pos l + String.length (number_text x "")) l)
  /\ suffix (scanNumber l) = k.
Proof.
  intros H Hok Hk. destruct x as [neg int frac ex]. unfold number_ok in Hok.
  cbn [n_neg n_int n_frac n_exp] in Hok. unfold number_text in *.
  cbn [n_neg n_int n_frac n_exp] in *. split_andb.
  destruct (digits_ok_head int) as (d & int' & Hint & Hd & Hds); [done|].
  assert (head_not isDigit k = true) as Hkd.
  { revert Hk. apply head_not_weaken. intros c Hc. unfold isAlphaNumeric.
    rewrite Hc. by rewrite orb_true_r. }
  assert (head_not (fun c => byte_eqb c ".") k = true) as Hkp.
  { revert Hk. apply head_not_weaken. intros c Hc. by rewrite Hc, orb_true_r. }
  assert (head_not (fun c => byte_eqb c "e" || byte_eqb c "E") k = true) as Hke.
  { revert Hk. apply head_not_weaken. intros c Hc.
    apply orb_true_iff in Hc as [Hc|Hc]; apply byte_eqb_true in Hc; by subst. }
  set (t1 := if neg then "-" else "") in *.
  set (t3 := match frac with Some f => String "." f | None => "" end) in *.
  set (t4 := match ex with
             | Some e => String (x_mark e) (x_sign e +:+ x_digits e)
             | None => ""
             end) in *.
  (* the sign *)
  destruct (scan_optional l (fun c => byte_eqb c "-") t1
              (int +:+ t3 +:+ t4 +:+ k) H) as (E1 & S1).
  { subst t1. destruct neg; [right; by exists "-"%char|left].
    split; [done|]. rewrite Hint, append_cons. cbn.
    apply isDigit_cases in Hd. cbn [In] in Hd.
    repeat (destruct Hd as [<-|Hd]; [done|]). done. }
  unfold scanNumber. rewrite E1 in S1 |- *. clear E1.
  set (l1 := set_pos (pos l + String.length t1) l) in *.
  (* the integer part *)
  assert (head_not isDigit (t3 +:+ t4 +:+ k) = true) as Hh3.
  { subst t3 t4. destruct frac as [f|]; [done|]. rewrite append_nil_l.
    destruct ex as [e|]; [|by rewrite append_nil_l].
    rewrite append_cons. cbn. split_andb.
    match goal with H : byte_eqb (x_mark e) _ || _ = true |- _ =>
      apply orb_true_iff in H as [H|H]; apply byte_eqb_true in H; by rewrite H
    end. }
  destruct (scan_while_view isDigit l1 int (t3 +:+ t4 +:+ k) S1 Hds Hh3)
    as (E2 & S2).
  set (l2 := set_pos (pos l + String.length t1 + String.length int) l).
  assert (set_pos (pos l1 + String.length int) l1 = l2) as E2'
    by (subst l1 l2; set_pos_eq).
  rewrite E2, E2' in S2 |- *. clear E2 E2'.
  (* the fraction *)
  assert (exists l3,
            (if byte_is l2 (fun c => byte_eqb c ".")
             then scan_while isDigit (set_pos (S (pos l2)) l2) else l2) = l3
            /\ l3 = set_pos (pos l2 + String.length t3) l
            /\ suffix l3 = t4 +:+ k) as (l3 & E3 & D3 & S3).
  { eexists. split; [reflexivity|]. subst t3. destruct frac as [f|].
    - rewrite append_cons in S2. rewrite (byte_is_head _ _ _ _ S2).
      change (byte_eqb "." ".") with true. cbn iota.
      destruct (suffix_cons _ _ _ S2) as (_ & _ & S2').
      assert (head_not isDigit (t4 +:+ k) = true) as Hh4.
      { subst t4. destruct ex as [e|]; [|by rewrite append_nil_l].
        rewrite append_cons. cbn. split_andb.
        match goal with H : byte_eqb (x_mark e) _ || _ = true |- _ =>
          apply orb_true_iff in H as [H|H]; apply byte_eqb_true in H;
            by rewrite H
        end. }
      destruct (scan_while_view isDigit _ f (t4 +:+ k) S2') as (E & S);
        [done|done|].
      rewrite E in *. split; [|done]. subst l2. set_pos_eq.
    - rewrite append_nil_l in S2.
      assert (head_not (fun c => byte_eqb c ".") (t4 +:+ k) = true) as Hh4.
      { subst t4. destruct ex as [e|]; [|by rewrite append_nil_l].
        rewrite append_cons. cbn. split_andb.
        match goal with H : byte_eqb (x_mark e) _ || _ = true |- _ =>
          apply orb_true_iff in H as [H|H]; apply byte_eqb_true in H;
            by rewrite H
        end. }
      rewrite (byte_is_stop _ _ _ S2 Hh4). split; [|done]. subst l2. cbn.
      f_equal. lia. }
  rewrite E3. clear E3.
  (* the exponent *)
  assert (exists l4,
            (if byte_is l3 (fun c => byte_eqb c "e" || byte_eqb c "E") then
               scan_while isDigit
                 (if byte_is (set_pos (S (pos l3)) l3)
                      (fun c => byte_eqb c "+" || byte_eqb c "-")
                  then set_pos (S (pos (set_pos (S (pos l3)) l3)))
                         (set_pos (S (pos l3)) l3)
                  else set_pos (S (pos l3)) l3)
             else l3) = l4
            /\ l4 = set_pos (pos l3 + String.length t4) l
            /\ suffix l4 = k) as (l4 & E4 & D4 & S4).
  { eexists. split; [reflexivity|]. subst t4. destruct ex as [e|].
    - rewrite append_cons in S3. rewrite (byte_is_head _ _ _ _ S3).
      split_andb.
      match goal with H : byte_eqb (x_mark e) _ || _ = true |- _ =>
        rewrite H end.
      destruct (suffix_cons _ _ _ S3) as (_ & _ & S3').
      rewrite append_assoc in S3'.
      destruct (digits_ok_head (x_digits e)) as (d' & ed' & Hed & Hd' & Hds');
        [done|].
      destruct (scan_optional (set_pos (S (pos l3)) l3)
                  (fun c => byte_eqb c "+" || byte_eqb c "-") (x_sign e)
                  (x_digits e +:+ k) S3') as (E5 & S5).
      { match goal with H : String.eqb (x_sign e) _ || _ || _ = true |- _ =>
          apply orb_true_iff in H as [H|H];
            [apply orb_true_iff in H as [H|H]|]; apply String.eqb_eq in H
        end.
        - left. split; [done|]. rewrite Hed, append_cons. cbn.
          apply isDigit_cases in Hd'. cbn [In] in Hd'.
          repeat (destruct Hd' as [<-|Hd']; [done|]). done.
        - right. by exists "+"%char.
        - right. by exists "-"%char. }
      rewrite E5 in *. clear E5.
      destruct (scan_while_view isDigit _ (x_digits e) k S5) as (E & S);
        [done|done|].
      rewrite E in *. split; [|done]. rewrite D3. cbn [String.length]. rewrite length_append. set_pos_eq.
    - rewrite append_nil_l in S3. rewrite (byte_is_stop _ _ _ S3 Hke).
      split; [|done]. rewrite D3. set_pos_eq. }
  rewrite E4. clear E4. subst l4 l3 l2. cbn [pos set_pos input] in *.
  assert (String.length (t1 +:+ int +:+ t3 +:+ t4 +:+ "")
          = String.length t1 + String.length int + String.length t3
            + String.length t4) as Hlen.
  { rewrite !length_append. cbn. lia. }
  rewrite Hlen.
  assert (string_drop (pos l) (input l)
          = (t1 +:+ int +:+ t3 +:+ t4 +:+ "") +:+ k) as Hwhole.
  { rewrite !append_assoc. by rewrite append_nil_l. }
  pose proof (slice_app _ _ _ _ Hwhole) as Hsl. rewrite Hlen in Hsl.
  replace (pos l + String.length t1 + String.length int + String.length t3
           + String.length t4)
    with (pos l + (String.length t1 + String.length int + String.length t3
           + String.length t4)) by lia.
  rewrite Hsl. split; [done|]. unfold suffix in S4 |- *.
  cbn [pos input set_pos push_token] in S4 |- *. rewrite <- S4. f_equal. lia.
Qed.

Lemma suffix_set_start n l : suffix (set_start n l) = suffix l.
Proof. done. Qed.

Lemma lex_number l x k :
  suffix l = number_text x k -> number_ok x = true -> stops k = true ->
  lexer_reaches l (lexer_step l)
  /\ tokens (lexer_step l) = tokens l ++ [tok TokenNumber (number_text x "")]
  /\ suffix (lexer_step l) = k.
Proof.
  intros H Hok Hk.
  assert (exists c k', suffix l = String c k'
                       /\ (isDigit c = true \/ c = "-"%char)) as (c & k' & Hc & Hcc).
  { rewrite H. unfold number_text. destruct (n_neg x).
    - rewrite append_cons. eauto.
    - rewrite append_nil_l. unfold number_ok in Hok. split_andb.
      destruct (digits_ok_head (n_int x)) as (d & s' & -> & Hd & _); [done|].
      rewrite append_cons. eauto. }
  destruct (lexer_step_at _ _ _ Hc) as (Hlt & -> & Hb & _).
  split; [by apply lexer_reaches_one|].
  assert (scanToken (set_start (pos l) l) = scanNumber (set_start (pos l) l))
    as ->.
  { destruct Hcc as [Hd| ->]; [by apply (scanToken_digit _ c)|].
    by rewrite (scanToken_at _ _ Hb). }
  destruct (scanNumber_view (set_start (pos l) l) x k) as (E & S);
    [done|done|done|].
  split; [|done]. by rewrite E.
Qed.

Lemma lex_literal l w ty k :
  suffix l = w +:+ k -> literal w ty -> stops k = true ->
  lexer_reaches l (lexer_step l)
  /\ tokens (lexer_step l) = tokens l ++ [tok ty w]
  /\ suffix (lexer_step l) = k.
Proof.
  intros H Hw Hk.
  assert (head_not isAlphaNumeric k = true) as Hka.
  { revert Hk. apply head_not_weaken. intros c Hc. by rewrite Hc. }
  assert (exists c w', w = String c w' /\ isAlpha c = true
                       /\ isDigit c = false /\ byte_eqb c "-" = false
                       /\ is_ws_byte c = false /\ string_forall isAlphaNumeric w = true
                       /\ scanToken (set_start (pos l) l)
                           = scanIdentifier (set_start (pos l) l))
    as (c & w' & Hc & _ & _ & _ & _ & Hrun & Hscan).
  { destruct Hw as [[-> ->]|[[-> ->]|[-> ->]]]; do 2 eexists;
      (split; [reflexivity|]); repeat (split; [reflexivity|]);
      rewrite append_cons in H; destruct (lexer_step_at _ _ _ H) as (_ & _ & Hb & _);
      by rewrite (scanToken_at _ _ Hb). }
  assert (suffix l = String c (w' +:+ k)) as Hh by (by rewrite H, Hc).
  destruct (lexer_step_at _ _ _ Hh) as (Hlt & -> & Hb & _).
  split; [by apply lexer_reaches_one|]. rewrite Hscan. unfold scanIdentifier.
  destruct (scan_while_view isAlphaNumeric (set_start (pos l) l) w k)
    as (E & S); [done|done|done|].
  rewrite E in *. cbn [pos input set_pos set_start] in *.
  rewrite (slice_app _ _ _ _ H).
  destruct Hw as [[-> ->]|[[-> ->]|[-> ->]]]; cbn; done.
Qed.

Lemma stops_ws w k : is_ws w = true -> stops k = true -> stops (w +:+ k) = true.
Proof.
  intros Hw Hk. destruct w as [|c w]; [done|]. rewrite append_cons. cbn in Hw.
  apply andb_true_iff in Hw as [Hc _]. apply is_ws_byte_cases in Hc.
  cbn [In] in Hc. repeat (destruct Hc as [<-|Hc]; [done|]). done.
Qed.

Lemma stops_tail_text {A : Type} (f : A -> string -> string) (close : ascii)
    (xs : list A) k :
  stops (String close k) = true -> stops (tail_text f close xs k) = true.
Proof. intros H. by destruct xs. Qed.

Lemma lexes_elem (e : elem_of doc) :
  elem_ok doc_ok e = true ->
  lexes render tokens_of (e_val e) ->
  lexes (elem_text render) (fun e => tokens_of (e_val e)) e.
Proof.
  intros Hok IH l k H Hk. unfold elem_ok in Hok. split_andb.
  unfold elem_text in H.
  destruct (lex_ws _ _ _ H) as (l1 & R1 & T1 & S1); [done|].
  destruct (IH l1 (e_trail e +:+ k) S1) as (l2 & R2 & S2 & T2);
    [by apply stops_ws|].
  destruct (lex_ws _ _ _ S2) as (l3 & R3 & T3 & S3); [done|].
  exists l3. split; [eauto using lexer_reaches_trans|]. split; [done|].
  intros T. by rewrite T3, T2, T1.
Qed.

Lemma lexes_member (m : member_of doc) :
  member_ok doc_ok m = true ->
  lexes render tokens_of (e_val (m_elem m)) ->
  lexes (member_text render) (member_tokens tokens_of) m.
Proof.
  intros Hok IH l k H Hk. unfold member_ok in Hok. split_andb.
  unfold member_text in H.
  destruct (lex_ws _ _ _ H) as (l1 & R1 & T1 & S1); [done|].
  destruct (lex_string _ _ _ S1) as (R2 & T2 & S2).
  { done. }
  destruct (lex_ws _ _ _ S2) as (l3 & R3 & T3 & S3); [done|].
  destruct (lex_punct _ _ TokenColon _ S3) as (R4 & T4 & S4);
    [unfold punct; tauto|].
  destruct (lexes_elem (m_elem m)) with (l := lexer_step l3) (k := k)
    as (l5 & R5 & S5 & T5); [done|done|done|done|].
  exists l5. split; [eauto 6 using lexer_reaches_trans|]. split; [done|].
  intros T. rewrite T5, T4, T3, T2, T1. unfold member_tokens.
  by rewrite <- !app_assoc.
Qed.

Lemma lexes_tail {A : Type} (text : A -> string -> string)
    (toks : A -> list Token -> list Token) (close : ascii) (ty : TokenType)
    (xs : list A) :
  punct close ty ->
  Forall (lexes text toks) xs ->
  forall l k,
  suffix l = tail_text text close xs k ->
  exists l', lexer_reaches l l' /\ suffix l' = k
             /\ forall T, tokens l' ++ T
                          = tokens l ++ tail_tokens toks
                                          (tok ty (string_of_byte close)) xs T.
Proof.
  intros Hc. induction 1 as [|x xs Hx _ IH]; intros l k H.
  - cbn in H. destruct (lex_punct _ _ ty _ H) as (R1 & T1 & S1); [done|].
    exists (lexer_step l). split; [done|]. split; [done|].
    intros T. rewrite T1. by rewrite <- app_assoc.
  - cbn [tail_text fold_right] in H.
    fold (tail_text text close xs k) in H.
    destruct (lex_punct _ _ TokenComma _ H) as (R1 & T1 & S1);
      [unfold punct; tauto|].
    destruct (Hx _ _ S1) as (l2 & R2 & S2 & T2).
    { apply stops_tail_text.
      destruct Hc as [[-> _]|[[-> _]|[[-> _]|[[-> _]|[[-> _]|[-> _]]]]]];
        done. }
    destruct (IH _ _ S2) as (l3 & R3 & S3 & T3).
    exists l3. split; [eauto using lexer_reaches_trans|]. split; [done|].
    intros T. rewrite T3, T2, T1. cbn [tail_tokens fold_right].
    by rewrite <- app_assoc.
Qed.

Lemma lexes_seq {A : Type} (text : A -> string -> string)
    (toks : A -> list Token -> list Token) (close : ascii) (ty : TokenType)
    (w : string) (xs : list A) :
  punct close ty -> is_ws w = true ->
  Forall (lexes text toks) xs ->
  forall l k,
  suffix l = seq_text text close w xs k ->
  exists l', lexer_reaches l l' /\ suffix l' = k
             /\ forall T, tokens l' ++ T
                          = tokens l ++ seq_tokens toks
                                          (tok ty (string_of_byte close)) xs T.
Proof.
  intros Hc Hw Hxs l k H. destruct xs as [|x xs]; cbn [seq_text seq_tokens] in *.
  - destruct (lex_ws _ _ _ H) as (l1 & R1 & T1 & S1); [done|].
    destruct (lex_punct _ _ ty _ S1) as (R2 & T2 & S2); [done|].
    exists (lexer_step l1). split; [eauto using lexer_reaches_trans|].
    split; [done|]. intros T. rewrite T2, T1. by rewrite <- app_assoc.
  - inversion Hxs as [|? ? Hx Hxs']; subst.
    destruct (Hx _ _ H) as (l2 & R2 & S2 & T2).
    { apply stops_tail_text.
      destruct Hc as [[-> _]|[[-> _]|[[-> _]|[[-> _]|[[-> _]|[-> _]]]]]];
        done. }
    destruct (lexes_tail text toks close ty xs Hc Hxs' _ _ S2)
      as (l3 & R3 & S3 & T3).
    exists l3. split; [eauto using lexer_reaches_trans|]. split; [done|].
    intros T. by rewrite T3, T2.
Qed.

Lemma doc_lexes (d : doc) : doc_ok d = true -> lexes render tokens_of d.
Proof.
  induction d as [d IH] using doc_size_ind. intros Hok l k H Hk.
  destruct d as [|b|x|s|w items|w members]; cbn [render tokens_of] in *.
  - destruct (lex_literal _ _ TokenNull _ H) as (R & T & S);
      [unfold literal; tauto|done|].
    exists (lexer_step l). split; [done|]. split; [done|].
    intros T'. rewrite T. by rewrite <- app_assoc.
  - destruct b.
    + destruct (lex_literal _ _ TokenTrue _ H) as (R & T & S);
        [unfold literal; tauto|done|].
      exists (lexer_step l). split; [done|]. split; [done|].
      intros T'. rewrite T. by rewrite <- app_assoc.
    + destruct (lex_literal _ _ TokenFalse _ H) as (R & T & S);
        [unfold literal; tauto|done|].
      exists (lexer_step l). split; [done|]. split; [done|].
      intros T'. rewrite T. by rewrite <- app_assoc.
  - destruct (lex_number _ _ _ H) as (R & T & S); [done|done|].
    exists (lexer_step l). split; [done|]. split; [done|].
    intros T'. rewrite T. by rewrite <- app_assoc.
  - destruct (lex_string _ _ _ H) as (R & T & S).
    { done. }
    exists (lexer_step l). split; [done|]. split; [done|].
    intros T'. rewrite T. by rewrite <- app_assoc.
  - cbn [doc_ok] in Hok. apply andb_true_iff in Hok as [Hw Hok].
    destruct (lex_punct _ _ TokenLeftBracket _ H) as (R1 & T1 & S1);
      [unfold punct; tauto|].
    destruct (lexes_seq (elem_text render) (fun e => tokens_of (e_val e))
                "]" TokenRightBracket w items) with (l := lexer_step l) (k := k)
      as (l2 & R2 & S2 & T2); [unfold punct; tauto|done| |done|].
    { apply Forall_forall. intros e He.
      pose proof (forallb_elem _ _ _ Hok He) as Hoke.
      apply lexes_elem; [done|]. apply IH; [by apply size_item|].
      unfold elem_ok in Hoke. by split_andb. }
    exists l2. split; [eauto using lexer_reaches_trans|]. split; [done|].
    intros T. rewrite T2, T1. by rewrite <- app_assoc.
  - cbn [doc_ok] in Hok. apply andb_true_iff in Hok as [Hw Hok].
    destruct (lex_punct _ _ TokenLeftBrace _ H) as (R1 & T1 & S1);
      [unfold punct; tauto|].
    destruct (lexes_seq (member_text render) (member_tokens tokens_of)
                "}" TokenRightBrace w members) with (l := lexer_step l) (k := k)
      as (l2 & R2 & S2 & T2); [unfold punct; tauto|done| |done|].
    { apply Forall_forall. intros m Hm.
      pose proof (forallb_elem _ _ _ Hok Hm) as Hokm.
      apply lexes_member; [done|]. apply IH; [by apply size_member|].
      unfold member_ok, elem_ok in Hokm. by split_andb. }
    exists l2. split; [eauto using lexer_reaches_trans|]. split; [done|].
    intros T. rewrite T2, T1. by rewrite <- app_assoc.
Qed.

Lemma Tokenize_at_end l :
  suffix l = "" -> Tokenize l = tokens l ++ [tok TokenEOF ""].
Proof.
  intros H. unfold Tokenize. rewrite tokenize_loop_done; [done|].
  unfold suffix in H. pose proof (string_drop_length (pos l) (input l)) as Hl.
  rewrite H in Hl. cbn in Hl. lia.
Qed.

Lemma is_ws_stops w : is_ws w = true -> stops w = true.
Proof. intros H. rewrite <- (append_nil_r w). by apply stops_ws. Qed.

(** The tokens of a document between white space. *)
Lemma Tokenize_render (d : doc) (lead trail : string) :
  doc_ok d = true -> is_ws lead = true -> is_ws trail = true ->
  Tokenize (NewLexer (lead +:+ render d trail))
  = tokens_of d [tok TokenEOF ""].
Proof.
  intros Hok Hl Ht.
  set (l := NewLexer (lead +:+ render d trail)).
  assert (suffix l = lead +:+ render d trail) as H by done.
  destruct (lex_ws _ _ _ H Hl) as (l1 & R1 & T1 & S1).
  destruct (doc_lexes d Hok l1 trail S1) as (l2 & R2 & S2 & T2);
    [by apply is_ws_stops|].
  rewrite <- (append_nil_r trail) in S2.
  destruct (lex_ws _ _ _ S2 Ht) as (l3 & R3 & T3 & S3).
  rewrite (Tokenize_reaches l l3) by eauto using lexer_reaches_trans.
  rewrite (Tokenize_at_end _ S3), T3, T2, T1. done.
Qed.

Lemma rest_NewParser ts : rest (NewParser ts) = ts.
Proof. done. Qed.

(** The batch parser on the text of a document. *)
Lemma ParsePartialJSON_render_ok (d : doc) (lead trail : string) :
  doc_ok d = true -> is_ws lead = true -> is_ws trail = true ->
  ParsePartialJSON (lead +:+ render d trail) = Some (Ok (value_of d)).
Proof.
  intros Hok Hl Ht. unfold ParsePartialJSON.
  rewrite (Tokenize_render d lead trail Hok Hl Ht).
  pose proof (Parse_returns (NewParser (tokens_of d [tok TokenEOF ""]))) as Hret.
  unfold Parse in *.
  destruct (tokens_of_head d [tok TokenEOF ""]) as (ty & v & ts & Hh & _).
  rewrite Hh in *. cbn [NewParser ptokens length Nat.eqb] in *. rewrite <- Hh in *.
  destruct (doc_parses_to d Hok
              (depth_bound (NewParser (tokens_of d [tok TokenEOF ""])))
              (NewParser (tokens_of d [tok TokenEOF ""])) [tok TokenEOF ""])
    as (p' & Hp & _); [done| |by rewrite Hp].
  intros Hn. rewrite Hn in Hret. by destruct Hret.
Qed.

(* ---- the store does not depend on the flags ---- *)

Lemma tidy_idem s : tidy (tidy s) = tidy s.
Proof. done. Qed.

Lemma tidy_set_isEscaping v s : tidy (set_isEscaping v s) = tidy s.
Proof. done. Qed.



Lemma map_store_flags l key v s :
  buffer (map_store l key v s) = buffer s
  /\ isEscaping (map_store l key v s) = isEscaping s
  /\ inString (map_store l key v s) = inString s
  /\ expectingKey (map_store l key v s) = expectingKey s
  /\ expectColon (map_store l key v s) = expectColon s
  /\ keys (map_store l key v s) = keys s
  /\ next (map_store l key v s) = next s
  /\ output (map_store l key v s) = output s.
Proof. unfold map_store. by repeat case_match. Qed.

Lemma addValue_flags v s :
  buffer (addValue v s) = buffer s
  /\ isEscaping (addValue v s) = isEscaping s
  /\ inString (addValue v s) = inString s
  /\ expectingKey (addValue v s) = expectingKey s
  /\ expectColon (addValue v s) = expectColon s
  /\ keys (addValue v s) = keys s
  /\ next (addValue v s) = next s.
Proof.
  unfold addValue.
  repeat case_match; try done; cbn;
    repeat match goal with
    | |- context [map_store ?l ?k ?v ?s] =>
        destruct (map_store_flags l k v s) as (-> & -> & -> & -> & -> & -> & -> & _)
    end; done.
Qed.

Lemma addValue_idle v s : idle s -> idle (addValue v s).
Proof.
  unfold idle. destruct (addValue_flags v s) as (-> & -> & -> & -> & -> & _).
  done.
Qed.




Lemma fold_left_ext_in {A B : Type} (f g : A -> B -> A) (l : list B) :
  (forall x a, x ∈ l -> f a x = g a x) ->
  forall a, fold_left f l a = fold_left g l a.
Proof.
  induction l as [|x l IH]; intros H a; [done|]. cbn.
  rewrite H by left. apply IH. intros y b Hy. apply H. by right.
Qed.




(* ---- the stack over a value ---- *)








(* ---- the streaming parser, one character at a time ---- *)


Lemma ProcessString_cons c k s s' :
  ProcessChar (string_of_byte c) s = (s', None) ->
  ProcessString (String c k) s = ProcessString k s'.
Proof. intros H. cbn [ProcessString]. by rewrite H. Qed.

Lemma closer_seqb c :
  seqb (string_of_byte c) "," || seqb (string_of_byte c) "}"
  || seqb (string_of_byte c) "]" = is_closer c.
Proof.
  unfold seqb, string_of_byte, is_closer, byte_eqb. cbn [String.eqb].
  by destruct (Ascii.eqb c ","), (Ascii.eqb c "}"), (Ascii.eqb c "]").
Qed.

Lemma flush_number_inString c s : inString (flush_number c s) = inString s.
Proof.
  unfold flush_number. repeat case_match; try done. cbn.
  by destruct (addValue_flags a s) as (_ & _ & -> & _).
Qed.

Lemma flush_not_closer c s :
  is_closer c = false -> flush_number (string_of_byte c) s = s.
Proof. intros H. apply flush_number_other. by rewrite closer_seqb. Qed.

Lemma ProcessChar_other c s :
  inString s = false -> ProcessChar c s = process_other c (flush_number c s).
Proof. intros H. unfold ProcessChar. by rewrite flush_number_inString, H. Qed.



Lemma tidy_eq_inv a b :
  tidy a = tidy b ->
  output a = output b /\ heap a = heap b /\ next a = next b
  /\ stack a = stack b /\ keys a = keys b.
Proof. intros H. injection H as -> -> -> -> ->. done. Qed.

(* ---- strings ---- *)








(* ---- numbers ---- *)

Lemma num_byte_cases c :
  num_byte c = true ->
  In c ["0"; "1"; "2"; "3"; "4"; "5"; "6"; "7"; "8"; "9"; "-"; "."; "+"; "E"]%char.
Proof.
  destruct c as [[] [] [] [] [] [] [] []]; vm_compute; intros H;
    try discriminate; tauto.
Qed.

Lemma ProcessChar_num c s :
  num_byte c = true -> inString s = false ->
  ProcessChar (string_of_byte c) s
  = (set_lastChar (string_of_byte c)
       (set_buffer (buffer s +:+ string_of_byte c) s), None).
Proof.
  intros Hc Hs. rewrite ProcessChar_other by done.
  apply num_byte_cases in Hc. cbn [In] in Hc.
  repeat (destruct Hc as [<-|Hc]; [by rewrite flush_not_closer|]). done.
Qed.

Lemma ProcessString_num t :
  string_forall num_byte t = true ->
  forall s, inString s = false ->
  exists s1, (forall k, ProcessString (t +:+ k) s = ProcessString k s1)
             /\ flags s1 = (buffer s +:+ t, isEscaping s, false,
                             expectingKey s, expectColon s)
             /\ tidy s1 = tidy s.
Proof.
  induction t as [|c t IH]; intros Ht s Hs.
  - exists s. split; [done|]. split; [|done]. unfold flags.
    by rewrite append_nil_r, Hs.
  - cbn in Ht. apply andb_true_iff in Ht as [Hc Ht].
    pose proof (ProcessChar_num c s Hc Hs) as Hstep.
    destruct (IH Ht (set_lastChar (string_of_byte c)
                       (set_buffer (buffer s +:+ string_of_byte c) s)))
      as (s1 & H1 & H2 & H3); [done|].
    exists s1. split; [|split; [|done]].
    + intros k. rewrite append_cons.
      rewrite (ProcessString_cons _ _ _ _ Hstep). apply H1.
    + rewrite H2. cbn [buffer expectingKey expectColon isEscaping set_lastChar
                        set_buffer].
      by rewrite append_assoc.
Qed.

Lemma string_forall_app p a b :
  string_forall p (a +:+ b) = string_forall p a && string_forall p b.
Proof.
  induction a as [|c a IH]; [done|]. rewrite append_cons. cbn.
  by rewrite IH, andb_assoc.
Qed.

Lemma string_forall_weaken (p q : ascii -> bool) t :
  (forall c, p c = true -> q c = true) ->
  string_forall p t = true -> string_forall q t = true.
Proof.
  intros Hpq. induction t as [|c t IH]; [done|]. cbn.
  intros [Hc Ht]%andb_true_iff. by rewrite (Hpq c Hc), IH.
Qed.

Lemma digits_num_bytes t :
  string_forall isDigit t = true -> string_forall num_byte t = true.
Proof.
  apply string_forall_weaken. intros c Hc. unfold num_byte. by rewrite Hc.
Qed.


Lemma number_text_num_bytes x :
  number_ok x = true -> number_stream_ok x = true ->
  string_forall num_byte (number_text x "") = true.
Proof.
  unfold number_ok, number_stream_ok, number_text, digits_ok.
  destruct x as [neg int frac ex]. cbn [n_neg n_int n_frac n_exp].
  intros H Hs. split_andb. rewrite !string_forall_app.
  repeat (apply andb_true_iff; split); try done.
  - by destruct neg.
  - by apply digits_num_bytes.
  - destruct frac as [f|]; [|done]. cbn. by apply digits_num_bytes.
  - destruct ex as [e|]; [|done]. split_andb. cbn.
    apply byte_eqb_true in Hs. rewrite Hs. cbn [string_forall].
    apply andb_true_iff. split; [done|].
    rewrite string_forall_app. apply andb_true_iff.
    split; [|by apply digits_num_bytes].
    match goal with H : String.eqb (x_sign e) _ || _ || _ = true |- _ =>
      apply orb_true_iff in H as [H|H];
        [apply orb_true_iff in H as [H|H]|]; apply String.eqb_eq in H;
        by rewrite H
    end.
Qed.

Lemma number_text_not_empty x :
  number_ok x = true -> String.eqb (number_text x "") "" = false.
Proof.
  unfold number_ok, number_text. intros H. split_andb.
  destruct (digits_ok_head (n_int x)) as (d & t & -> & _); [done|].
  by destruct (n_neg x).
Qed.


(* ---- literals ---- *)












(* ---- brackets, colons and commas ---- *)








(* ---- sessions that differ by the last character only ---- *)


Lemma same_trans a b c : same a b -> same b c -> same a c.
Proof. intros [H1 H2] [H3 H4]. split; congruence. Qed.











(* ---- the flags over the operations on the store ---- *)



Lemma at_root_push s st x :
  stack s = st ++ [x] -> st <> [] -> at_root s = false.
Proof.
  intros E H. unfold at_root. rewrite E, length_app. cbn [length].
  destruct st; [done|]. cbn [length].
  replace (S (length st) + 1 =? 1) with false; [done|].
  symmetry. apply Nat.eqb_neq. lia.
Qed.


(* ---- values in a container ---- *)





















(* ===================================================================== *)
(* ---- what the store holds ---- *)






Lemma agree_sym lo hi s s' : agree lo hi s s' -> agree lo hi s' s.
Proof. intros H j Hj. by rewrite H. Qed.

Lemma agree_trans lo hi s1 s2 s3 :
  agree lo hi s1 s2 -> agree lo hi s2 s3 -> agree lo hi s1 s3.
Proof. intros H1 H2 j Hj. by rewrite H1, H2. Qed.

Lemma agree_weaken lo hi lo' hi' s s' :
  lo <= lo' -> hi' <= hi -> agree lo hi s s' -> agree lo' hi' s s'.
Proof. intros H1 H2 H j Hj. apply H. lia. Qed.



(* ---- a commit into the current container ---- *)

Lemma addValue_root v s :
  last (stack s) = Some AMapPtr ->
  addValue v s = match last (keys s) with
                 | Some key => set_output (<[key := v]> (output s)) s
                 | None => s
                 end.
Proof. intros H. unfold addValue. by rewrite H. Qed.

Lemma addValue_map v s l :
  last (stack s) = Some (AMap l) ->
  addValue v s = match last (keys s) with
                 | Some key => map_store l key v s
                 | None => s
                 end.
Proof. intros H. unfold addValue. by rewrite H. Qed.

























(* ---- the tokens that the lexer makes ---- *)

Lemma addToken_tokens ty l :
  ty <> TokenEOF -> ty <> TokenError ->
  tokens (addToken ty l) = tokens l
  \/ exists t, tokens (addToken ty l) = tokens l ++ [t] /\ scanned_token t.
Proof.
  intros H1 H2. unfold addToken. case_match; [|by left].
  right. eexists. split; [reflexivity|done].
Qed.

Lemma scanString_tokens l :
  exists t, tokens (scanString l) = tokens l ++ [t] /\ scanned_token t.
Proof.
  unfold scanString. eexists. split; [by case_match|done].
Qed.

Lemma scanNumber_tokens l :
  exists t, tokens (scanNumber l) = tokens l ++ [t] /\ scanned_token t.
Proof.
  unfold scanNumber, scan_while. eexists. split.
  - cbn [tokens push_token]. f_equal. by repeat case_match.
  - done.
Qed.

Lemma scanIdentifier_tokens l :
  tokens (scanIdentifier l) = tokens l
  \/ exists t, tokens (scanIdentifier l) = tokens l ++ [t] /\ scanned_token t.
Proof.
  unfold scanIdentifier, scan_while.
  repeat case_match; first [by left | right; eexists; split; [reflexivity|done]].
Qed.

Lemma scanToken_tokens l :
  tokens (scanToken l) = tokens l
  \/ exists t, tokens (scanToken l) = tokens l ++ [t] /\ scanned_token t.
Proof.
  unfold scanToken.
  repeat case_match;
    first [ by left
          | by apply addToken_tokens
          | right; apply scanString_tokens
          | right; apply scanNumber_tokens
          | apply scanIdentifier_tokens ].
Qed.

Lemma tokenize_loop_tokens n :
  forall l, Forall scanned_token (tokens l) ->
  exists ts, tokens (tokenize_loop n l) = tokens l ++ ts
             /\ Forall scanned_token ts.
Proof.
  induction n as [|n IH]; intros l Hl; cbn [tokenize_loop].
  - exists []. by rewrite app_nil_r.
  - case_match; [|exists []; by rewrite app_nil_r].
    destruct (scanToken_tokens (set_start (pos l) l)) as [E|(t & E & Ht)].
    + destruct (IH (scanToken (set_start (pos l) l))) as (ts & H1 & H2);
        [by rewrite E|].
      exists ts. by rewrite H1, E.
    + destruct (IH (scanToken (set_start (pos l) l))) as (ts & H1 & H2).
      { rewrite E. apply Forall_app. split; [done|]. by apply Forall_singleton. }
      exists (t :: ts). split; [|by constructor].
      rewrite H1, E. cbn [tokens set_start]. by rewrite <- app_assoc.
Qed.

(** The tokens of [Tokenize]: those that the lexer has made, and the
    end-of-input token after them. *)
Lemma Tokenize_tokens l :
  Forall scanned_token (tokens l) ->
  exists ts, Tokenize l = tokens l ++ ts ++ [tok TokenEOF ""]
             /\ Forall scanned_token ts.
Proof.
  intros Hl. unfold Tokenize.
  destruct (tokenize_loop_tokens (String.length (input l) - pos l) l Hl)
    as (ts & H1 & H2).
  exists ts. split; [|done]. cbn [tokens push_token]. rewrite H1.
  by rewrite <- app_assoc.
Qed.

(* ---- a string with escapes ---- *)

Lemma skip_string_closed n :
  forall inp p b k,
  string_drop p inp = b +:+ String ch_quote k ->
  closed_body b = true -> String.length b < n ->
  skip_string n inp p = p + String.length b.
Proof.
  induction n as [|n IH]; intros inp p b k Hd Hb Hn; [lia|].
  cbn [skip_string]. destruct b as [|c b];
    rewrite ?append_cons, ?append_nil_l in Hd.
  - destruct (string_drop_cons _ _ _ _ Hd) as (-> & _ & _).
    change (byte_eqb ch_quote ch_quote) with true. cbn. lia.
  - destruct (string_drop_cons _ _ _ _ Hd) as (-> & Hd' & Hlt).
    cbn [closed_body] in Hb. destruct (byte_eqb c ch_quote); [done|].
    destruct (byte_eqb c ch_backslash).
    + destruct b as [|c2 b]; [done|]. rewrite append_cons in Hd'.
      destruct (string_drop_cons _ _ _ _ Hd') as (_ & Hd'' & Hlt').
      assert ((p + 1 <? String.length inp) = true) as ->
        by (apply Nat.ltb_lt; lia).
      cbn [andb String.length] in *.
      rewrite (IH inp (S (S p)) b k Hd'' Hb) by lia. lia.
    + cbn [andb String.length] in *.
      rewrite (IH inp (S p) b k Hd' Hb) by lia. lia.
Qed.

(** X2. [scanString] does not interpret escapes: on a string literal whose
    body [b] is closed by a quote (a quote after a backslash does not close
    it), one iteration of the lexer makes one string token whose value is
    the body as it is written, backslashes included, and goes on after the
    closing quote. *)
Theorem scanString_keeps_escapes l b k :
  suffix l = String ch_quote (b +:+ String ch_quote k) ->
  closed_body b = true ->
  lexer_reaches l (lexer_step l)
  /\ tokens (lexer_step l) = tokens l ++ [tok TokenString b]
  /\ suffix (lexer_step l) = k.
Proof.
  intros H Hs. destruct (lexer_step_at _ _ _ H) as (Hlt & -> & Hb & _).
  split; [by apply lexer_reaches_one|].
  rewrite (scanToken_quote _ Hb).
  destruct (suffix_cons _ _ _ H) as (_ & _ & Hk). unfold suffix in Hk.
  cbn [pos input set_pos] in Hk.
  unfold scanString. cbn [pos input set_pos set_start push_token tokens].
  assert (String.length (input l) - S (pos l)
          = String.length b + S (String.length k)) as Hlen.
  { rewrite <- string_drop_length, Hk, length_append. by cbn. }
  rewrite (skip_string_closed _ _ _ b k Hk Hs) by lia.
  rewrite (slice_app _ _ _ _ Hk).
  assert ((S (pos l) + String.length b <? String.length (input l)) = true)
    as -> by (apply Nat.ltb_lt; lia).
  cbn. split; [done|]. unfold suffix. cbn.
  apply string_drop_app in Hk.
  destruct (string_drop_cons _ _ _ _ Hk) as (_ & Hk' & _). exact Hk'.
Qed.

(* ---- a word that is no literal ---- *)

Lemma isAlpha_scanToken l c :
  byte_at l (pos l) = Some c -> isAlpha c = true ->
  scanToken l = scanIdentifier l.
Proof.
  intros H Hc. rewrite (scanToken_at l c H).
  destruct c as [[] [] [] [] [] [] [] []]; vm_compute in Hc;
    try discriminate; reflexivity.
Qed.

(** X3. A word (letters, digits and underscores after a letter or an
    underscore) that is not [true], [false] or [null] makes no token: the
    lexer goes past it and the token list is what it was. *)
Theorem unknown_word_is_skipped l c w k :
  suffix l = String c w +:+ k ->
  isAlpha c = true -> string_forall isAlphaNumeric w = true ->
  head_not isAlphaNumeric k = true -> keyword (String c w) = false ->
  lexer_reaches l (lexer_step l)
  /\ tokens (lexer_step l) = tokens l /\ suffix (lexer_step l) = k.
Proof.
  intros H Hc Hw Hk Hkw. pose proof H as H'. rewrite append_cons in H'.
  destruct (lexer_step_at _ _ _ H') as (Hlt & -> & Hb & _).
  split; [by apply lexer_reaches_one|].
  rewrite (isAlpha_scanToken _ c Hb Hc). unfold scanIdentifier.
  destruct (scan_while_view isAlphaNumeric (set_start (pos l) l)
              (String c w) k) as (E & S); [done| |done|].
  { cbn. unfold isAlphaNumeric at 1. by rewrite Hc, Hw. }
  rewrite E in *. cbn [pos input set_pos set_start] in *.
  rewrite (slice_app _ _ _ _ H).
  unfold keyword in Hkw. apply orb_false_iff in Hkw as [Hkw H3].
  apply orb_false_iff in Hkw as [H1 H2]. rewrite H1, H2, H3. done.
Qed.

(* ---- the batch parser: an array cut by the end of the input ---- *)

Lemma parseArrayLoop_error_not_exhausted n :
  forall arr p e p',
  parseArrayLoop n arr p = Some (Err e, p') -> isAtEnd p' = false.
Proof.
  induction n as [|n IH]; intros arr p e p' H; [done|].
  cbn [parseArrayLoop] in H.
  repeat case_match; simplify_eq;
    try match goal with
    | H : check ?q TokenEOF = false |- isAtEnd ?q = false =>
        by rewrite <- check_EOF
    end.
  by eapply IH.
Qed.

(* ---- the streaming parser: chunks ---- *)


(* ---- the streaming parser: inside a string ---- *)

Lemma ProcessChar_in_string c s :
  inString s = true -> snd (ProcessChar c s) = None.
Proof.
  intros H. unfold ProcessChar. rewrite flush_number_inString, H.
  unfold process_in_string, accept. by repeat case_match.
Qed.

Lemma ProcessChar_in_string_stays c s :
  inString s = true -> isEscaping s = true \/ c <> str_quote ->
  inString (fst (ProcessChar c s)) = true.
Proof.
  intros H Hc. unfold ProcessChar.
  pose proof (flush_number_inString c s) as Hf. rewrite H in Hf. rewrite Hf.
  unfold process_in_string, accept.
  destruct (isEscaping (flush_number c s)) eqn:He; [done|].
  destruct (seqb c str_backslash); [done|].
  destruct (seqb c str_quote) eqn:Hq; [|done].
  apply seqb_eq in Hq. destruct Hc as [Hc|Hc]; [|done].
  assert (isEscaping (flush_number c s) = isEscaping s) as E.
  { unfold flush_number. repeat case_match; try done. cbn.
    by destruct (addValue_flags a s) as (_ & -> & _). }
  congruence.
Qed.

(* ---- the streaming parser: a value under a key ---- *)

(** X10. [addValue] on a mapping (the root, or a map of the store) stores the
    value under the last key of the key stack: the entry of that key then
    reads as the value, and the other entries are what they were. *)
Theorem addValue_mapping_entry v s container key :
  last (stack s) = Some container -> last (keys s) = Some key ->
  container = AMapPtr
  \/ (exists l m, container = AMap l /\ heap s !! l = Some (MapCell m)) ->
  map_entry (addValue v s) container key = Some v
  /\ forall k', k' <> key ->
       map_entry (addValue v s) container k' = map_entry s container k'.
Proof.
  intros Hs Hk [->|(l & m & -> & Hh)].
  - rewrite (addValue_root _ _ Hs), Hk. cbn. split.
    + apply lookup_insert_eq.
    + intros k' Hne. by rewrite lookup_insert_ne.
  - rewrite (addValue_map _ _ _ Hs), Hk. unfold map_store. rewrite Hh. cbn.
    rewrite lookup_insert_eq, Hh. split.
    + apply lookup_insert_eq.
    + intros k' Hne. by rewrite lookup_insert_ne.
Qed.

(** X11. With no key on the key stack, [addValue] on a mapping drops the
    value: the session is unchanged. *)
Theorem addValue_without_key v s :
  in_map s = true -> keys s = [] -> addValue v s = s.
Proof.
  unfold in_map. intros Hm Hk.
  destruct (last (stack s)) as [[]|] eqn:Hl; try done.
  - by rewrite (addValue_root _ _ Hl), Hk.
  - by rewrite (addValue_map _ _ _ Hl), Hk.
Qed.

(* ---- the streaming parser: a number waits for what follows it ---- *)

(** X9. A number is committed by the comma or closing byte that follows it,
    not before: after the text of a number the output mapping and the
    containers are what they were and the buffer holds the text; the first
    statement of [ProcessChar] on a comma or a closing byte then commits the
    number (an integer if the text is one, else a float) and empties the
    buffer. *)
Theorem number_waits_for_closer x s :
  idle s -> number_ok x = true -> number_stream_ok x = true ->
  exists s1,
    ProcessString (number_text x "") s = (s1, None)
    /\ output s1 = output s /\ heap s1 = heap s
    /\ buffer s1 = number_text x ""
    /\ forall c, is_closer c = true ->
         flush_number (string_of_byte c) s1
         = set_buffer "" (addValue (number_any x) s1).
Proof.
  intros (Hb & He & Hi & Hk & Hc) Hok Hsok.
  destruct (ProcessString_num (number_text x "")) with (s := s)
    as (s1 & H1 & H2 & H3); [by apply number_text_num_bytes|done|].
  rewrite Hb, append_nil_l in H2.
  assert (buffer s1 = number_text x "") as Hb1
    by (unfold flags in H2; by injection H2).
  destruct (tidy_eq_inv _ _ H3) as (Ho & Hh & _).
  exists s1. split; [|split; [done|split; [done|split; [done|]]]].
  - specialize (H1 ""). rewrite append_nil_r in H1. by rewrite H1.
  - intros c Hcl. unfold flush_number.
    rewrite closer_seqb, Hcl, Hb1. unfold seqb.
    rewrite (number_text_not_empty x Hok). cbn [negb andb].
    unfold parseNumber, number_any. rewrite Hb1.
    unfold number_ok in Hok. split_andb.
    by destruct (parse_number (number_text x "")) as [[i|f]|e].
Qed.

(* ---- the batch parser: a text that is no object ---- *)

Lemma not_object_value d :
  (forall w members, d <> DObj w members) ->
  forall obj, value_of d <> JObject obj.
Proof.
  intros H obj. destruct d as [| | | | |w members]; try done.
  - cbn. unfold number_value.
    by destruct (parse_number (number_text x "")) as [[i|f]|e].
  - by specialize (H w members).
Qed.

(** X12. [ParsePartialJSONObject] on the text of a document that is not an
    object (a scalar or an array, between white space) returns the error
    input is not a JSON object. *)
Theorem ParsePartialJSONObject_rejects_non_object d lead trail :
  doc_ok d = true -> is_ws lead = true -> is_ws trail = true ->
  (forall w members, d <> DObj w members) ->
  ParsePartialJSONObject (lead +:+ render d trail)
  = Some (Err "input is not a JSON object").
Proof.
  intros Hok Hl Ht Hd. unfold ParsePartialJSONObject.
  rewrite (ParsePartialJSON_render_ok d lead trail Hok Hl Ht).
  pose proof (not_object_value d Hd) as Hv.
  destruct (value_of d) as [| | | | | |obj]; try done. by specialize (Hv obj).
Qed.

(* ===================================================================== *)
(** ** Properties of the lexer, the batch parser and the streaming parser *)
(* ===================================================================== *)

(** X1. [Tokenize] ends its result with the end-of-input token, and makes
    neither an end-of-input token nor an error token before it. *)
Theorem Tokenize_appends_EOF (input : string) :
  exists ts,
    Tokenize (NewLexer input) = ts ++ [tok TokenEOF ""]
    /\ Forall scanned_token ts.
Proof.
  destruct (Tokenize_tokens (NewLexer input)) as (ts & H1 & H2).
  - by cbn.
  - exists ts. by rewrite H1.
Qed.

(** X4. The batch pipeline on the text of a document, between white space:
    [Tokenize] gives the tokens of the document, and [ParsePartialJSON] the
    value that the document stands for. *)
Theorem batch_round_trip (d : doc) (lead trail : string) :
  doc_ok d = true -> is_ws lead = true -> is_ws trail = true ->
  Tokenize (NewLexer (lead +:+ render d trail)) = tokens_of d [tok TokenEOF ""]
  /\ ParsePartialJSON (lead +:+ render d trail) = Some (Ok (value_of d)).
Proof.
  intros Hok Hl Ht. split.
  - by apply Tokenize_render.
  - by apply ParsePartialJSON_render_ok.
Qed.

(** X5. [parseArray] reports an error only with a token still to read: when
    the input ends inside an array, the items read so far are returned. *)
Theorem parseArray_error_not_at_end n p e p' :
  parseArray n p = Some (Err e, p') -> isAtEnd p' = false.
Proof.
  destruct n as [|n]; [done|]. cbn [parseArray].
  case_match; [done|]. apply parseArrayLoop_error_not_exhausted.
Qed.

(** X6. [ParsePartialJSON] and [ParsePartialJSONObject] return, with a value
    or with an error, on every input: the calls of [parseValue],
    [parseObject] and [parseArray] never nest deeper than three per token
    and three more. *)
Theorem ParsePartialJSON_always_returns (input : string) :
  (exists r, ParsePartialJSON input = Some r)
  /\ (exists r, ParsePartialJSONObject input = Some r).
Proof.
  split.
  - destruct (ParsePartialJSON_returns input) as [r Hr]. by exists r.
  - destruct (ParsePartialJSONObject_returns input) as [r Hr]. by exists r.
Qed.

(** X8. Inside a string [ProcessChar] refuses no character, and the string
    stays open unless the character is a quote that no backslash precedes. *)
Theorem ProcessChar_in_string_accepts c s :
  inString s = true ->
  snd (ProcessChar c s) = None
  /\ (isEscaping s = true \/ c <> str_quote ->
      inString (fst (ProcessChar c s)) = true).
Proof.
  intros H. split.
  - by apply ProcessChar_in_string.
  - by apply ProcessChar_in_string_stays.
Qed.


End Properties.

(* ===================================================================== *)
(** ** The two pipelines on the texts of the specification *)
(* ===================================================================== *)
(** Both pipelines try the integer first: 30 is an integer, 3.14 a float, in
    the one and in the other; [1e3] is a float for the batch parser, and
    [1E3] for the streaming parser. *)
Lemma integer_first_examples :
  parse "{'n': 30}" = Some (Ok {[ "n" := JInt 30 ]})
  /\ snapshot 1 (fst (decode "{'n': 30}")) = {[ "n" := JInt 30 ]}
  /\ parse "{'n': 3.14}" = Some (Ok {[ "n" := JFloat f64_3_14 ]})
  /\ snapshot 1 (fst (decode "{'n': 3.14}")) = {[ "n" := JFloat f64_3_14 ]}
  /\ parse "{'n': 1e3}" = Some (Ok {[ "n" := JFloat f64_1000 ]})
  /\ snapshot 1 (fst (decode "{'n': 1E3}")) = {[ "n" := JFloat f64_1000 ]}.
Proof. repeat split; by vm_compute. Qed.

(** C4, where the code departs from it. The streaming parser does not
    accumulate [e] into the number buffer: outside a string it refuses [e]
    unless the buffer holds [tru] or [fals]. So it stops with an error on
    [{"n": 1e3}] and never commits the number, which the batch parser reads
    as the float 1000. *)
Theorem exponent_e_is_refused :
  (forall sp,
     inString sp = false -> buffer sp <> "tru" -> buffer sp <> "fals" ->
     @ProcessChar go_strconv "e" sp = (sp, Some "unexpected 'e'"))
  /\ snd (decode "{'n': 1e3}") = Some "unexpected 'e'"
  /\ buffer (fst (decode "{'n': 1e3}")) = "1"
  /\ snapshot 1 (fst (decode "{'n': 1e3}")) = ∅
  /\ parse "{'n': 1e3}" = Some (Ok {[ "n" := JFloat f64_1000 ]}).
Proof.
  split; [exact (@ProcessChar_e_refused go_strconv)|].
  repeat split; by vm_compute.
Qed.

Lemma exponent_e_is_refused_witness :
  let sp := fst (decode "{'n': 1") in
  inString sp = false /\ buffer sp <> "tru" /\ buffer sp <> "fals"
  /\ @ProcessChar go_strconv "e" sp = (sp, Some "unexpected 'e'").
Proof.
  cbn zeta.
  split; [reflexivity|]. split; [by vm_compute|]. split; [by vm_compute|].
  apply (proj1 exponent_e_is_refused); by vm_compute.
Defined.

(** C1, where the code departs from it. On the complete object
    [{"a":"1,2"}], which has no escape sequence, the batch parser gives the
    mapping of [a] to the text [1,2]; the streaming parser, which looks for a
    number to commit at every comma, also inside a string, commits 1, empties
    the buffer and ends with the mapping of [a] to the text [,2]. The same
    happens to a key, and inside an array the number stays as an element of
    its own. The refusal of the exponent [e] makes the pipelines differ on
    [{"n": 1e3}] as well. *)
Theorem pipelines_differ_on_comma_in_string :
  snd (decode "{'a':'1,2'}") = None
  /\ snapshot 2 (fst (decode "{'a':'1,2'}")) = {[ "a" := JString ",2" ]}
  /\ parse "{'a':'1,2'}" = Some (Ok {[ "a" := JString "1,2" ]})
  /\ Some (Ok (snapshot 2 (fst (decode "{'a':'1,2'}")))) <> parse "{'a':'1,2'}"
  /\ snapshot 2 (fst (decode "{'1,2':true}")) = {[ ",2" := JBool true ]}
  /\ parse "{'1,2':true}" = Some (Ok {[ "1,2" := JBool true ]})
  /\ snapshot 2 (fst (decode "{'a':['1,2']}"))
     = {[ "a" := JArray [JInt 1; JString ",2"] ]}
  /\ parse "{'a':['1,2']}" = Some (Ok {[ "a" := JArray [JString "1,2"] ]}).
Proof.
  repeat apply conj; by vm_compute.
Qed.

(** On the documents of the tests the two pipelines agree. *)
Lemma pipelines_agree_examples :
  Some (Ok (snapshot 3 (fst (decode "{'name':'John','age':30}"))))
  = parse "{'name':'John','age':30}"
  /\ Some (Ok (snapshot 3
       (fst (decode "{'person':{'name':'John','age':30},'active':true}"))))
     = parse "{'person':{'name':'John','age':30},'active':true}"
  /\ Some (Ok (snapshot 3
       (fst (decode "{'numbers':[1,2,3],'names':['John','Jane']}"))))
     = parse "{'numbers':[1,2,3],'names':['John','Jane']}"
  /\ Some (Ok (snapshot 3 (fst (decode
       "{'string':'hello','number':42,'float':3.14,'bool':true,'null':null}"))))
     = parse "{'string':'hello','number':42,'float':3.14,'bool':true,'null':null}".
Proof. repeat split; by vm_compute. Qed.

(** C3 as stated does not hold: the text of the specification whose last
    string, [key2], has its opening quote and no closing quote is given a
    string token for [key2]. *)
Lemma truncated_string_dropped_counterexample :
  ~ no_trailing_string (Tokenize (NewLexer (json "{'key1': true, 'key2"))).
Proof.
  intros Hno.
  apply (Hno [tok TokenLeftBrace "{"; tok TokenString "key1";
              tok TokenColon ":"; tok TokenTrue "true"; tok TokenComma ","]
             "key2").
  by vm_compute.
Qed.

Lemma truncated_string_is_a_token_witness :
  let inp := json "{'key1': true, 'key2" in
  let l := {| input := inp; pos := 15; start := 14;
              tokens := [tok TokenLeftBrace "{"; tok TokenString "key1";
                         tok TokenColon ":"; tok TokenTrue "true";
                         tok TokenComma ","] |} in
  lexer_run 7 (NewLexer inp) = Some l
  /\ byte_at l (pos l) = Some ch_quote
  /\ string_drop (S (pos l)) inp = "key2"
  /\ has_closing_quote "key2" = false
  /\ Tokenize (NewLexer inp)
     = tokens l ++ [tok TokenString "key2"; tok TokenEOF ""].
Proof.
  cbn zeta.
  assert (lexer_run 7 (NewLexer (json "{'key1': true, 'key2"))
          = Some {| input := json "{'key1': true, 'key2"; pos := 15;
                    start := 14;
                    tokens := [tok TokenLeftBrace "{"; tok TokenString "key1";
                               tok TokenColon ":"; tok TokenTrue "true";
                               tok TokenComma ","] |}) as Hrun
    by (vm_compute; reflexivity).
  split; [exact Hrun|].
  split; [vm_compute; reflexivity|].
  split; [vm_compute; reflexivity|].
  split; [vm_compute; reflexivity|].
  apply (truncated_string_is_a_token _ _ "key2" (lexer_run_reaches 7 _ _ Hrun));
    vm_compute; reflexivity.
Defined.

(** C5 as stated does not hold: from the text [{"s":"\n"}], where the string
    is a backslash and the letter n, the streaming parser commits the one
    character n, not the two characters. *)
Lemma escape_two_characters_counterexample :
  output (fst (decode "{'s':'\n'}")) !! "s" = Some (AString "n")
  /\ output (fst (decode "{'s':'\n'}")) !! "s" <> Some (AString "\n").
Proof. split; by vm_compute. Qed.

Lemma escape_keeps_escaped_char_only_witness :
  let sp := fst (decode "{'s':'a") in
  let r2 := @ProcessChar go_strconv "n"
              (fst (@ProcessChar go_strconv str_backslash sp)) in
  inString sp = true /\ isEscaping sp = false
  /\ @flushes go_strconv "n" sp = false
  /\ buffer sp = "a" /\ buffer (fst r2) = "an".
Proof.
  cbn zeta.
  split; [by vm_compute|]. split; [by vm_compute|]. split; [by vm_compute|].
  split; [by vm_compute|].
  apply (@escape_keeps_escaped_char_only go_strconv
           (fst (decode "{'s':'a")) "n"); by vm_compute.
Defined.

(** The document of the test of escapes ([stream_test.go]). *)
Lemma escape_test_example :
  let text := String.concat ""
    ["{'escaped':'hello"; str_backslash; str_backslash; "world";
     str_backslash; str_backslash; str_backslash; "'with quotes";
     str_backslash; str_backslash; str_backslash; "''}"] in
  snd (decode text) = None
  /\ output (fst (decode text)) !! "escaped"
     = Some (AString (String.concat ""
         ["hello"; str_backslash; "world"; str_backslash; str_quote;
          "with quotes"; str_backslash; str_quote])).
Proof. split; by vm_compute. Qed.

Lemma ProcessChar_error_keeps_state_witness :
  let sp := fst (decode "{'k'") in
  @ProcessChar go_strconv "x" sp = (sp, Some "unexpected character: x")
  /\ fst (@ProcessChar go_strconv "x" sp) = sp.
Proof.
  cbn zeta. split; [by vm_compute|].
  apply (@ProcessChar_error_keeps_state go_strconv "x" _ _
           "unexpected character: x").
  by vm_compute.
Defined.

Lemma sequence_entry_follows_growth_witness :
  let sp := fst (decode "{'k':") in
  let vs := AInt64 <$> [1; 2; 3; 4; 5; 6; 7; 8; 9]%Z in
  let sp' := addValues vs (fst (@ProcessChar go_strconv "[" sp)) in
  inString sp = false /\ last (stack sp) = Some AMapPtr
  /\ last (keys sp) = Some "k"
  /\ map_entry sp' AMapPtr "k" = Some (ASlicePtr 0)
  /\ heap sp' !! 0 = Some (SliceCell vs).
Proof.
  cbn zeta.
  split; [by vm_compute|]. split; [by vm_compute|]. split; [by vm_compute|].
  assert (heap_fresh (fst (decode "{'k':"))) as Hfresh
    by (intros j _; reflexivity).
  destruct (@sequence_entry_follows_growth go_strconv
              (fst (decode "{'k':")) AMapPtr "k"
              (AInt64 <$> [1; 2; 3; 4; 5; 6; 7; 8; 9]%Z)
              eq_refl Hfresh eq_refl (or_introl eq_refl) eq_refl)
    as (H1 & H2 & _).
  split; [exact H1|exact H2].
Defined.

(** The document of the test of arrays, and a longer array, read through the
    entry of the root mapping. *)
Lemma array_examples :
  snapshot 2 (fst (decode "{'numbers':[1,2,3],'names':['John','Jane']}"))
  = {[ "numbers" := JArray [JInt 1; JInt 2; JInt 3];
       "names" := JArray [JString "John"; JString "Jane"] ]}
  /\ snapshot 2 (fst (decode "{'a':[1,2,3,4,5,6,7,8,9,10,11,12,13,14,15,16,17]}"))
     = {[ "a" := JArray (JInt <$> [1; 2; 3; 4; 5; 6; 7; 8; 9; 10; 11; 12; 13;
                                   14; 15; 16; 17]%Z) ]}
  /\ output (fst (decode "{'a':[1,2,3]}")) !! "a" = Some (ASlicePtr 0).
Proof. repeat split; by vm_compute. Qed.

(** C10 as stated does not hold for the empty input: the error is not "no
    tokens to parse". *)
Lemma empty_input_no_tokens_counterexample :
  parse "" <> Some (Err "no tokens to parse")
  /\ parse "" = Some (Err "unexpected end of JSON").
Proof. split; by vm_compute. Qed.

Lemma ParsePartialJSONObject_errors_witness :
  @ParsePartialJSON go_strconv (json "[1, 2, 3]")
  = Some (Ok (JArray [JInt 1; JInt 2; JInt 3]))
  /\ @ParsePartialJSONObject go_strconv (json "[1, 2, 3]")
     = Some (Err "input is not a JSON object").
Proof.
  split; [by vm_compute|].
  apply (proj1 (@ParsePartialJSONObject_errors go_strconv)
           (json "[1, 2, 3]") (JArray [JInt 1; JInt 2; JInt 3])).
  - by vm_compute.
  - intros obj. discriminate.
Defined.

Lemma parseObject_end_of_input_witness :
  let p := NewParser (Tokenize (NewLexer "{:")) in
  let p' := {| ptokens := ptokens p; current := 1 |} in
  @parseObject go_strconv 5 p = Some (Err "expected string key in object", p')
  /\ isAtEnd p' = false.
Proof.
  cbn zeta. split; [by vm_compute|].
  apply (proj1 (@parseObject_end_of_input go_strconv) 5
           (NewParser (Tokenize (NewLexer "{:")))
           "expected string key in object").
  by vm_compute.
Defined.

(* ===================================================================== *)
(** ** Instances of the properties of the lexer and of the two parsers *)
(* ===================================================================== *)

Lemma scanString_keeps_escapes_witness :
  let body := "a" +:+ str_backslash +:+ str_quote +:+ "b" in
  let l := NewLexer (str_quote +:+ body +:+ str_quote +:+ ":1") in
  closed_body body = true
  /\ tokens (lexer_step l) = [tok TokenString body]
  /\ suffix (lexer_step l) = ":1".
Proof.
  cbn zeta. split; [by vm_compute|].
  destruct (scanString_keeps_escapes
              (NewLexer (str_quote +:+ ("a" +:+ str_backslash +:+ str_quote
                                       +:+ "b") +:+ str_quote +:+ ":1"))
              ("a" +:+ str_backslash +:+ str_quote +:+ "b") ":1")
    as (_ & H1 & H2); [by vm_compute|by vm_compute|].
  split; [exact H1|exact H2].
Defined.

Lemma unknown_word_is_skipped_witness :
  let l := push_token (tok TokenColon ":") (NewLexer "nul,") in
  keyword "nul" = false
  /\ tokens (lexer_step l) = tokens l /\ suffix (lexer_step l) = ",".
Proof.
  cbn zeta. split; [by vm_compute|].
  destruct (unknown_word_is_skipped
              (push_token (tok TokenColon ":") (NewLexer "nul,"))
              "n"%char "ul" ",")
    as (_ & H1 & H2); [by vm_compute..|].
  split; [exact H1|exact H2].
Defined.

Lemma batch_round_trip_witness :
  let text := " " +:+ render example_object "" in
  @doc_ok go_strconv example_object = true
  /\ Tokenize (NewLexer text) = tokens_of example_object [tok TokenEOF ""]
  /\ @ParsePartialJSON go_strconv text
     = Some (Ok (@value_of go_strconv example_object)).
Proof.
  cbn zeta. split; [by vm_compute|].
  apply (@batch_round_trip go_strconv example_object " " ""); by vm_compute.
Defined.

Lemma parseArray_error_not_at_end_witness :
  let p := NewParser (Tokenize (NewLexer "[1 2]")) in
  let p' := {| ptokens := ptokens p; current := 2 |} in
  @parseArray go_strconv 5 p
  = Some (Err "expected ',' or ']' after array value", p')
  /\ isAtEnd p' = false.
Proof.
  cbn zeta. split; [by vm_compute|].
  apply (@parseArray_error_not_at_end go_strconv 5
           (NewParser (Tokenize (NewLexer "[1 2]")))
           "expected ',' or ']' after array value").
  by vm_compute.
Defined.

Lemma ProcessChar_in_string_accepts_witness :
  let sp := fst (decode "{'a':'x") in
  inString sp = true
  /\ snd (@ProcessChar go_strconv "}" sp) = None
  /\ inString (fst (@ProcessChar go_strconv "}" sp)) = true.
Proof.
  cbn zeta. split; [by vm_compute|].
  destruct (@ProcessChar_in_string_accepts go_strconv "}"
              (fst (decode "{'a':'x"))) as [H1 H2]; [by vm_compute|].
  split; [exact H1|]. apply H2. right. discriminate.
Defined.

Lemma number_waits_for_closer_witness :
  let sp := fst (decode "{'a':") in
  let x := mkNumber false "12" None None in
  let sp1 := fst (@ProcessString go_strconv "12" sp) in
  idle sp
  /\ output sp1 = output sp /\ buffer sp1 = "12"
  /\ @flush_number go_strconv "}" sp1 = set_buffer "" (addValue (AInt64 12) sp1).
Proof.
  cbn zeta. split; [by vm_compute|].
  destruct (@number_waits_for_closer go_strconv
              (mkNumber false "12" None None) (fst (decode "{'a':")))
    as (s1 & H1 & H2 & _ & H4 & H5); [by vm_compute..|].
  change (number_text (mkNumber false "12" None None) "") with "12" in *.
  rewrite H1. cbn [fst]. split; [exact H2|]. split; [exact H4|].
  apply (H5 "}"%char). reflexivity.
Defined.

Lemma addValue_mapping_entry_witness :
  let sp := fst (decode "{'a':1,'b':") in
  last (keys sp) = Some "b"
  /\ map_entry (addValue (ABool true) sp) AMapPtr "b" = Some (ABool true)
  /\ map_entry (addValue (ABool true) sp) AMapPtr "a" = Some (AInt64 1).
Proof.
  cbn zeta. split; [by vm_compute|].
  destruct (addValue_mapping_entry (ABool true) (fst (decode "{'a':1,'b':"))
              AMapPtr "b") as [H1 H2];
    [by vm_compute|by vm_compute|by left|].
  split; [exact H1|]. rewrite (H2 "a"); [by vm_compute|discriminate].
Defined.

Lemma addValue_without_key_witness :
  let sp := fst (decode "{") in
  keys sp = [] /\ addValue (AInt64 1) sp = sp.
Proof.
  cbn zeta. split; [by vm_compute|].
  apply addValue_without_key; by vm_compute.
Defined.

Lemma ParsePartialJSONObject_rejects_non_object_witness :
  @doc_ok go_strconv example_array = true
  /\ @ParsePartialJSONObject go_strconv (render example_array " ")
     = Some (Err "input is not a JSON object").
Proof.
  split; [by vm_compute|].
  apply (@ParsePartialJSONObject_rejects_non_object go_strconv example_array
           "" " "); by vm_compute.
Defined.


